(** * text-metrics: unit conversion, text preparation, line packing and
      font fitting

    A shallow embedding of [utils.ts] (unit conversion, whitespace
    normalisation, text preparation, break classes and the two line packing
    policies) and of the [TextMetrics] class ([width], [maxFontSize]).

    Conventions of the embedding.
    - A JavaScript string is the list of its UTF-16 code units ([jsstring]).
    - A JavaScript number is [NaN], an infinity or a finite rational.  Finite
      arithmetic is exact: a decimal literal of at most 15 significant digits
      is printed back by [numberToString] as its shortest numeral, as an IEEE
      double is.  The sign of zero is not tracked.  Where the code would
      round (a numeral or a result that is no double, a step of one from
      2^53 on) the embedding does not; the properties that depend on it are
      stated within those bounds.
    - A function that can throw returns a [result].
    - [new CSSStyleDeclaration()] is taken to give a plain object, as it does
      where the class can be used at all. *)

From Stdlib Require Import ZArith NArith QArith Qround List String Ascii Bool Lia Lqa.
From Stdlib Require DecimalN.
Import ListNotations.

Local Open Scope Z_scope.

(** ** Strings *)

Definition jsstring := list N.

(** The code units of an ASCII literal. *)
Definition js (s : string) : jsstring :=
  List.map N_of_ascii (list_ascii_of_string s).

Fixpoint str_eqb (a b : jsstring) : bool :=
  match a, b with
  | [], [] => true
  | x :: a', y :: b' => N.eqb x y && str_eqb a' b'
  | _, _ => false
  end.

Fixpoint startsWith (pat s : jsstring) : bool :=
  match pat, s with
  | [], _ => true
  | p :: pat', c :: s' => N.eqb p c && startsWith pat' s'
  | _ :: _, [] => false
  end.

(** [String.prototype.replace] with a string pattern: the first occurrence
    only; the text is returned as it is when the pattern does not occur. *)
Fixpoint replace (s pat repl : jsstring) : jsstring :=
  if startsWith pat s then repl ++ skipn (List.length pat) s
  else match s with
       | [] => []
       | c :: s' => c :: replace s' pat repl
       end.

(** [\s] of a regular expression, which is also what [trim] strips:
    WhiteSpace and LineTerminator. *)
Definition isSpace (c : N) : bool :=
  ((9 <=? c) && (c <=? 13) || (c =? 32) || (c =? 160) || (c =? 0x1680)
   || (0x2000 <=? c) && (c <=? 0x200A) || (c =? 0x2028) || (c =? 0x2029)
   || (c =? 0x202F) || (c =? 0x205F) || (c =? 0x3000) || (c =? 0xFEFF))%N.

Fixpoint trimStart (s : jsstring) : jsstring :=
  match s with
  | c :: s' => if isSpace c then trimStart s' else s
  | [] => []
  end.

Definition trimEnd (s : jsstring) : jsstring := rev (trimStart (rev s)).

Definition trim (s : jsstring) : jsstring := trimEnd (trimStart s).

(** [replace(/\s+/g, ' ')]: every maximal run of white space becomes one
    space.  A white space character followed by another one is dropped, the
    last one of a run is written as a space. *)
Fixpoint collapseSpaces (s : jsstring) : jsstring :=
  match s with
  | [] => []
  | c :: s' =>
      if isSpace c then
        match s' with
        | d :: _ => if isSpace d then collapseSpaces s' else 32%N :: collapseSpaces s'
        | [] => [32%N]
        end
      else c :: collapseSpaces s'
  end.

(** ** Numbers *)

Inductive number :=
| NaN
| Inf (negative : bool)
| Fin (q : Q).

Definition num (z : Z) : number := Fin (inject_Z z).

Definition q_neg (q : Q) : bool := Qnum q <? 0.
Definition q_zero (q : Q) : bool := Qnum q =? 0.

Definition num_mul (a b : number) : number :=
  match a, b with
  | NaN, _ | _, NaN => NaN
  | Inf s, Inf t => Inf (xorb s t)
  | Inf s, Fin q | Fin q, Inf s => if q_zero q then NaN else Inf (xorb s (q_neg q))
  | Fin p, Fin q => Fin (Qred (p * q)%Q)
  end.

Definition num_div (a b : number) : number :=
  match a, b with
  | NaN, _ | _, NaN => NaN
  | Inf _, Inf _ => NaN
  | Inf s, Fin q => Inf (xorb s (q_neg q))
  | Fin _, Inf _ => Fin 0%Q
  | Fin p, Fin q =>
      if q_zero q then (if q_zero p then NaN else Inf (q_neg p))
      else Fin (Qred (p / q)%Q)
  end.

Definition num_add (a b : number) : number :=
  match a, b with
  | NaN, _ | _, NaN => NaN
  | Inf s, Inf t => if eqb s t then Inf s else NaN
  | Inf s, Fin _ | Fin _, Inf s => Inf s
  | Fin p, Fin q => Fin (Qred (p + q)%Q)
  end.

Definition num_opp (a : number) : number :=
  match a with
  | NaN => NaN
  | Inf s => Inf (negb s)
  | Fin q => Fin (Qred (- q)%Q)
  end.

Definition num_sub (a b : number) : number := num_add a (num_opp b).

(** [a < b]; every comparison with [NaN] is false. *)
Definition num_lt (a b : number) : bool :=
  match a, b with
  | NaN, _ | _, NaN => false
  | Inf s, Inf t => s && negb t
  | Inf s, Fin _ => s
  | Fin _, Inf t => negb t
  | Fin p, Fin q => match (p ?= q)%Q with Lt => true | _ => false end
  end.

(** [a === b] on numbers. *)
Definition num_eq (a b : number) : bool :=
  match a, b with
  | NaN, _ | _, NaN => false
  | Inf s, Inf t => eqb s t
  | Fin p, Fin q => Qeq_bool p q
  | _, _ => false
  end.

Definition num_le (a b : number) : bool := num_lt a b || num_eq a b.
Definition num_gt (a b : number) : bool := num_lt b a.

(** [Math.floor], [Math.ceil] and [Math.round] (half-way cases go up). *)
Definition Math_floor (a : number) : number :=
  match a with Fin q => num (Qfloor q) | _ => a end.

Definition Math_ceil (a : number) : number :=
  match a with Fin q => num (Qceiling q) | _ => a end.

Definition Math_round (a : number) : number :=
  match a with Fin q => num (Qfloor (q + (1 # 2))%Q) | _ => a end.

(** Truthiness of a number: neither zero nor [NaN]. *)
Definition num_truthy (a : number) : bool :=
  match a with
  | NaN => false
  | Inf _ => true
  | Fin q => negb (q_zero q)
  end.

(** *** Numerals *)

Definition isDigit (c : N) : bool := ((48 <=? c) && (c <=? 57))%N.

(** The longest prefix of decimal digits, and what follows it. *)
Fixpoint spanDigits (s : jsstring) : jsstring * jsstring :=
  match s with
  | c :: s' =>
      if isDigit c then let (ds, r) := spanDigits s' in (c :: ds, r) else ([], s)
  | [] => ([], [])
  end.

Definition digitsValue (ds : jsstring) : Z :=
  fold_left (fun acc d => 10 * acc + (Z.of_N d - 48)) ds 0.

(** [m * 10^e] as a rational in lowest terms. *)
Definition scale10 (m e : Z) : Q :=
  if 0 <=? e then inject_Z (m * 10 ^ e) else Qred (m # Z.to_pos (10 ^ (- e))).

(** The value of an ExponentPart at the head of [s], 0 when there is none
    (an [e] that no digit follows is not part of the numeral). *)
Definition exponentPart (s : jsstring) : Z :=
  match s with
  | c :: s1 =>
      if ((c =? 101) || (c =? 69))%N then
        let '(neg, s2) :=
          match s1 with
          | 43%N :: t => (false, t)
          | 45%N :: t => (true, t)
          | _ => (false, s1)
          end in
        let (ds, _) := spanDigits s2 in
        match ds with
        | [] => 0
        | _ => if neg then - digitsValue ds else digitsValue ds
        end
      else 0
  | [] => 0
  end.

(** StrUnsignedDecimalLiteral: [Infinity], or digits with an optional
    fraction and exponent, or a fraction that starts with the point. *)
Definition unsignedLiteral (s : jsstring) : option number :=
  if startsWith (js "Infinity") s then Some (Inf false)
  else
    let (ip, r1) := spanDigits s in
    let '(fp, r2) :=
      match r1 with
      | 46%N :: t =>
          let (fp, r2) := spanDigits t in
          match ip, fp with
          | [], [] => ([], r1)
          | _, _ => (fp, r2)
          end
      | _ => ([], r1)
      end in
    match ip, fp with
    | [], [] => None
    | _, _ =>
        Some (Fin (scale10 (digitsValue (ip ++ fp))
                           (exponentPart r2 - Z.of_nat (List.length fp))))
    end.

(** [Number.parseFloat]: leading white space is skipped, then the longest
    prefix that is a decimal literal is read; [NaN] when there is none. *)
Definition parseFloat (s : jsstring) : number :=
  let s := trimStart s in
  let '(neg, s) :=
    match s with
    | 43%N :: t => (false, t)
    | 45%N :: t => (true, t)
    | _ => (false, s)
    end in
  match unsignedLiteral s with
  | Some v => if neg then num_opp v else v
  | None => NaN
  end.

Fixpoint uint_units (u : Decimal.uint) : jsstring :=
  match u with
  | Decimal.Nil => []
  | Decimal.D0 u => 48%N :: uint_units u
  | Decimal.D1 u => 49%N :: uint_units u
  | Decimal.D2 u => 50%N :: uint_units u
  | Decimal.D3 u => 51%N :: uint_units u
  | Decimal.D4 u => 52%N :: uint_units u
  | Decimal.D5 u => 53%N :: uint_units u
  | Decimal.D6 u => 54%N :: uint_units u
  | Decimal.D7 u => 55%N :: uint_units u
  | Decimal.D8 u => 56%N :: uint_units u
  | Decimal.D9 u => 57%N :: uint_units u
  end.

(** The decimal digits of a natural number. *)
Definition natDigits (n : Z) : jsstring := uint_units (N.to_uint (Z.to_N n)).

(** The least [k] with [a * 10^k] a multiple of [b], and that quotient; the
    search stops when the fuel is spent (a fraction that does not
    terminate). *)
Fixpoint fractionDigits (fuel : nat) (a b : Z) (k : nat) : Z * nat :=
  if a mod b =? 0 then (a / b, k)
  else match fuel with
       | O => (a / b, k)
       | S fuel' => fractionDigits fuel' (10 * a) b (S k)
       end.

Fixpoint dropZeros (s : jsstring) : jsstring :=
  match s with
  | 48%N :: s' => dropZeros s'
  | _ => s
  end.

(** Number::toString of a positive rational: [s] holds the [k] significant
    digits and [n] places the decimal point. *)
Definition positiveToString (q : Q) : jsstring :=
  let q := Qred q in
  let b := Zpos (Qden q) in
  let (m, kk) := fractionDigits (Pos.size_nat (Qden q)) (Qnum q) b 0 in
  let ds := natDigits m in
  let s := rev (dropZeros (rev ds)) in
  let k := Z.of_nat (List.length s) in
  let n := Z.of_nat (List.length ds) - Z.of_nat kk in
  if (k <=? n) && (n <=? 21) then s ++ repeat 48%N (Z.to_nat (n - k))
  else if (0 <? n) && (n <=? 21) then
    firstn (Z.to_nat n) s ++ js "." ++ skipn (Z.to_nat n) s
  else if (-6 <? n) && (n <=? 0) then
    js "0." ++ repeat 48%N (Z.to_nat (- n)) ++ s
  else
    let e := (if 0 <=? n - 1 then js "+" else js "-") ++ natDigits (Z.abs (n - 1)) in
    match s with
    | [d] => d :: js "e" ++ e
    | d :: s' => d :: js "." ++ s' ++ js "e" ++ e
    | [] => []
    end.

(** [Number.prototype.toString]. *)
Definition numberToString (v : number) : jsstring :=
  match v with
  | NaN => js "NaN"
  | Inf false => js "Infinity"
  | Inf true => js "-Infinity"
  | Fin q =>
      if q_zero q then js "0"
      else if q_neg q then js "-" ++ positiveToString (Qopp q)
      else positiveToString q
  end.

(** ** Values, objects and errors *)

Inductive jsval :=
| VUndefined
| VBool (b : bool)
| VNum (n : number)
| VStr (s : jsstring).

Definition truthy (v : jsval) : bool :=
  match v with
  | VUndefined => false
  | VBool b => b
  | VNum n => num_truthy n
  | VStr s => match s with [] => false | _ => true end
  end.

Definition toString (v : jsval) : jsstring :=
  match v with
  | VUndefined => js "undefined"
  | VBool true => js "true"
  | VBool false => js "false"
  | VNum n => numberToString n
  | VStr s => s
  end.

(** An options or style object: its own properties, by name. *)
Definition obj := list (string * jsval).

Fixpoint get (o : obj) (attr : string) : jsval :=
  match o with
  | [] => VUndefined
  | (k, v) :: o' => if String.eqb k attr then v else get o' attr
  end.

(** [Number.parseInt(v, 10)]. *)
Definition parseInt (v : jsval) : number :=
  let s := trimStart (toString v) in
  let '(neg, s) :=
    match s with
    | 43%N :: t => (false, t)
    | 45%N :: t => (true, t)
    | _ => (false, s)
    end in
  match fst (spanDigits s) with
  | [] => NaN
  | ds => num (if neg then - digitsValue ds else digitsValue ds)
  end.

Inductive result (A : Type) :=
| Ok (a : A)
| Throw (message : jsstring).
Arguments Ok {A} a.
Arguments Throw {A} message.

Definition bind {A B : Type} (r : result A) (k : A -> result B) : result B :=
  match r with
  | Ok a => k a
  | Throw m => Throw m
  end.

Notation "x <- r ;; k" := (bind r (fun x => k))
  (at level 61, r at next level, right associativity).

(** ** utils.ts *)

(** [prop]: the property when the object is there and the property is
    truthy, the default otherwise. *)
Definition prop (src : option obj) (attr : string) (defaultValue : jsval) : jsval :=
  match src with
  | Some o => if truthy (get o attr) then get o attr else defaultValue
  | None => defaultValue
  end.

Definition pxValue (value_ : jsstring) (options : option obj) : result number :=
  let options :=
    match options with
    | Some o => o
    | None => [("multiline"%string, VBool false)]
    end in
  let baseFontSize := parseInt (prop (Some options) "base-font-size" (VNum (num 16))) in
  let value := parseFloat value_ in
  let unit := replace value_ (numberToString value) [] in
  if str_eqb unit (js "rem") || str_eqb unit (js "em") then
    Ok (num_mul value baseFontSize)
  else if str_eqb unit (js "pt") then
    Ok (num_div value (num_div (num 96) (num 72)))
  else if str_eqb unit (js "px") then
    Ok value
  else
    Throw (js "The unit " ++ unit ++ js " is not supported").

(** [s.split(' ')]. *)
Fixpoint split (sep : N) (s : jsstring) : list jsstring :=
  match s with
  | [] => [[]]
  | c :: s' =>
      if (c =? sep)%N then [] :: split sep s'
      else match split sep s' with
           | piece :: rest => (c :: piece) :: rest
           | [] => [[c]]
           end
  end.

(** Membership in a [Set<string>]. *)
Definition has (set : list jsstring) (x : jsstring) : bool :=
  existsb (str_eqb x) set.

Definition blacklist : list jsstring :=
  [js "inherit"; js "initial"; js "unset"; js "normal"].

(** Whether a spacing value is given ([ws && !blacklist.has(ws)]). *)
Definition spacingGiven (v : option jsstring) : option jsstring :=
  match v with
  | Some (c :: r) => if has blacklist (c :: r) then None else Some (c :: r)
  | _ => None
  end.

Definition spacingOf (wordAddon letterAddon : number) (text : jsstring) : number :=
  let words := num (Z.of_nat (List.length (split 32 (collapseSpaces (trim text)))) - 1) in
  let chars := num (Z.of_nat (List.length text)) in
  num_add (num_mul words wordAddon) (num_mul chars letterAddon).

Definition addWordAndLetterSpacing (ws ls : option jsstring)
  : result (jsstring -> number) :=
  wordAddon <- match spacingGiven ws with
               | Some v => pxValue v None
               | None => Ok (num 0)
               end ;;
  letterAddon <- match spacingGiven ls with
                 | Some v => pxValue v None
                 | None => Ok (num 0)
                 end ;;
  Ok (spacingOf wordAddon letterAddon).

(** [text || '']. *)
Definition orEmpty (text : option jsstring) : jsstring :=
  match text with
  | Some t => t
  | None => []
  end.

(** [replace(/[\r\n]/gm, ' ')]. *)
Definition replaceNewlines (s : jsstring) : jsstring :=
  List.map (fun c => if ((c =? 13) || (c =? 10))%N then 32%N else c) s.

Definition normalizeWhitespace (text ws : option jsstring) : option jsstring :=
  let ws := orEmpty ws in
  if str_eqb ws (js "pre") then text
  else if str_eqb ws (js "pre-wrap") then text
  else if str_eqb ws (js "pre-line") then Some (trim (collapseSpaces (orEmpty text)))
  else Some (trim (collapseSpaces (replaceNewlines (orEmpty text)))).

(** *** Regular expressions of [prepareText] *)

(** A global replace: at each position where [matchAt] gives the length of
    a match, the match is replaced and scanning resumes behind it; any other
    code unit is copied.  [skip] counts the code units of a match that are
    still to be passed over. *)
Fixpoint replaceAll (matchAt : jsstring -> option nat) (repl : jsstring)
    (skip : nat) (s : jsstring) : jsstring :=
  match s with
  | [] => []
  | c :: s' =>
      match skip with
      | S k => replaceAll matchAt repl k s'
      | O =>
          match matchAt s with
          | Some (S n) => repl ++ replaceAll matchAt repl n s'
          | _ => c :: replaceAll matchAt repl O s'
          end
      end
  end.

(** Case folding of the [i] flag, on the ASCII letters of the patterns. *)
Definition lower (c : N) : N :=
  if ((65 <=? c) && (c <=? 90))%N then (c + 32)%N else c.

(** A literal pattern (given in lower case) at the head of [s], ignoring
    case. *)
Fixpoint literalAt (pat s : jsstring) : bool :=
  match pat, s with
  | [], _ => true
  | p :: pat', c :: s' => N.eqb p (lower c) && literalAt pat' s'
  | _ :: _, [] => false
  end.

Definition matchLiteral (pat s : jsstring) : option nat :=
  if literalAt pat s then Some (List.length pat) else None.

Fixpoint spaceRun (s : jsstring) : nat :=
  match s with
  | c :: s' => if isSpace c then S (spaceRun s') else O
  | [] => O
  end.

(** [/<br\s*\/?>/i] at the head of [s]. *)
Definition matchBr (s : jsstring) : option nat :=
  if literalAt (js "<br") s then
    let n := spaceRun (skipn 3 s) in
    match skipn (3 + n) s with
    | 47%N :: 62%N :: _ => Some (3 + n + 2)%nat
    | 62%N :: _ => Some (3 + n + 1)%nat
    | _ => None
    end
  else None.

(** [prepareText]; the [console.error] about encoded entities does not
    change the result and is left out. *)
Definition prepareText (text : option jsstring) : jsstring :=
  let text := replaceAll (matchLiteral (js "<wbr>")) [0x200B%N] 0 (orEmpty text) in
  let text := replaceAll matchBr [0x000A%N] 0 text in
  let text := replaceAll (matchLiteral (js "&shy;")) [0x00AD%N] 0 text in
  replaceAll (matchLiteral (js "&mdash;")) [0x2014%N] 0 text.

(** *** Break classes *)

(** The sets hold strings.  A [\u] escape takes four hexadecimal digits, so
    the last seven literals of [BA] are two code units long: a code unit
    such as U+1010 and a digit or letter. *)
Definition B2 : list jsstring := [[0x2014%N]].

Definition SHY : list jsstring := [[0x00AD%N]].

Definition BAI : list jsstring :=
  List.map (fun c => [c])
    [0x0020; 0x1680; 0x2000; 0x2001; 0x2002; 0x2003; 0x2004; 0x2005; 0x2006;
     0x2008; 0x2009; 0x200A; 0x205F; 0x3000; 0x0009; 0x200B; 0x2028; 0x2029]%N.

Definition BA : list jsstring :=
  List.map (fun c => [c])
    [0x058A; 0x2010; 0x2012; 0x2013; 0x05BE; 0x0F0B; 0x1361; 0x17D8; 0x17DA;
     0x2027; 0x007C; 0x16EB; 0x16EC; 0x16ED; 0x2056; 0x2058; 0x2059; 0x205A;
     0x205B; 0x205D; 0x205E; 0x2E19; 0x2E2A; 0x2E2B; 0x2E2C; 0x2E2D; 0x2E30]%N
  ++ [[0x1010; 0x30]; [0x1010; 0x31]; [0x1010; 0x32]; [0x1039; 0x46];
      [0x103D; 0x30]; [0x1091; 0x46]; [0x1247; 0x30]]%N.

Definition BB : list jsstring := [[0x00B4%N]; [0x1FFD%N]].

Definition BK : list jsstring := [[0x000A%N]].

Inductive BreakType := tB2 | tBAI | tSHY | tBA | tBB | tBK.

Definition BreakType_eqb (a b : BreakType) : bool :=
  match a, b with
  | tB2, tB2 | tBAI, tBAI | tSHY, tSHY | tBA, tBA | tBB, tBB | tBK, tBK => true
  | _, _ => false
  end.

(** [checkBreak]; [None] is the falsy result. *)
Definition checkBreak (chr : jsstring) : option BreakType :=
  if has B2 chr then Some tB2
  else if has BAI chr then Some tBAI
  else if has SHY chr then Some tSHY
  else if has BA chr then Some tBA
  else if has BB chr then Some tBB
  else if has BK chr then Some tBK
  else None.

(** Modelled from the spec: the declaration of [Breakpoint]
    (definitions/breakpoint) is not among the sources.  A breakpoint pairs a
    boundary character with its break class, as the scan builds it. *)
Record Breakpoint := { chr : jsstring; type : BreakType }.

(** What [for (const chr of text)] iterates over: code points, a surrogate
    pair being one string of two code units. *)
Fixpoint codePoints (s : jsstring) : list jsstring :=
  match s with
  | [] => []
  | c :: s' =>
      match s' with
      | d :: s'' =>
          if ((0xD800 <=? c) && (c <=? 0xDBFF) && (0xDC00 <=? d) && (d <=? 0xDFFF))%N
          then [c; d] :: codePoints s''
          else [c] :: codePoints s'
      | [] => [[c]]
      end
  end.

(** *** Line packing *)

(** Modelled from the spec: the declaration of [ComputeLinesParams]
    (definitions/compute-lines-params) is not among the sources.  The fields
    are those that the two policies read: the text, the width to fill, the
    two spacing values and the rendering context, of which [ctx] keeps
    [measureText(s).width]. *)
Record ComputeLinesParams := {
  ctx : jsstring -> Q;
  text : option jsstring;
  max : number;
  wordSpacing : option jsstring;
  letterSpacing : option jsstring
}.

(** Measured width with the spacing added. *)
Definition rawWidth (parameters : ComputeLinesParams)
    (addSpacing : jsstring -> number) (s : jsstring) : number :=
  num_add (Fin (ctx parameters s)) (addSpacing s).

(** One turn of the scan for breakpoints; the state is
    [(parts, breakpoints, part)]. *)
Definition scanStep (st : list jsstring * list Breakpoint * jsstring) (chr : jsstring)
  : list jsstring * list Breakpoint * jsstring :=
  let '(parts, breakpoints, part) := st in
  match checkBreak chr with
  | Some ty =>
      match part, ty with
      | [], tBAI => st
      | _, _ => (parts ++ [part], breakpoints ++ [{| chr := chr; type := ty |}], [])
      end
  | None => (parts, breakpoints, part ++ chr)
  end.

Definition scanParts (t : jsstring) : list jsstring * list Breakpoint :=
  let '(parts, breakpoints, part) := fold_left scanStep (codePoints t) ([], [], []) in
  (match part with [] => parts | _ => parts ++ [part] end, breakpoints).

Section PackDefault.
Variable parameters : ComputeLinesParams.
Variable addSpacing : jsstring -> number.
Variable parts : list jsstring.
Variable breakpoints : list Breakpoint.

(** The body of the loop over the parts at index [i]; the state is
    [(lines, line)]. *)
Definition packStep (i : nat) (st : list jsstring * jsstring)
  : result (list jsstring * jsstring) :=
  let '(lines, line) := st in
  match i with
  | O => Ok (lines, nth 0 parts [])
  | S j =>
      let part := nth i parts [] in
      if has BAI (nth j parts []) && has BAI part then Ok (lines, line)
      else
        match nth_error breakpoints j with
        | None => Throw (js "TypeError: breakpoint is undefined")
        | Some breakpoint =>
            let chr := if BreakType_eqb (type breakpoint) tSHY then []
                       else chr breakpoint in
            if BreakType_eqb (type breakpoint) tBK then Ok (lines ++ [line], part)
            else
              let width := Math_round (rawWidth parameters addSpacing (line ++ chr ++ part)) in
              if num_le width (max parameters) then Ok (lines, line ++ chr ++ part)
              else
                match type breakpoint with
                | tSHY => Ok (lines ++ [line ++ js "-"], part)
                | tBA => Ok (lines ++ [line ++ chr], part)
                | tBAI => Ok (lines ++ [line], part)
                | tBB => Ok (lines ++ [line], chr ++ part)
                | tB2 =>
                    if num_le (rawWidth parameters addSpacing (line ++ chr))
                              (max parameters)
                    then Ok (lines ++ [line ++ chr], part)
                    else if num_le (rawWidth parameters addSpacing (chr ++ part))
                                   (max parameters)
                    then Ok (lines ++ [line], chr ++ part)
                    else Ok (lines ++ [line; chr], part)
                | tBK => Throw (js "Undefoined break")
                end
        end
  end.

(** [n] turns of the loop from index [i]. *)
Fixpoint packLoop (n i : nat) (st : list jsstring * jsstring)
  : result (list jsstring * jsstring) :=
  match n with
  | O => Ok st
  | S n' => st' <- packStep i st ;; packLoop n' (S i) st'
  end.
End PackDefault.

Definition flush (st : list jsstring * jsstring) : list jsstring :=
  match snd st with
  | [] => fst st
  | line => fst st ++ [line]
  end.

Definition computeLinesDefault (parameters : ComputeLinesParams)
  : result (list jsstring) :=
  addSpacing <- addWordAndLetterSpacing (wordSpacing parameters)
                                        (letterSpacing parameters) ;;
  match text parameters with
  | None | Some [] => Ok []
  | Some t =>
      let (parts, breakpoints) := scanParts t in
      st <- packLoop parameters addSpacing parts breakpoints
              (List.length parts) 0 ([], []) ;;
      Ok (flush st)
  end.

Section PackBreakAll.
Variable parameters : ComputeLinesParams.
Variable addSpacing : jsstring -> number.

Definition lastUnit (line : jsstring) : jsstring :=
  match rev line with
  | c :: _ => [c]
  | [] => []
  end.

(** [parameters.text[i] || '']. *)
Definition unitAt (i : nat) : jsstring :=
  match nth_error (orEmpty (text parameters)) i with
  | Some c => [c]
  | None => []
  end.

(** The body of the loop over the characters; the state is
    [(lines, line, index)]. *)
Definition breakAllStep (st : list jsstring * jsstring * nat) (chr : jsstring)
  : list jsstring * jsstring * nat :=
  let '(lines, line, index) := st in
  let type := checkBreak chr in
  match type with
  | Some tBK => (lines ++ [line], [], index)
  | _ =>
      if has BAI chr && (match line with [] => true | _ => has BAI (lastUnit line) end)
      then st
      else
        let width :=
          match type with
          | Some tSHY =>
              let next := unitAt (index + 1) in
              Math_ceil (rawWidth parameters addSpacing (line ++ chr ++ next))
          | _ => Math_ceil (rawWidth parameters addSpacing (line ++ chr))
          end in
        if num_gt width (max parameters) && (match line with [] => false | _ => true end)
        then
          match type with
          | Some tSHY => (lines ++ [line ++ js "-"], [], S index)
          | Some tBA => (lines ++ [line ++ chr], [], S index)
          | Some tBAI => (lines ++ [line], [], S index)
          | _ => (lines ++ [line], chr, S index)
          end
        else if negb (str_eqb chr [0x00AD%N]) then (lines, line ++ chr, S index)
        else (lines, line, S index)
  end.
End PackBreakAll.

Definition computeLinesBreakAll (parameters : ComputeLinesParams)
  : result (list jsstring) :=
  addSpacing <- addWordAndLetterSpacing (wordSpacing parameters)
                                        (letterSpacing parameters) ;;
  match text parameters with
  | None | Some [] => Ok []
  | Some t =>
      let '(lines, line, _) :=
        fold_left (breakAllStep parameters addSpacing) (codePoints t) ([], [], O) in
      Ok (flush (lines, line))
  end.

(** ** The TextMetrics class *)

(** What running code does: it returns, throws, or is still running when the
    fuel of its loops is spent. *)
Inductive run (A : Type) :=
| Returns (a : A)
| Throws (message : jsstring)
| Diverges.
Arguments Returns {A} a.
Arguments Throws {A} message.
Arguments Diverges {A}.

Definition lift {A : Type} (r : result A) : run A :=
  match r with
  | Ok a => Returns a
  | Throw m => Throws m
  end.

Definition rbind {A B : Type} (r : run A) (k : A -> run B) : run B :=
  match r with
  | Returns a => k a
  | Throws m => Throws m
  | Diverges => Diverges
  end.

Notation "x <~ r ;; k" := (rbind r (fun x => k))
  (at level 61, r at next level, right associativity).

(** *** The search of [maxFontSize] *)

Section Search.
(** [compute] renders the text at a font size and gives its width; [max]
    is the width to fill. *)
Variable compute : number -> result number.
Variable max : number.

(** [size ? size.toString() + 'px' : undefined], as the size itself. *)
Definition sizeOrUndefined (size : number) : option number :=
  if num_truthy size then Some size else None.

(** [while (cur > max && size > 0) { size -= 1; cur = compute(size); }] *)
Fixpoint decrease (fuel : nat) (size cur : number) : run (number * number) :=
  if num_gt cur max && num_gt size (num 0) then
    match fuel with
    | O => Diverges
    | S fuel' =>
        let size := num_sub size (num 1) in
        cur <~ lift (compute size) ;;
        decrease fuel' size cur
    end
  else Returns (size, cur).

(** [while (cur < max) { cur = compute(size + 1);
      if (cur > max) return ...; size += 1; }] and the [return] behind
    it. *)
Fixpoint increase (fuel : nat) (size cur : number) : run (option number) :=
  if num_lt cur max then
    match fuel with
    | O => Diverges
    | S fuel' =>
        cur <~ lift (compute (num_add size (num 1))) ;;
        if num_gt cur max then Returns (sizeOrUndefined size)
        else increase fuel' (num_add size (num 1)) cur
    end
  else Returns (sizeOrUndefined size).

Definition search (fuel : nat) : run (option number) :=
  let size := Math_floor (num_div max (num 2)) in
  cur <~ lift (compute size) ;;
  let size := Math_floor (num_mul (num_div size cur) max) in
  cur <~ lift (compute size) ;;
  if num_eq (Math_ceil cur) max then Returns (sizeOrUndefined size)
  else
    let greater := num_gt cur max && num_gt size (num 0) in
    st <~ decrease fuel size cur ;;
    let '(size, cur) := st in
    if negb greater then increase fuel size cur
    else Returns (sizeOrUndefined size).

(** The variant with the loops under an if/else on the search
    direction. *)
Definition search_ifelse (fuel : nat) : run (option number) :=
  let size := Math_floor (num_div max (num 2)) in
  cur <~ lift (compute size) ;;
  let size := Math_floor (num_mul (num_div size cur) max) in
  cur <~ lift (compute size) ;;
  if num_eq (Math_ceil cur) max then Returns (sizeOrUndefined size)
  else if num_gt cur max && num_gt size (num 0) then
    st <~ decrease fuel size cur ;;
    Returns (sizeOrUndefined (fst st))
  else increase fuel size cur.
End Search.

(** *** Options, styles and the host *)

(** [a || b]. *)
Definition por (a b : jsval) : jsval := if truthy a then a else b.

(** A string where the code compares with or converts a string. *)
Definition asString (v : jsval) : option jsstring :=
  match v with
  | VStr s => Some s
  | _ => None
  end.

Definition isUpper (a : ascii) : bool :=
  (65 <=? N_of_ascii a)%N && (N_of_ascii a <=? 90)%N.

(** [key.replace(/([A-Z])/g, ($1) => '-' + $1.toLowerCase())]. *)
Fixpoint dashed (key : string) : string :=
  match key with
  | EmptyString => EmptyString
  | String a key' =>
      if isUpper a
      then String "-" (String (ascii_of_N (N_of_ascii a + 32)) (dashed key'))
      else String a (dashed key')
  end.

(** [o[k] = v]: the property is overwritten where it is, or added. *)
Fixpoint setProperty (o : obj) (k : string) (v : jsval) : obj :=
  match o with
  | [] => [(k, v)]
  | (k', v') :: o' =>
      if String.eqb k' k then (k', v) :: o' else (k', v') :: setProperty o' k v
  end.

(** [normalizeOptions]: every key of the options is written under its
    dashed key, in the order of the keys, so that of two keys that fall
    together the later one stays. *)
Definition normalizeOptions (options : option obj) : obj :=
  match options with
  | Some o =>
      fold_left (fun options_ kv => setProperty options_ (dashed (fst kv)) (get o (fst kv)))
                o []
  | None => []
  end.

(** [{...a, ...b}]: the properties of [b] come first in the lookup. *)
Definition spread (a b : obj) : obj := b ++ a.

Record HTMLElement := {
  textContent : jsstring;
  offsetWidth : number
}.

(** What the browser provides: the canvas (or the error of creating it),
    which measures a text in a font, and the case mappings of strings. *)
Record Host := {
  canvas : result (jsstring -> jsstring -> Q);
  toUpperCase : jsstring -> jsstring;
  toLowerCase : jsstring -> jsstring
}.

(** An instance: [style] is [this.style.getPropertyValue], also for the
    properties read as fields ([width], [paddingLeft], [paddingRight]). *)
Record TextMetrics := {
  el : option HTMLElement;
  overwrites : obj;
  style : string -> jsval
}.

Definition DEFAULTS : obj :=
  [("font-size"%string, VStr (js "16px"));
   ("font-weight"%string, VStr (js "400"));
   ("font-family"%string, VStr (js "Helvetica, Arial, sans-serif"))].

(** [array.join(' ')]. *)
Fixpoint join (parts : list jsstring) : jsstring :=
  match parts with
  | [] => []
  | [x] => x
  | x :: rest => x ++ js " " ++ join rest
  end.

Definition includes (l : list jsstring) (v : jsval) : bool :=
  match v with
  | VStr s => has l s
  | _ => false
  end.

Definition getFont (style : string -> jsval) (options : obj) : result jsstring :=
  let fontWeight :=
    por (prop (Some options) "font-weight" (style "font-weight"%string))
        (get DEFAULTS "font-weight") in
  let font :=
    if has (List.map js ["normal"; "bold"; "bolder"; "lighter"; "100"; "200"; "300";
                         "400"; "500"; "600"; "700"; "800"; "900"]%string)
           (toString fontWeight)
    then [toString fontWeight] else [] in
  let fontStyle := prop (Some options) "font-style" (style "font-style"%string) in
  let font :=
    if includes (List.map js ["normal"; "italic"; "oblique"]%string) fontStyle
    then font ++ [toString fontStyle] else font in
  let fontVariant := prop (Some options) "font-variant" (style "font-variant"%string) in
  let font :=
    if includes (List.map js ["normal"; "small-caps"]%string) fontVariant
    then font ++ [toString fontVariant] else font in
  let fontSize :=
    por (prop (Some options) "font-size" (style "font-size"%string))
        (get DEFAULTS "font-size") in
  fontSizeValue <- match fontSize with
                   | VStr v => pxValue v None
                   | _ => Throw (js "TypeError: value_.replace is not a function")
                   end ;;
  let font := font ++ [numberToString fontSizeValue ++ js "px"] in
  let fontFamily :=
    por (prop (Some options) "font-family" (style "font-family"%string))
        (get DEFAULTS "font-family") in
  Ok (join (font ++ [toString fontFamily])).

Definition getStyledText (host : Host) (text : jsstring) (style : string -> jsval)
  : jsstring :=
  match asString (style "text-transform"%string) with
  | Some t =>
      if str_eqb t (js "uppercase") then toUpperCase host text
      else if str_eqb t (js "lowercase") then toLowerCase host text
      else text
  | None => text
  end.

Definition getText (element : option HTMLElement) : jsstring :=
  match element with
  | Some e => textContent e
  | None => []
  end.

Definition getContext2d (host : Host) (font : jsstring)
  : result (jsstring -> Q) :=
  match canvas host with
  | Ok measureText => Ok (measureText font)
  | Throw message => Throw (js "Canvas support required" ++ [10%N] ++ message)
  end.

(** A spacing as [addWordAndLetterSpacing] meets it: a string, nothing when
    the value is falsy, and the TypeError of [pxValue], which calls [replace]
    on it, when it is truthy and no string. *)
Definition spacingValue (v : jsval) : result (option jsstring) :=
  match v with
  | VStr s => Ok (Some s)
  | _ => if truthy v then Throw (js "TypeError: value_.replace is not a function")
         else Ok None
  end.

(** The two spacings, in the order in which [addWordAndLetterSpacing] meets
    them: the word spacing is converted before the letter spacing is
    looked at. *)
Definition spacingValues (ws ls : jsval) : result (option jsstring * option jsstring) :=
  ws' <- spacingValue ws ;;
  ls' <- match spacingValue ls with
         | Ok l => Ok l
         | Throw e => _ <- addWordAndLetterSpacing ws' None ;; Throw e
         end ;;
  Ok (ws', ls').

Record TextMetricsArguments := {
  arg_text : jsstring;
  arg_options : obj;
  arg_overwrites : option obj;
  arg_styles : obj
}.

Section Methods.
Variable host : Host.
Variable this : TextMetrics.

Definition padding : number :=
  match el this with
  | Some _ =>
      num_add (parseInt (por (style this "padding-left"%string) (VStr (js "0"))))
              (parseInt (por (style this "padding-right"%string) (VStr (js "0"))))
  | None => num 0
  end.

Definition this_overwrites : obj := overwrites this.

(** [parseArgs] for a text given as a string or left out.  For the options
    and the overwrites [None] is a value given as [null]; an argument that is
    left out takes its default [{}] and is [Some []]. *)
Definition parseArgs (text : option jsstring) (options overwrites : option obj)
  : TextMetricsArguments :=
  let styles := spread this_overwrites (normalizeOptions overwrites) in
  let ws := por (prop (Some styles) "white-space" VUndefined)
                (style this "white-space"%string) in
  let options :=
    match options, overwrites with
    | Some o, Some _ => o
    | _, _ => []
    end in
  let text :=
    match text, el this with
    | (None | Some []), Some _ =>
        orEmpty (normalizeWhitespace (Some (getText (el this))) (asString ws))
    | _, _ => prepareText (normalizeWhitespace text None)
    end in
  {| arg_text := text; arg_options := options;
     arg_overwrites := overwrites; arg_styles := styles |}.

(** The width to fill: the first truthy one of the [width] option, the
    element's [offsetWidth], the [width] style of the call and of the
    instance; less the padding. *)
Definition maxWidth (parsed : TextMetricsArguments) : number :=
  let max :=
    por (por (por
      (VNum (parseInt (por (prop (Some (arg_options parsed)) "width" VUndefined)
                           (prop (arg_overwrites parsed) "width" VUndefined))))
      (match el this with
       | Some e => if num_truthy (offsetWidth e) then VNum (offsetWidth e)
                   else VNum (num 0)
       | None => VNum (num 0)
       end))
      (VNum (parseInt (prop (Some (arg_styles parsed)) "width" (VNum (num 0))))))
      (VNum (parseInt (style this "width"%string))) in
  match max with
  | VNum m => num_sub m padding
  | _ => NaN
  end.

Definition lines (text : option jsstring) (options overwrites : option obj)
  : result (list jsstring) :=
  let parsed := parseArgs text options overwrites in
  font <- getFont (style this) (arg_styles parsed) ;;
  let max := maxWidth parsed in
  let wordBreak := por (prop (Some (arg_styles parsed)) "word-break" VUndefined)
                       (style this "word-break"%string) in
  let letterSpacing := por (prop (Some (arg_styles parsed)) "letter-spacing" VUndefined)
                           (style this "letter-spacing"%string) in
  let wordSpacing := por (prop (Some (arg_styles parsed)) "word-spacing" VUndefined)
                         (style this "word-spacing"%string) in
  ctx <- getContext2d host font ;;
  let styledText := getStyledText host (arg_text parsed) (style this) in
  spacing <- spacingValues wordSpacing letterSpacing ;;
  let parameters :=
    {| ctx := ctx; text := Some styledText; max := max;
       wordSpacing := fst spacing;
       letterSpacing := snd spacing |} in
  match asString wordBreak with
  | Some b =>
      if str_eqb b (js "break-all") then computeLinesBreakAll parameters
      else computeLinesDefault parameters
  | None => computeLinesDefault parameters
  end.

Definition num_max (a b : number) : number :=
  match a, b with
  | NaN, _ | _, NaN => NaN
  | _, _ => if num_lt a b then b else a
  end.

Definition width (text : option jsstring) (options overwrites : option obj)
  : result number :=
  let parsed := parseArgs text options overwrites in
  match arg_text parsed with
  | [] => Ok (num 0)
  | _ =>
      font <- getFont (style this) (arg_styles parsed) ;;
      let letterSpacing := por (prop (Some (arg_styles parsed)) "letter-spacing" VUndefined)
                               (style this "letter-spacing"%string) in
      let wordSpacing := por (prop (Some (arg_styles parsed)) "word-spacing" VUndefined)
                             (style this "word-spacing"%string) in
      spacing <- spacingValues wordSpacing letterSpacing ;;
      addSpacing <- addWordAndLetterSpacing (fst spacing) (snd spacing) ;;
      ctx <- getContext2d host font ;;
      let styledText := getStyledText host (arg_text parsed) (style this) in
      if truthy (get (arg_options parsed) "multiline") then
        ls <- lines (Some styledText) (Some (arg_options parsed))
                    (arg_overwrites parsed) ;;
        Ok (fold_left (fun previousValue currentValue =>
                         num_max previousValue
                           (num_add (Fin (ctx currentValue)) (addSpacing currentValue)))
                      ls (num 0))
      else Ok (num_add (Fin (ctx styledText)) (addSpacing styledText))
  end.

(** [maxFontSize]: the size found by the search, written in pixels. *)
Definition maxFontSize (fuel : nat) (text : option jsstring)
    (options overwrites : option obj) : run (option jsstring) :=
  let parsed := parseArgs text options overwrites in
  let compute (size : number) : result number :=
    w <- width (Some (arg_text parsed)) (Some (arg_options parsed))
               (Some (spread (arg_styles parsed)
                             [("font-size"%string,
                               VStr (numberToString size ++ js "px"))])) ;;
    Ok (Math_ceil w) in
  size <~ search compute (maxWidth parsed) fuel ;;
  Returns (option_map (fun size => numberToString size ++ js "px") size).

(** [maxFontSize] with the loops of the search under an if/else. *)
Definition maxFontSize_ifelse (fuel : nat) (text : option jsstring)
    (options overwrites : option obj) : run (option jsstring) :=
  let parsed := parseArgs text options overwrites in
  let compute (size : number) : result number :=
    w <- width (Some (arg_text parsed)) (Some (arg_options parsed))
               (Some (spread (arg_styles parsed)
                             [("font-size"%string,
                               VStr (numberToString size ++ js "px"))])) ;;
    Ok (Math_ceil w) in
  size <~ search_ifelse compute (maxWidth parsed) fuel ;;
  Returns (option_map (fun size => numberToString size ++ js "px") size).
End Methods.

(** A rendering context in which every code unit is [w] pixels wide. *)
Definition fixedWidth (w : Q) (s : jsstring) : Q :=
  (inject_Z (Z.of_nat (List.length s)) * w)%Q.

(** The parameters of a packing of [t] into the width [m] in that context,
    without spacing. *)
Definition plainParams (w : Q) (t : jsstring) (m : Z) : ComputeLinesParams :=
  {| ctx := fixedWidth w; text := Some t; max := num m;
     wordSpacing := None; letterSpacing := None |}.

(** The rounded-up width of a text that is a quarter of the font size
    wide. *)
Definition quarterWidth (size : number) : number :=
  Math_ceil (num_div size (num 4)).

(** A browser whose canvas gives every code unit one pixel, and an instance
    on an element that reads 'abc'. *)
Definition plainHost : Host :=
  {| canvas := Ok (fun _ => fixedWidth 1);
     toUpperCase := fun s => s; toLowerCase := fun s => s |}.

Definition abcElement : TextMetrics :=
  {| el := Some {| textContent := js "abc"; offsetWidth := num 100 |};
     overwrites := []; style := fun _ => VUndefined |}.

(** No text, and a word spacing in a unit that does not exist. *)
Definition emptyWithBadSpacing : ComputeLinesParams :=
  {| ctx := fixedWidth 1; text := Some []; max := num 10;
     wordSpacing := Some (js "2xyz"); letterSpacing := None |}.

(** *** The shapes of the lines of the default policy *)

Section LineShapes.
Variable parameters : ComputeLinesParams.
Variable addSpacing : jsstring -> number.
Variable parts : list jsstring.
Variable breakpoints : list Breakpoint.

(** The rounded width is within the width to fill. *)
Definition fits (s : jsstring) : Prop :=
  num_le (Math_round (rawWidth parameters addSpacing s)) (max parameters) = true.

Definition fitsUnrounded (s : jsstring) : Prop :=
  num_le (rawWidth parameters addSpacing s) (max parameters) = true.

(** A line as a split starts it: a part, or a part behind the BB or B2
    boundary that was moved to it. *)
Definition startsLine (b : jsstring) : Prop :=
  In b parts
  \/ exists bp part,
       In bp breakpoints /\ (type bp = tBB \/ type bp = tB2)
       /\ In part parts /\ b = chr bp ++ part.

(** A line while it is filled: it fits, or it is as it was started. *)
Definition body (b : jsstring) : Prop := fits b \/ startsLine b.

(** A line as it is put out: a body; a body closed with the hyphen of a
    soft hyphen or with a BA boundary; a body closed with a B2 boundary,
    its measured width within the width to fill; a B2 boundary alone. *)
Definition lineShape (l : jsstring) : Prop :=
  body l
  \/ (exists b bp, body b /\ In bp breakpoints /\ type bp = tSHY /\ l = b ++ js "-")
  \/ (exists b bp, body b /\ In bp breakpoints /\ type bp = tBA /\ l = b ++ chr bp)
  \/ (exists b bp, body b /\ In bp breakpoints /\ type bp = tB2
                   /\ l = b ++ chr bp /\ fitsUnrounded l)
  \/ (exists bp, In bp breakpoints /\ type bp = tB2 /\ l = chr bp).

(** What the specification asks of a line: to be within the width, or a
    part alone that is wider, or a B2 boundary alone. *)
Definition withinBudget (l : jsstring) : Prop :=
  fits l
  \/ (In l parts /\ ~ fits l)
  \/ (exists bp, In bp breakpoints /\ type bp = tB2 /\ l = chr bp).

(** Before turn [i] of the loop: the lines put out have the shapes, and
    from the first turn on the current line is a body. *)
Definition packInv (i : nat) (st : list jsstring * jsstring) : Prop :=
  Forall lineShape (fst st) /\ (i = O \/ body (snd st)).
End LineShapes.

(** ** Notions used by the properties *)

Definition supportedUnits : list jsstring := [js "rem"; js "em"; js "pt"; js "px"].

Definition baseFontSizeOf (options : option obj) : number :=
  parseInt (prop (Some (match options with
                        | Some o => o
                        | None => [("multiline"%string, VBool false)]
                        end)) "base-font-size" (VNum (num 16))).

(** The unit that [pxValue] reads off its argument. *)
Definition unitOf (value_ : jsstring) : jsstring :=
  replace value_ (numberToString (parseFloat value_)) [].

(** The font size that [getFont] converts. *)
Definition fontSizeOf (style : string -> jsval) (options : obj) : jsval :=
  por (prop (Some options) "font-size" (style "font-size"%string))
      (get DEFAULTS "font-size").

(** Every white space character of [s] is a space that no white space
    follows. *)
Fixpoint collapsed (s : jsstring) : bool :=
  match s with
  | [] => true
  | c :: s' =>
      (if isSpace c then
         (c =? 32)%N && match s' with
                        | d :: _ => negb (isSpace d)
                        | [] => true
                        end
       else true) && collapsed s'
  end.

(** A text that does not start with white space. *)
Definition noSpaceAtHead (s : jsstring) : Prop :=
  match s with
  | c :: _ => isSpace c = false
  | [] => True
  end.

(** No position of [s] starts a match. *)
Fixpoint noMatch (matchAt : jsstring -> option nat) (s : jsstring) : bool :=
  match s with
  | [] => true
  | _ :: s' =>
      match matchAt s with
      | Some (S _) => false
      | _ => true
      end && noMatch matchAt s'
  end.

(** The code unit [c] can stand at no place of the literal pattern. *)
Definition avoids (pat : jsstring) (c : N) : bool :=
  forallb (fun p => negb (p =? lower c)%N) pat.

(** Whether a [<br>] tag is left in a text. *)
Definition hasBrTag (s : jsstring) : bool := negb (noMatch matchBr s).

(** A width function that never decreases from one integer size to the
    next. *)
Definition monotone (f : number -> number) : Prop :=
  forall a b : Z, a <= b -> num_le (f (num a)) (f (num b)) = true.

(** A width function that gives a number at every size that is one. *)
Definition numeric (f : number -> number) : Prop :=
  forall size, size <> NaN -> f size <> NaN.

(** The sizes of the decreasing walk: a natural number, or infinity. *)
Definition walkable (size : number) : Prop :=
  (exists z, 0 <= z /\ size = num z) \/ size = Inf false.

(** Code units that packing may leave out or write in: collapsible white
    space, the newline, the soft hyphen, and the hyphen written for it. *)
Definition droppable (c : N) : bool :=
  has BAI [c] || (c =? 0x000A)%N || (c =? 0x00AD)%N || (c =? 45)%N.

(** A text without them. *)
Definition visible (s : jsstring) : jsstring :=
  filter (fun c => negb (droppable c)) s.

(** The boundary that ends the text, when the default policy has no part
    behind it. *)
Definition lastBoundary (t : jsstring) : jsstring :=
  let '(parts, breakpoints, part) := fold_left scanStep (codePoints t) ([], [], []) in
  match part, rev breakpoints with
  | [], bp :: _ => chr bp
  | _, _ => []
  end.

(** The parts with the boundary behind each. *)
Fixpoint weave (parts : list jsstring) (breakpoints : list Breakpoint) : jsstring :=
  match parts, breakpoints with
  | part :: parts', bp :: breakpoints' => part ++ chr bp ++ weave parts' breakpoints'
  | _, _ => []
  end.

(** What the scan keeps true of [(parts, breakpoints, part)] for the
    characters [seen]. *)
Definition scanInv (seen : jsstring)
    (st : list jsstring * list Breakpoint * jsstring) : Prop :=
  let '(parts, breakpoints, part) := st in
  List.length parts = List.length breakpoints
  /\ Forall (fun bp => checkBreak (chr bp) = Some (type bp)) breakpoints
  /\ Forall (fun p => has BAI p = false) parts
  /\ has BAI part = false
  /\ visible (weave parts breakpoints ++ part) = visible seen.

(** What the loop of the default policy holds before turn [i]: nothing
    before the first turn, then all that is visible of the parts before [i]
    and of the boundaries between them. *)
Definition packed (parts : list jsstring) (breakpoints : list Breakpoint)
    (i : nat) (st : list jsstring * jsstring) : Prop :=
  match i with
  | O => st = ([], [])
  | S j =>
      visible (List.concat (fst st) ++ snd st)
      = visible (weave (firstn j parts) (firstn j breakpoints) ++ nth j parts [])
  end.

(** ** Notions used by the further properties *)

(** The set that stands for a break class. *)
Definition classSet (ty : BreakType) : list jsstring :=
  match ty with
  | tB2 => B2
  | tBAI => BAI
  | tSHY => SHY
  | tBA => BA
  | tBB => BB
  | tBK => BK
  end.

Definition isHighSurrogate (c : N) : bool := ((0xD800 <=? c) && (c <=? 0xDBFF))%N.
Definition isLowSurrogate (c : N) : bool := ((0xDC00 <=? c) && (c <=? 0xDFFF))%N.

(** A string as the iteration over a text yields them: one code unit, or a
    surrogate pair. *)
Definition isCodePoint (chr : jsstring) : Prop :=
  (exists c, chr = [c])
  \/ (exists c d, chr = [c; d] /\ isHighSurrogate c = true /\ isLowSurrogate d = true).

(** The code units of a text that are no white space. *)
Definition inked (s : jsstring) : jsstring := filter (fun c => negb (isSpace c)) s.


(** A key without capital letters. *)
Fixpoint noCapital (key : string) : bool :=
  match key with
  | EmptyString => true
  | String a key' => negb (isUpper a) && noCapital key'
  end.

(** A text without the characters that start a tag or an entity. *)
Definition plain (s : jsstring) : Prop := Forall (fun c => c <> 60%N /\ c <> 38%N) s.


(** [height]: the number of lines times the line height, rounded up; 0 when
    that product is no number. *)
Definition height (host : Host) (this : TextMetrics) (text : option jsstring)
    (options overwrites : option obj) : result number :=
  let parsed := parseArgs this text options overwrites in
  let lineHeight :=
    parseFloat (toString (por (prop (Some (arg_styles parsed)) "line-height" VUndefined)
                              (style this "line-height"%string))) in
  ls <- lines host this (Some (arg_text parsed)) (Some (arg_options parsed))
              (Some (arg_styles parsed)) ;;
  let product := num_mul (num (Z.of_nat (List.length ls))) lineHeight in
  Ok (Math_ceil (if num_truthy product then product else num 0)).

(** The line height that [height] reads. *)
Definition lineHeightOf (this : TextMetrics) (parsed : TextMetricsArguments) : number :=
  parseFloat (toString (por (prop (Some (arg_styles parsed)) "line-height" VUndefined)
                            (style this "line-height"%string))).

(** A spacing value that stands for no spacing: left out, empty, or one of
    the keywords. *)
Definition noSpacing (v : option jsstring) : Prop :=
  v = None \/ v = Some [] \/ exists k, v = Some k /\ In k blacklist.

(** The font family that [getFont] writes. *)
Definition fontFamilyOf (style : string -> jsval) (options : obj) : jsval :=
  por (prop (Some options) "font-family" (style "font-family"%string))
      (get DEFAULTS "font-family").


(** The sizes at which a step of one is exact in the arithmetic of the
    code: the natural numbers below 2^53. *)
Definition safeSize (z : Z) : Prop := 0 <= z < 2 ^ 53.

(** A width function that is finite and at least 1 at every size from 1 on,
    as a rounded-up width that is not 0 is. *)
Definition atLeastOne (f : number -> number) : Prop :=
  forall z : Z, 1 <= z -> exists q, f (num z) = Fin q /\ (1 <= q)%Q.

(** A width function that, from every safe size on, reaches the width [m]
    at a safe size. *)
Definition reachesSafely (f : number -> number) (m : Z) : Prop :=
  forall z : Z, safeSize z ->
    exists b, z <= b /\ safeSize b /\ num_lt (f (num b)) (num m) = false.


Section BreakAllShapes.
Variable parameters : ComputeLinesParams.
Variable addSpacing : jsstring -> number.

(** The width, rounded up, is not over the width to fill. *)
Definition notOver (s : jsstring) : Prop :=
  num_gt (Math_ceil (rawWidth parameters addSpacing s)) (max parameters) = false.

(** A line while the break-all policy fills it: empty, one character, or
    not over the width to fill. *)
Definition filling (b : jsstring) : Prop := b = [] \/ isCodePoint b \/ notOver b.

(** A line as the break-all policy puts it out: as it was filled, or closed
    with the hyphen of a soft hyphen or with a BA character. *)
Definition breakAllShape (l : jsstring) : Prop :=
  exists b, filling b
    /\ (l = b \/ l = b ++ js "-"
        \/ exists chr, checkBreak chr = Some tBA /\ l = b ++ chr).
End BreakAllShapes.

(** A line without newline and soft hyphen that does not start with
    collapsible white space. *)
Definition tidy (l : jsstring) : Prop :=
  ~ In 0x000A%N l /\ ~ In 0x00AD%N l
  /\ forall c l', l = c :: l' -> has BAI [c] = false.

(** What one turn of the break-all loop does to the lines and the line. *)
Inductive breakAllMove (parameters : ComputeLinesParams)
    (addSpacing : jsstring -> number) (lines : list jsstring) (line chr : jsstring)
  : list jsstring -> jsstring -> Prop :=
| moveSkip : breakAllMove parameters addSpacing lines line chr lines line
| moveBreak :
    checkBreak chr = Some tBK \/ line <> [] ->
    breakAllMove parameters addSpacing lines line chr (lines ++ [line]) []
| moveHyphen :
    line <> [] ->
    breakAllMove parameters addSpacing lines line chr (lines ++ [line ++ js "-"]) []
| moveAfter :
    line <> [] -> checkBreak chr = Some tBA ->
    breakAllMove parameters addSpacing lines line chr (lines ++ [line ++ chr]) []
| moveNext :
    line <> [] ->
    (forall ty, checkBreak chr = Some ty -> ty = tB2 \/ ty = tBB) ->
    breakAllMove parameters addSpacing lines line chr (lines ++ [line]) chr
| moveAdd :
    chr <> [0x00AD%N] -> checkBreak chr <> Some tBK ->
    (line = [] /\ has BAI chr = false)
    \/ (line <> [] /\ notOver parameters addSpacing (line ++ chr)) ->
    breakAllMove parameters addSpacing lines line chr lines (line ++ chr).


(** A string of decimal digits. *)
Definition allDigits (ds : jsstring) : Prop := Forall (fun c => isDigit c = true) ds.


(** What the scan for breakpoints of the default policy keeps: a boundary
    for every part; parts that are tidy; boundaries that are characters of
    the text with their break class; and a part that is not empty before
    every boundary of collapsible white space. *)
Definition scanTidy (st : list jsstring * list Breakpoint * jsstring) : Prop :=
  let '(parts, breakpoints, part) := st in
  List.length parts = List.length breakpoints
  /\ Forall tidy parts /\ tidy part
  /\ Forall (fun bp => isCodePoint (chr bp) /\ checkBreak (chr bp) = Some (type bp))
            breakpoints
  /\ forall j bp, nth_error breakpoints j = Some bp -> type bp = tBAI ->
                  nth j parts [] <> [].

(** What the loop of the default policy keeps before turn [i]: tidy lines,
    a tidy line, and a line that is empty only if the part before is. *)
Definition packTidy (parts : list jsstring) (i : nat)
    (st : list jsstring * jsstring) : Prop :=
  Forall tidy (fst st) /\ tidy (snd st)
  /\ forall j, i = S j -> snd st = [] -> nth j parts [] = [].


(** The code units that the scan for breakpoints holds: those of the parts,
    of the boundaries and of the part that is being read. *)
Definition scanSize (st : list jsstring * list Breakpoint * jsstring) : nat :=
  let '(parts, breakpoints, part) := st in
  (List.length (List.concat parts)
   + List.length (List.concat (List.map chr breakpoints))
   + List.length part)%nat.

(** What the loop of the default policy holds before turn [i] when it has
    put out no line: a line that, with the parts and boundaries to come, is
    no longer than all parts and boundaries. *)
Definition packOne (parts : list jsstring) (breakpoints : list Breakpoint)
    (i : nat) (st : list jsstring * jsstring) : Prop :=
  fst st = []
  /\ (List.length (snd st)
      + List.length (List.concat (skipn i parts))
      + List.length (List.concat (List.map chr (skipn (pred i) breakpoints)))
      <= List.length (List.concat parts)
         + List.length (List.concat (List.map chr breakpoints)))%nat.


(** A string without collapsible white space. *)
Definition spaceless (l : jsstring) : Prop := forall c, In c l -> has BAI [c] = false.


(** Whether [lines] takes the break-all policy. *)
Definition breaksAll (this : TextMetrics) (parsed : TextMetricsArguments) : bool :=
  match asString (por (prop (Some (arg_styles parsed)) "word-break" VUndefined)
                      (style this "word-break"%string)) with
  | Some b => str_eqb b (js "break-all")
  | None => false
  end.

(** No width is given: there is no element, the options, the overwrites and
    the styles of the call hold no width, and the style of the instance has
    none that reads as a number. *)
Definition noWidth (this : TextMetrics) (parsed : TextMetricsArguments) : Prop :=
  el this = None
  /\ truthy (get (arg_options parsed) "width") = false
  /\ prop (arg_overwrites parsed) "width" VUndefined = VUndefined
  /\ truthy (get (arg_styles parsed) "width") = false
  /\ parseInt (style this "width"%string) = NaN.

(** What may follow a numeral without being read as part of it: nothing, or
    a text that starts with no digit, no point and no [e] or [E]. *)
Definition continuesNoNumeral (u : jsstring) : Prop :=
  match u with
  | [] => True
  | c :: _ => isDigit c = false /\ c <> 46%N /\ c <> 101%N /\ c <> 69%N
  end.

(** * Properties *)

(** ** Strings *)

Lemma str_eqb_eq (a b : jsstring) : str_eqb a b = true <-> a = b.
Proof.
  revert b; induction a as [|x a IH]; intros [|y b]; simpl; split;
    try congruence; try reflexivity.
  - intros H. apply andb_true_iff in H as [Hx Hab].
    apply N.eqb_eq in Hx. apply IH in Hab. congruence.
  - intros H. injection H as -> ->. rewrite N.eqb_refl. simpl. now apply IH.
Qed.

Lemma str_eqb_neq (a b : jsstring) : a <> b -> str_eqb a b = false.
Proof.
  intros H. destruct (str_eqb a b) eqn:E; [|reflexivity].
  apply str_eqb_eq in E. contradiction.
Qed.

Lemma startsWith_app (pat s : jsstring) :
  startsWith pat s = true -> s = pat ++ skipn (List.length pat) s.
Proof.
  revert s; induction pat as [|p pat IH]; intros s H; [reflexivity|].
  destruct s as [|c s]; [discriminate|]. simpl in H.
  apply andb_true_iff in H as [Hp Hs]. apply N.eqb_eq in Hp. subst c.
  simpl. f_equal. now apply IH.
Qed.

(** What [replace] with an empty replacement leaves: the text without the
    first occurrence of the pattern, or the text itself. *)
Lemma replace_empty_inv (s pat : jsstring) :
  (exists before after,
      s = before ++ pat ++ after /\ replace s pat [] = before ++ after)
  \/ replace s pat [] = s.
Proof.
  induction s as [|c s IH].
  - simpl. destruct (startsWith pat []) eqn:E; [|now right].
    left. exists [], (skipn (List.length pat) []). split; [|reflexivity].
    now apply startsWith_app.
  - cbn [replace]. destruct (startsWith pat (c :: s)) eqn:E.
    + left. exists [], (skipn (List.length pat) (c :: s)). split; [|reflexivity].
      now apply startsWith_app.
    + destruct IH as [(before & after & Hs & Hr)|Hr].
      * left. exists (c :: before), after. simpl. split; congruence.
      * right. congruence.
Qed.

(** ** Unit conversion *)

Lemma pxValue_dispatch (value_ : jsstring) (options : option obj) :
  let value := parseFloat value_ in
  let unit := unitOf value_ in
  ((unit = js "rem" \/ unit = js "em") ->
     pxValue value_ options = Ok (num_mul value (baseFontSizeOf options)))
  /\ (unit = js "pt" ->
     pxValue value_ options = Ok (num_div value (num_div (num 96) (num 72))))
  /\ (unit = js "px" -> pxValue value_ options = Ok value)
  /\ (~ In unit supportedUnits ->
     pxValue value_ options = Throw (js "The unit " ++ unit ++ js " is not supported")).
Proof.
  cbv zeta. unfold pxValue, unitOf, baseFontSizeOf.
  set (u := replace value_ _ []).
  repeat split.
  - intros [-> | ->]; reflexivity.
  - intros ->; reflexivity.
  - intros ->; reflexivity.
  - intros Hn. unfold supportedUnits in Hn. simpl in Hn.
    rewrite !str_eqb_neq; [reflexivity| | | |]; intros ->; tauto.
Qed.

Lemma pxValue_ok_unit (value_ : jsstring) (options : option obj) (v : number) :
  pxValue value_ options = Ok v -> In (unitOf value_) supportedUnits.
Proof.
  unfold pxValue. fold (unitOf value_). unfold supportedUnits.
  destruct (str_eqb (unitOf value_) (js "rem")) eqn:E1;
    [apply str_eqb_eq in E1; rewrite E1; simpl; tauto|].
  destruct (str_eqb (unitOf value_) (js "em")) eqn:E2;
    [apply str_eqb_eq in E2; rewrite E2; simpl; tauto|].
  destruct (str_eqb (unitOf value_) (js "pt")) eqn:E3;
    [apply str_eqb_eq in E3; rewrite E3; simpl; tauto|].
  destruct (str_eqb (unitOf value_) (js "px")) eqn:E4;
    [apply str_eqb_eq in E4; rewrite E4; simpl; tauto|].
  simpl. discriminate.
Qed.

(** A unit error of a spacing value is the error of everything that uses
    the spacing. *)
Lemma addWordAndLetterSpacing_throws (ws ls : option jsstring) (v m : jsstring) :
  (spacingGiven ws = Some v /\ pxValue v None = Throw m)
  \/ ((spacingGiven ws = None \/ exists w v', spacingGiven ws = Some v' /\ pxValue v' None = Ok w)
      /\ spacingGiven ls = Some v /\ pxValue v None = Throw m) ->
  addWordAndLetterSpacing ws ls = Throw m.
Proof.
  unfold addWordAndLetterSpacing.
  intros [[-> ->]|[[-> |(w & v' & -> & ->)] [-> ->]]]; reflexivity.
Qed.

Lemma computeLines_throw (parameters : ComputeLinesParams) (m : jsstring) :
  addWordAndLetterSpacing (wordSpacing parameters) (letterSpacing parameters) = Throw m ->
  computeLinesDefault parameters = Throw m /\ computeLinesBreakAll parameters = Throw m.
Proof.
  intros H. unfold computeLinesDefault, computeLinesBreakAll. rewrite H. now split.
Qed.

Lemma getFont_throw (style : string -> jsval) (options : obj) (v m : jsstring) :
  fontSizeOf style options = VStr v -> pxValue v None = Throw m ->
  getFont style options = Throw m.
Proof.
  intros Hs Hp. unfold getFont. fold (fontSizeOf style options).
  rewrite Hs, Hp. reflexivity.
Qed.

Lemma parseFloat_unit_letter (c : N) (r : jsstring) :
  c = 114%N \/ c = 101%N \/ c = 112%N -> parseFloat (c :: r) = NaN.
Proof.
  intros [-> | [-> | ->]]; reflexivity.
Qed.

(** C10. [pxValue] takes for the unit what is left of its argument when the
    first occurrence of the parsed number's canonical numeral is deleted:
    '.5px', '0.50px' and '1e1px' throw the unit error although their unit is
    supported, and whenever a number is parsed and the conversion succeeds
    the argument is that canonical numeral followed by a supported unit. *)
Theorem pxValue_needs_canonical_numeral (value_ : jsstring) (options : option obj)
    (v : number) :
  pxValue (js ".5px") None = Throw (js "The unit .5px is not supported")
  /\ pxValue (js "0.50px") None = Throw (js "The unit 0px is not supported")
  /\ pxValue (js "1e1px") None = Throw (js "The unit 1e1px is not supported")
  /\ (pxValue value_ options = Ok v -> parseFloat value_ <> NaN ->
      exists unit, In unit supportedUnits
                   /\ value_ = numberToString (parseFloat value_) ++ unit).
Proof.
  repeat (split; [reflexivity|]).
  intros Hok Hnum. apply pxValue_ok_unit in Hok. unfold unitOf in Hok.
  destruct (replace_empty_inv value_ (numberToString (parseFloat value_)))
    as [(before & after & Hs & Hr)|Hr].
  - rewrite Hr in Hok. destruct before as [|c before].
    + exists after. split; [exact Hok|exact Hs].
    + exfalso. apply Hnum. rewrite Hs. simpl. apply parseFloat_unit_letter.
      unfold supportedUnits in Hok. simpl in Hok.
      destruct Hok as [H|[H|[H|[H|[]]]]]; injection H; intros; subst; tauto.
  - rewrite Hr in Hok. exfalso. apply Hnum.
    unfold supportedUnits in Hok. simpl in Hok.
    destruct Hok as [H|[H|[H|[H|[]]]]]; rewrite <- H; reflexivity.
Qed.

Lemma pxValue_needs_canonical_numeral_witness :
  exists unit, In unit supportedUnits
               /\ js "2.5px" = numberToString (parseFloat (js "2.5px")) ++ unit.
Proof.
  apply (pxValue_needs_canonical_numeral (js "2.5px") None (Fin (5 # 2))).
  - reflexivity.
  - discriminate.
Defined.

(** ** Whitespace normalisation *)

Lemma replaceNewlines_isSpace (c : N) :
  isSpace (if ((c =? 13) || (c =? 10))%N then 32%N else c) = isSpace c.
Proof.
  destruct ((c =? 13) || (c =? 10))%N eqn:E; [|reflexivity].
  apply orb_true_iff in E as [E|E]; apply N.eqb_eq in E; subst; reflexivity.
Qed.

Lemma replaceNewlines_keeps (c : N) :
  isSpace c = false -> (if ((c =? 13) || (c =? 10))%N then 32%N else c) = c.
Proof.
  intros H. destruct ((c =? 13) || (c =? 10))%N eqn:E; [|reflexivity].
  apply orb_true_iff in E as [E|E]; apply N.eqb_eq in E; subst; discriminate.
Qed.

(** Replacing the newlines first changes nothing: they are white space and
    collapse anyway. *)
Lemma collapseSpaces_replaceNewlines (s : jsstring) :
  collapseSpaces (replaceNewlines s) = collapseSpaces s.
Proof.
  induction s as [|c s IH]; [reflexivity|].
  unfold replaceNewlines in *. cbn [List.map collapseSpaces].
  rewrite replaceNewlines_isSpace. destruct (isSpace c) eqn:Ec.
  - destruct s as [|d s]; [reflexivity|]. cbn [List.map].
    rewrite replaceNewlines_isSpace. cbn [List.map] in IH.
    destruct (isSpace d); now rewrite IH.
  - rewrite IH. f_equal. now apply replaceNewlines_keeps.
Qed.

Lemma collapsed_collapseSpaces (s : jsstring) : collapsed (collapseSpaces s) = true.
Proof.
  induction s as [|c s IH]; [reflexivity|].
  cbn [collapseSpaces]. destruct (isSpace c) eqn:Ec.
  - destruct s as [|d s]; [reflexivity|].
    destruct (isSpace d) eqn:Ed; [exact IH|].
    cbn [collapsed]. rewrite IH.
    cbn [collapseSpaces]. rewrite Ed. simpl. now rewrite Ed.
  - cbn [collapsed]. now rewrite Ec, IH.
Qed.

Lemma collapsed_tail (c : N) (s : jsstring) : collapsed (c :: s) = true -> collapsed s = true.
Proof. cbn [collapsed]. intros H. now apply andb_true_iff in H. Qed.

Lemma collapseSpaces_collapsed (s : jsstring) :
  collapsed s = true -> collapseSpaces s = s.
Proof.
  induction s as [|c s IH]; [reflexivity|]. intros H.
  pose proof (collapsed_tail _ _ H) as Hs. cbn [collapsed] in H.
  cbn [collapseSpaces]. destruct (isSpace c) eqn:Ec.
  - apply andb_true_iff in H as [H _]. apply andb_true_iff in H as [H32 Hd].
    apply N.eqb_eq in H32. subst c. destruct s as [|d s]; [reflexivity|].
    apply negb_true_iff in Hd. rewrite Hd. now rewrite IH.
  - now rewrite IH.
Qed.

Lemma replaceNewlines_collapsed (s : jsstring) :
  collapsed s = true -> replaceNewlines s = s.
Proof.
  induction s as [|c s IH]; [reflexivity|]. intros H.
  pose proof (collapsed_tail _ _ H) as Hs. cbn [collapsed] in H.
  unfold replaceNewlines in *. cbn [List.map]. rewrite (IH Hs). f_equal.
  destruct (isSpace c) eqn:Ec.
  - apply andb_true_iff in H as [H _]. apply andb_true_iff in H as [H32 _].
    apply N.eqb_eq in H32. now subst c.
  - now apply replaceNewlines_keeps.
Qed.

Lemma trimStart_suffix (s : jsstring) : exists p, s = p ++ trimStart s.
Proof.
  induction s as [|c s [p Hp]]; [now exists []|].
  cbn [trimStart]. destruct (isSpace c).
  - exists (c :: p). simpl. now f_equal.
  - now exists [].
Qed.

Lemma trimEnd_prefix (s : jsstring) : exists p, s = trimEnd s ++ p.
Proof.
  unfold trimEnd. destruct (trimStart_suffix (rev s)) as [p Hp].
  exists (rev p). rewrite <- rev_app_distr, <- Hp. now rewrite rev_involutive.
Qed.

Lemma collapsed_app_r (a b : jsstring) : collapsed (a ++ b) = true -> collapsed b = true.
Proof.
  induction a as [|c a IH]; [trivial|]. simpl app. intros H.
  apply IH. now apply collapsed_tail in H.
Qed.

Lemma collapsed_app_l (a b : jsstring) : collapsed (a ++ b) = true -> collapsed a = true.
Proof.
  induction a as [|c a IH]; [reflexivity|]. simpl app. intros H.
  pose proof (collapsed_tail _ _ H) as Hs. cbn [collapsed] in *.
  rewrite (IH Hs), andb_true_r. apply andb_true_iff in H as [H _].
  destruct (isSpace c); [|reflexivity].
  apply andb_true_iff in H as [H32 Hd]. rewrite H32. simpl.
  destruct a as [|d a]; [reflexivity|exact Hd].
Qed.

Lemma collapsed_trim (s : jsstring) : collapsed s = true -> collapsed (trim s) = true.
Proof.
  intros H. unfold trim.
  destruct (trimStart_suffix s) as [p Hp]. rewrite Hp in H.
  apply collapsed_app_r in H.
  destruct (trimEnd_prefix (trimStart s)) as [q Hq]. rewrite Hq in H.
  now apply collapsed_app_l in H.
Qed.

Lemma trimStart_head (s : jsstring) : noSpaceAtHead (trimStart s).
Proof.
  induction s as [|c s IH]; [exact I|].
  cbn [trimStart]. destruct (isSpace c) eqn:E; [exact IH|exact E].
Qed.

Lemma trimStart_id (s : jsstring) : noSpaceAtHead s -> trimStart s = s.
Proof.
  destruct s as [|c s]; [reflexivity|]. simpl. now intros ->.
Qed.

Lemma trimEnd_head (s : jsstring) : noSpaceAtHead s -> noSpaceAtHead (trimEnd s).
Proof.
  intros H. destruct (trimEnd_prefix s) as [p Hp].
  destruct (trimEnd s) as [|c t]; [exact I|].
  rewrite Hp in H. exact H.
Qed.

Lemma trimEnd_trimEnd (s : jsstring) : trimEnd (trimEnd s) = trimEnd s.
Proof.
  unfold trimEnd. rewrite rev_involutive.
  now rewrite (trimStart_id _ (trimStart_head _)).
Qed.

Lemma trim_trim (s : jsstring) : trim (trim s) = trim s.
Proof.
  unfold trim.
  rewrite (trimStart_id (trimEnd (trimStart s)) (trimEnd_head _ (trimStart_head s))).
  apply trimEnd_trimEnd.
Qed.

Lemma normalise_twice (s : jsstring) :
  trim (collapseSpaces (replaceNewlines (trim (collapseSpaces s))))
  = trim (collapseSpaces s).
Proof.
  pose proof (collapsed_trim _ (collapsed_collapseSpaces s)) as H.
  rewrite (replaceNewlines_collapsed _ H), (collapseSpaces_collapsed _ H).
  apply trim_trim.
Qed.

Lemma normalizeWhitespace_idempotent (text ws : option jsstring) :
  normalizeWhitespace (normalizeWhitespace text ws) ws = normalizeWhitespace text ws.
Proof.
  unfold normalizeWhitespace.
  destruct (str_eqb (orEmpty ws) (js "pre")); [reflexivity|].
  destruct (str_eqb (orEmpty ws) (js "pre-wrap")); [reflexivity|].
  destruct (str_eqb (orEmpty ws) (js "pre-line")); cbn [orEmpty]; f_equal.
  - rewrite <- (collapseSpaces_replaceNewlines (trim _)). apply normalise_twice.
  - rewrite (collapseSpaces_replaceNewlines (orEmpty text)). apply normalise_twice.
Qed.

(** C6. Under 'pre' and 'pre-wrap' the text is returned as it is.  Under
    'pre-line' the newlines are not kept: they are white space to [\s+] and
    collapse into spaces, so 'pre-line' gives what the default policy gives,
    as on 'a', newline, 'b'. *)
Theorem normalizeWhitespace_pre_line_loses_newlines :
  normalizeWhitespace (Some (js "a" ++ [10%N] ++ js "b")) (Some (js "pre-line"))
  = Some (js "a b")
  /\ (forall text : option jsstring,
        normalizeWhitespace text (Some (js "pre-line")) = normalizeWhitespace text None)
  /\ (forall text : option jsstring,
        normalizeWhitespace text (Some (js "pre")) = text
        /\ normalizeWhitespace text (Some (js "pre-wrap")) = text).
Proof.
  split; [reflexivity|]. split; [|intros text; split; reflexivity].
  intros text. unfold normalizeWhitespace.
  cbn [orEmpty]. change (str_eqb (js "pre-line") (js "pre")) with false.
  change (str_eqb (js "pre-line") (js "pre-wrap")) with false.
  change (str_eqb (js "pre-line") (js "pre-line")) with true.
  change (str_eqb [] (js "pre")) with false.
  change (str_eqb [] (js "pre-wrap")) with false.
  change (str_eqb [] (js "pre-line")) with false.
  cbv iota. now rewrite collapseSpaces_replaceNewlines.
Qed.

(** ** Text preparation *)

Section ReplaceAll.
Variable matchAt : jsstring -> option nat.
Variable c : N.

Lemma replaceAll_noMatch (repl s : jsstring) :
  noMatch matchAt s = true -> replaceAll matchAt repl 0 s = s.
Proof.
  induction s as [|x s IH]; [reflexivity|].
  cbn [noMatch replaceAll]. intros H. apply andb_true_iff in H as [Hm Hs].
  destruct (matchAt (x :: s)) as [[|n]|]; try discriminate; now rewrite IH.
Qed.

(** A literal found at the head of the replaced text, none of whose code
    units can be the replacement, was at the head of the text. *)
Lemma literalAt_replaceAll (pat s : jsstring) :
  avoids pat c = true ->
  literalAt pat (replaceAll matchAt [c] 0 s) = true -> literalAt pat s = true.
Proof.
  revert s; induction pat as [|p pat IH]; intros s Ha H; [reflexivity|].
  cbn [avoids forallb] in Ha. apply andb_true_iff in Ha as [Hp Ha].
  apply negb_true_iff in Hp.
  destruct s as [|x s]; [discriminate H|].
  cbn [replaceAll] in H. cbn [literalAt].
  destruct (matchAt (x :: s)) as [[|n]|]; cbn [app literalAt] in H;
    try (rewrite Hp in H; discriminate H);
    apply andb_true_iff in H as [Hx H]; rewrite Hx; apply (IH s Ha H).
Qed.

Lemma noMatch_literal_cons (p : N) (pat : jsstring) (x : N) (s : jsstring) :
  noMatch (matchLiteral (p :: pat)) (x :: s)
  = negb (literalAt (p :: pat) (x :: s)) && noMatch (matchLiteral (p :: pat)) s.
Proof.
  cbn [noMatch]. unfold matchLiteral at 1.
  destruct (literalAt (p :: pat) (x :: s)); reflexivity.
Qed.

Lemma literalAt_head (p : N) (pat s : jsstring) :
  avoids (p :: pat) c = true -> literalAt (p :: pat) (c :: s) = false.
Proof.
  cbn [avoids forallb literalAt]. intros H. apply andb_true_iff in H as [H _].
  apply negb_true_iff in H. now rewrite H.
Qed.

Lemma literalAt_copied (p : N) (pat : jsstring) (x : N) (s : jsstring) :
  avoids (p :: pat) c = true ->
  literalAt (p :: pat) (x :: s) = false ->
  literalAt (p :: pat) (x :: replaceAll matchAt [c] 0 s) = false.
Proof.
  intros Ha H. destruct (literalAt (p :: pat) (x :: replaceAll matchAt [c] 0 s)) eqn:E;
    [|reflexivity].
  cbn [literalAt] in E, H. apply andb_true_iff in E as [Ex E].
  cbn [avoids forallb] in Ha. apply andb_true_iff in Ha as [_ Ha].
  rewrite Ex, (literalAt_replaceAll pat s Ha E) in H. discriminate H.
Qed.

(** A global replace by [c] creates no occurrence of a literal in which
    [c] cannot stand. *)
Lemma noMatch_literal_kept (p : N) (pat s : jsstring) (k : nat) :
  avoids (p :: pat) c = true ->
  noMatch (matchLiteral (p :: pat)) s = true ->
  noMatch (matchLiteral (p :: pat)) (replaceAll matchAt [c] k s) = true.
Proof.
  intros Ha. revert k; induction s as [|x s IH]; intros k H; [reflexivity|].
  rewrite noMatch_literal_cons in H. apply andb_true_iff in H as [Hx Hs].
  apply negb_true_iff in Hx.
  cbn [replaceAll]. destruct k as [|k]; [|now apply IH].
  destruct (matchAt (x :: s)) as [[|n]|]; cbn [app];
    rewrite noMatch_literal_cons, IH by assumption; rewrite andb_true_r;
    apply negb_true_iff;
    try (now apply literalAt_copied); now apply literalAt_head.
Qed.
End ReplaceAll.

(** After the global replace of a literal by a code unit that cannot stand
    in it, the literal does not occur. *)
Lemma noMatch_literal_replaced (c p : N) (pat s : jsstring) (k : nat) :
  avoids (p :: pat) c = true ->
  noMatch (matchLiteral (p :: pat)) (replaceAll (matchLiteral (p :: pat)) [c] k s) = true.
Proof.
  intros Ha. revert k; induction s as [|x s IH]; intros k; [reflexivity|].
  cbn [replaceAll]. destruct k as [|k]; [|apply IH].
  unfold matchLiteral at 2. destruct (literalAt (p :: pat) (x :: s)) eqn:E.
  - cbn [List.length app]. rewrite noMatch_literal_cons, IH, andb_true_r.
    apply negb_true_iff. now apply literalAt_head.
  - rewrite noMatch_literal_cons, IH, andb_true_r.
    apply negb_true_iff. now apply literalAt_copied.
Qed.

Lemma prepared_no_wbr (text : option jsstring) :
  noMatch (matchLiteral (js "<wbr>")) (prepareText text) = true.
Proof.
  unfold prepareText.
  apply (noMatch_literal_kept _ 0x2014%N 60%N (js "wbr>")); [reflexivity|].
  apply (noMatch_literal_kept _ 0x00AD%N 60%N (js "wbr>")); [reflexivity|].
  apply (noMatch_literal_kept _ 0x000A%N 60%N (js "wbr>")); [reflexivity|].
  apply (noMatch_literal_replaced 0x200B%N 60%N (js "wbr>")). reflexivity.
Qed.

Lemma prepared_no_shy (text : option jsstring) :
  noMatch (matchLiteral (js "&shy;")) (prepareText text) = true.
Proof.
  unfold prepareText.
  apply (noMatch_literal_kept _ 0x2014%N 38%N (js "shy;")); [reflexivity|].
  apply (noMatch_literal_replaced 0x00AD%N 38%N (js "shy;")). reflexivity.
Qed.

Lemma prepared_no_mdash (text : option jsstring) :
  noMatch (matchLiteral (js "&mdash;")) (prepareText text) = true.
Proof.
  unfold prepareText.
  apply (noMatch_literal_replaced 0x2014%N 38%N (js "mdash;")). reflexivity.
Qed.

Lemma prepareText_idempotent_without_br (text : option jsstring) :
  hasBrTag (prepareText text) = false ->
  prepareText (Some (prepareText text)) = prepareText text.
Proof.
  unfold hasBrTag. intros Hbr. apply negb_false_iff in Hbr.
  unfold prepareText at 1. cbn [orEmpty].
  rewrite (replaceAll_noMatch _ _ _ (prepared_no_wbr text)),
    (replaceAll_noMatch _ _ _ Hbr),
    (replaceAll_noMatch _ _ _ (prepared_no_shy text)),
    (replaceAll_noMatch _ _ _ (prepared_no_mdash text)).
  reflexivity.
Qed.

(** A global replace by one code unit makes no text longer. *)
Lemma replaceAll_length (matchAt : jsstring -> option nat) (c : N) (s : jsstring) :
  forall k, (List.length (replaceAll matchAt [c] k s) <= List.length s)%nat.
Proof.
  induction s as [|x s IH]; intros k; [apply Nat.le_refl|].
  cbn [replaceAll]. destruct k as [|k].
  - destruct (matchAt (x :: s)) as [[|n]|]; cbn [app List.length];
      apply le_n_S, IH.
  - cbn [List.length]. apply Nat.le_trans with (List.length s); [apply IH|lia].
Qed.

(** It makes a text shorter when a match of two code units or more is
    there. *)
Lemma replaceAll_shorter (matchAt : jsstring -> option nat) (c : N) :
  (forall s n, matchAt s = Some n -> (2 <= n <= List.length s)%nat) ->
  forall s, noMatch matchAt s = false ->
            (List.length (replaceAll matchAt [c] 0 s) < List.length s)%nat.
Proof.
  intros Hm. induction s as [|x s IH]; intros H; [discriminate H|].
  cbn [noMatch] in H. cbn [replaceAll].
  destruct (matchAt (x :: s)) as [[|n]|] eqn:E.
  - apply Hm in E. lia.
  - apply Hm in E. cbn [List.length] in E. cbn [app List.length].
    destruct s as [|y s]; [cbn [List.length] in E; lia|].
    destruct n as [|n]; [lia|]. cbn [replaceAll List.length].
    pose proof (replaceAll_length matchAt c s n). lia.
  - cbn [andb] in H. cbn [List.length]. apply IH in H. lia.
Qed.

(** Case analysis on a code unit that [H] compares with literals. *)
Ltac split_code a H :=
  destruct a as [|a]; [discriminate H|];
  repeat (destruct a as [a|a|]; try discriminate H).

Lemma matchBr_length (s : jsstring) (n : nat) :
  matchBr s = Some n -> (2 <= n <= List.length s)%nat.
Proof.
  unfold matchBr. destruct (literalAt (js "<br") s) eqn:E; [|discriminate].
  generalize (spaceRun (skipn 3 s)). intros k.
  pose proof (length_skipn (3 + k) s) as Hl.
  destruct (skipn (3 + k) s) as [|a [|b r]] eqn:Es;
    cbn [List.length] in Hl; intros H.
  - discriminate.
  - split_code a H. injection H as <-. lia.
  - split_code a H; try (injection H as <-; lia).
    split_code b H. injection H as <-. lia.
Qed.

Lemma prepareText_not_idempotent_with_br (text : option jsstring) :
  hasBrTag (prepareText text) = true ->
  prepareText (Some (prepareText text)) <> prepareText text.
Proof.
  unfold hasBrTag. intros Hbr. apply negb_true_iff in Hbr. intros Heq.
  apply (f_equal (@List.length _)) in Heq. revert Heq.
  unfold prepareText at 1. cbn [orEmpty].
  rewrite (replaceAll_noMatch _ _ _ (prepared_no_wbr text)).
  pose proof (replaceAll_shorter matchBr 0x000A%N matchBr_length _ Hbr) as H2.
  set (P := prepareText text) in *.
  pose proof (replaceAll_length (matchLiteral (js "&shy;")) 0x00AD%N
                (replaceAll matchBr [0x000A%N] 0 P) 0) as H3.
  pose proof (replaceAll_length (matchLiteral (js "&mdash;")) 0x2014%N
                (replaceAll (matchLiteral (js "&shy;")) [0x00AD%N] 0
                   (replaceAll matchBr [0x000A%N] 0 P)) 0) as H4.
  lia.
Qed.

(** C7, as the code has it.  [normalizeWhitespace] is idempotent under every
    policy.  [prepareText] applied twice gives what it gives once exactly
    when the prepared text holds no [<br>] tag; a tag can be left, because
    the newline written for an inner tag is white space inside an outer
    one. *)
Theorem normalize_and_prepare_idempotent (text ws : option jsstring) :
  normalizeWhitespace (normalizeWhitespace text ws) ws = normalizeWhitespace text ws
  /\ (hasBrTag (prepareText text) = false <->
      prepareText (Some (prepareText text)) = prepareText text).
Proof.
  split; [apply normalizeWhitespace_idempotent|]. split.
  - apply prepareText_idempotent_without_br.
  - intros H. destruct (hasBrTag (prepareText text)) eqn:E; [|reflexivity].
    now apply prepareText_not_idempotent_with_br in E.
Qed.

Lemma normalize_and_prepare_idempotent_witness :
  prepareText (Some (prepareText (Some (js "a<br/>b<wbr>c &shy; &mdash;<BR >"))))
  = prepareText (Some (js "a<br/>b<wbr>c &shy; &mdash;<BR >")).
Proof.
  apply (normalize_and_prepare_idempotent
           (Some (js "a<br/>b<wbr>c &shy; &mdash;<BR >")) None).
  reflexivity.
Defined.

(** C7, as stated, fails: preparing '<br<br>>' gives '<br', newline, '>',
    and preparing that gives a newline. *)
Lemma prepareText_not_idempotent :
  prepareText (Some (js "<br<br>>")) = js "<br" ++ [10%N] ++ js ">"
  /\ prepareText (Some (prepareText (Some (js "<br<br>>")))) = [10%N]
  /\ ~ (forall text : option jsstring,
          prepareText (Some (prepareText text)) = prepareText text).
Proof.
  split; [reflexivity|]. split; [reflexivity|].
  intros H. specialize (H (Some (js "<br<br>>"))). discriminate H.
Qed.

(** ** Numbers *)

Lemma num_lt_fin (p q : Q) : num_lt (Fin p) (Fin q) = true <-> (p < q)%Q.
Proof.
  simpl. rewrite Qlt_alt. destruct (p ?= q)%Q; split; congruence.
Qed.

Lemma num_eq_fin (p q : Q) : num_eq (Fin p) (Fin q) = true <-> (p == q)%Q.
Proof. simpl. apply Qeq_bool_iff. Qed.

Lemma num_le_fin (p q : Q) : num_le (Fin p) (Fin q) = true <-> (p <= q)%Q.
Proof.
  unfold num_le. rewrite orb_true_iff, num_lt_fin, num_eq_fin. split.
  - intros [H|H]; [now apply Qlt_le_weak|rewrite H; apply Qle_refl].
  - intros H. apply Qle_lt_or_eq in H. tauto.
Qed.

Lemma num_lt_fin_false (p q : Q) : num_lt (Fin p) (Fin q) = false <-> (q <= p)%Q.
Proof.
  rewrite <- not_true_iff_false, num_lt_fin. split.
  - apply Qnot_lt_le.
  - intros H1 H2. apply (Qlt_irrefl p). now apply Qlt_le_trans with q.
Qed.

Lemma Qred_inject_Z (z : Z) : Qred (inject_Z z) = inject_Z z.
Proof.
  unfold Qred, inject_Z.
  pose proof (Z.ggcd_gcd z 1) as Hg.
  pose proof (Z.ggcd_correct_divisors z 1) as Hd.
  destruct (Z.ggcd z 1) as (g, (r1, r2)). simpl in *.
  rewrite Z.gcd_1_r in Hg. subst g. destruct Hd as [H1 H2].
  rewrite Z.mul_1_l in H1, H2. now subst.
Qed.

Lemma num_add_int (a b : Z) : num_add (num a) (num b) = num (a + b).
Proof.
  unfold num, num_add. f_equal.
  transitivity (Qred (inject_Z (a + b))); [|apply Qred_inject_Z].
  apply Qred_complete. now rewrite inject_Z_plus.
Qed.

Lemma num_sub_int (a b : Z) : num_sub (num a) (num b) = num (a - b).
Proof.
  unfold num_sub. change (num_opp (num b)) with (Fin (Qred (- inject_Z b))).
  replace (Qred (- inject_Z b)) with (inject_Z (- b)).
  - apply (num_add_int a (- b)).
  - rewrite <- Qred_inject_Z. apply Qred_complete. now rewrite inject_Z_opp.
Qed.

Lemma num_lt_int (a b : Z) : num_lt (num a) (num b) = true <-> a < b.
Proof. unfold num. now rewrite num_lt_fin, <- Zlt_Qlt. Qed.

Lemma num_truthy_int (z : Z) : num_truthy (num z) = true <-> z <> 0.
Proof.
  unfold num, num_truthy, q_zero. simpl. rewrite negb_true_iff. apply Z.eqb_neq.
Qed.

Lemma num_lt_le (a b : number) : num_lt a b = true -> num_le a b = true.
Proof. unfold num_le. now intros ->. Qed.

Lemma num_eq_le (a b : number) : num_eq a b = true -> num_le a b = true.
Proof. unfold num_le. intros ->. apply orb_true_r. Qed.

(** Of two numbers that are not [NaN], one is less or they are equal. *)
Lemma num_trichotomy (a b : number) :
  a <> NaN -> b <> NaN ->
  num_lt a b = false -> num_lt b a = false -> num_eq a b = true.
Proof.
  destruct a as [|s|p], b as [|t|q]; try congruence; intros _ _; simpl.
  - destruct s, t; simpl; congruence.
  - destruct s; simpl; congruence.
  - destruct t; simpl; congruence.
  - intros H1 H2. apply num_lt_fin_false in H1, H2. apply Qeq_bool_iff.
    now apply Qle_antisym.
Qed.

Lemma num_le_lt_trans (a b c : number) :
  num_le a b = true -> num_lt b c = true -> num_lt a c = true.
Proof.
  unfold num_le. destruct a as [|s|p], b as [|t|q], c as [|u|r]; simpl;
    try (destruct s); try (destruct t); try (destruct u); simpl; try congruence;
    try tauto.
  fold (num_lt (Fin p) (Fin q)) (num_lt (Fin q) (Fin r)) (num_lt (Fin p) (Fin r)).
  rewrite orb_true_iff, Qeq_bool_iff, !num_lt_fin. intros [H|H] H'.
  - now apply Qlt_trans with q.
  - now rewrite H.
Qed.

(** A number whose ceiling is an integer [m] is at most [m]. *)
Lemma ceil_eq_le (c : number) (m : Z) :
  num_eq (Math_ceil c) (num m) = true -> num_le c (num m) = true.
Proof.
  destruct c as [|s|q]; simpl; try congruence. intros H.
  apply Qeq_bool_iff in H. apply num_le_fin. rewrite <- H. apply Qle_ceiling.
Qed.

Lemma eq_ceil_eq (c : number) (m : Z) :
  num_eq c (num m) = true -> num_eq (Math_ceil c) (num m) = true.
Proof.
  destruct c as [|s|q]; simpl; try congruence. intros H.
  apply Qeq_bool_iff in H. apply Qeq_bool_iff.
  rewrite H. now rewrite Qceiling_Z.
Qed.

(** ** The search of [maxFontSize] *)

Lemma decrease_noop (compute : number -> result number) (max : number)
    (fuel : nat) (size cur : number) :
  num_gt cur max && num_gt size (num 0) = false ->
  decrease compute max fuel size cur = Returns (size, cur).
Proof. intros H. destruct fuel; cbn [decrease]; now rewrite H. Qed.

Lemma sizeOrUndefined_some (size r : number) :
  sizeOrUndefined size = Some r -> r = size /\ num_truthy r = true.
Proof.
  unfold sizeOrUndefined. destruct (num_truthy size) eqn:E; [|discriminate].
  intros H. injection H as <-. now split.
Qed.

Lemma num_truthy_not_nan (a : number) : num_truthy a = true -> a <> NaN.
Proof. destruct a; simpl; congruence. Qed.

Section SearchProperties.
Variable f : number -> number.
Variable m : Z.
Hypothesis f_numeric : numeric f.

Let compute (size : number) : result number := Ok (f size).
Let max : number := num m.

Lemma walkable_pred (size : number) :
  walkable size -> num_gt size (num 0) = true ->
  walkable (num_sub size (num 1))
  /\ num_add (num_sub size (num 1)) (num 1) = size.
Proof.
  intros [(z & Hz & ->)| ->] Hpos.
  - unfold num_gt in Hpos. apply num_lt_int in Hpos.
    rewrite num_sub_int, num_add_int. split.
    + left. exists (z - 1). split; [lia|reflexivity].
    + f_equal. lia.
  - split; [now right|reflexivity].
Qed.

(** The decreasing walk, when it returns: either it made no step, or it
    stopped at a size whose successor is too wide. *)
Lemma decrease_spec (fuel : nat) : forall size cur size' cur',
  cur = f size -> walkable size ->
  decrease compute max fuel size cur = Returns (size', cur') ->
  num_gt cur' max && num_gt size' (num 0) = false
  /\ cur' = f size' /\ walkable size'
  /\ (size' = size \/ num_gt (f (num_add size' (num 1))) max = true).
Proof.
  induction fuel as [|fuel IH]; intros size cur size' cur' Hc Hw H;
    cbn [decrease] in H;
    destruct (num_gt cur max && num_gt size (num 0)) eqn:E;
    try discriminate H.
  - injection H as <- <-. repeat split; auto.
  - apply andb_true_iff in E as [Hgt Hpos].
    destruct (walkable_pred size Hw Hpos) as [Hw' Hback].
    cbn [compute lift rbind] in H.
    apply IH in H; [|reflexivity|exact Hw'].
    destruct H as (Hexit & Hcur & Hws & Hstep). repeat split; auto.
    right. destruct Hstep as [-> | Hstep]; [|exact Hstep].
    rewrite Hback. now rewrite <- Hc.
  - injection H as <- <-. repeat split; auto.
Qed.

(** The increasing walk, when it returns a size: either it made no step,
    or the size fits and is the last one that is below the width or the
    first one that meets it. *)
Lemma increase_spec (fuel : nat) : forall size cur r,
  cur = f size ->
  increase compute max fuel size cur = Returns (Some r) ->
  num_truthy r = true
  /\ ((r = size /\ num_lt cur max = false)
      \/ (num_le (f r) max = true
          /\ (num_eq (f r) max = true
              \/ num_gt (f (num_add r (num 1))) max = true))).
Proof.
  induction fuel as [|fuel IH]; intros size cur r Hc H;
    cbn [increase] in H; destruct (num_lt cur max) eqn:E;
    try discriminate H.
  - injection H as H. apply sizeOrUndefined_some in H as [-> Ht]. auto.
  - cbn [compute lift rbind] in H.
    destruct (num_gt (f (num_add size (num 1))) max) eqn:G.
    + injection H as H. apply sizeOrUndefined_some in H as [-> Ht].
      split; [exact Ht|]. right. rewrite <- Hc.
      split; [now apply num_lt_le|now right].
    + apply IH in H; [|reflexivity].
      destruct H as [Ht [[-> Hlt]|H]]; (split; [exact Ht|]); [|now right].
      right.
      assert (Heq : num_eq (f (num_add size (num 1))) max = true).
      { apply num_trichotomy; try assumption; [|discriminate].
        apply f_numeric. now apply num_truthy_not_nan. }
      split; [now apply num_eq_le|now left].
  - injection H as H. apply sizeOrUndefined_some in H as [-> Ht]. auto.
Qed.
End SearchProperties.

Lemma num_not_gt_le (a b : number) :
  a <> NaN -> b <> NaN -> num_gt a b = false -> num_le a b = true.
Proof.
  intros Ha Hb H. unfold num_gt in H. unfold num_le.
  destruct (num_lt a b) eqn:E; [reflexivity|]. simpl.
  now apply num_trichotomy.
Qed.

Lemma num_truthy_not_positive (a : number) :
  num_truthy a = true -> num_gt a (num 0) = false -> num_lt a (num 0) = true.
Proof.
  destruct a as [|s|q].
  - simpl. congruence.
  - destruct s; simpl; congruence.
  - unfold num_gt, num. rewrite num_lt_fin, num_lt_fin_false.
    cbn [num_truthy]. rewrite negb_true_iff. unfold q_zero.
    intros Hz Hle. apply Z.eqb_neq in Hz. apply Qle_lt_or_eq in Hle as [H|H]; [exact H|].
    exfalso. apply Hz. unfold Qeq in H. simpl in H. lia.
Qed.

Lemma num_lt_trans (a b c : number) :
  num_lt a b = true -> num_lt b c = true -> num_lt a c = true.
Proof. intros H. apply num_le_lt_trans. now apply num_lt_le. Qed.

Lemma Qfloor_nonneg (x : Q) : (0 <= x)%Q -> 0 <= Qfloor x.
Proof. intros H. apply (Qfloor_resp_le 0 x H). Qed.

(** The first probe's size is a natural number. *)
Lemma seed_natural (m : Z) :
  0 < m -> exists z, 0 <= z /\ Math_floor (num_div (num m) (num 2)) = num z.
Proof.
  intros Hm. cbn [num_div num]. change (q_zero (inject_Z 2)) with false. cbv iota.
  cbn [Math_floor]. eexists; split; [|reflexivity].
  apply Qfloor_nonneg. rewrite Qred_correct.
  apply Qle_shift_div_l; [reflexivity|]. rewrite Qmult_0_l.
  change 0%Q with (inject_Z 0). rewrite <- Zle_Qle. lia.
Qed.

(** The refined size is negative only when the first probe's width is, and
    then it is an integer. *)
Lemma estimate_negative (z0 m : Z) (c0 : number) :
  0 <= z0 -> 0 < m ->
  num_lt (Math_floor (num_mul (num_div (num z0) c0) (num m))) (num 0) = true ->
  num_lt c0 (num 0) = true
  /\ exists z1, z1 < 0
                /\ Math_floor (num_mul (num_div (num z0) c0) (num m)) = num z1.
Proof.
  intros Hz Hm. assert (Hm' : q_zero (inject_Z m) = false).
  { unfold q_zero. simpl. apply Z.eqb_neq. lia. }
  assert (Hm'' : q_neg (inject_Z m) = false).
  { unfold q_neg. simpl. apply Z.ltb_ge. lia. }
  assert (Hz' : q_neg (inject_Z z0) = false).
  { unfold q_neg. simpl. apply Z.ltb_ge. lia. }
  change (num m) with (Fin (inject_Z m)). change (num z0) with (Fin (inject_Z z0)).
  destruct c0 as [|b|q]; cbn [num_div].
  - simpl. congruence.
  - cbn [num_mul Math_floor]. rewrite num_lt_int.
    rewrite (Qfloor_comp _ _ (Qred_correct _)).
    rewrite (Qfloor_comp _ 0%Q (Qmult_0_l _)). intros H. discriminate H.
  - destruct (q_zero q) eqn:Eq.
    + destruct (q_zero (inject_Z z0)); [simpl; congruence|].
      rewrite Hz'. cbn [num_mul]. rewrite Hm', Hm''. simpl. congruence.
    + cbn [num_mul Math_floor]. rewrite num_lt_int. intros H.
      split; [|eexists; split; [exact H|reflexivity]].
      apply num_lt_fin. apply Qnot_le_lt. intros Hq.
      assert (0 <= Qfloor (Qred (Qred (inject_Z z0 / q) * inject_Z m))); [|lia].
      apply Qfloor_nonneg. rewrite !Qred_correct.
      apply Qmult_le_0_compat.
      * apply Qmult_le_0_compat; [|now apply Qinv_le_0_compat].
        change 0%Q with (inject_Z 0). rewrite <- Zle_Qle. lia.
      * change 0%Q with (inject_Z 0). rewrite <- Zle_Qle. lia.
Qed.

Lemma floor_walkable (x : number) :
  num_gt (Math_floor x) (num 0) = true -> walkable (Math_floor x).
Proof.
  destruct x as [|b|q]; cbn [Math_floor]; unfold num_gt.
  - simpl. congruence.
  - destruct b; simpl; [congruence|]. now right.
  - rewrite num_lt_int. intros H. left. exists (Qfloor q). split; [lia|reflexivity].
Qed.

Lemma walkable_positive (size : number) :
  walkable size -> num_truthy size = true -> num_gt size (num 0) = true.
Proof.
  intros [(z & Hz & ->)| ->] Ht; [|reflexivity].
  apply num_truthy_int in Ht. unfold num_gt. apply num_lt_int. lia.
Qed.

Lemma walkable_not_nan (size : number) : walkable size -> size <> NaN.
Proof. intros [(z & _ & ->)| ->]; discriminate. Qed.


Lemma quarterWidth_monotone : monotone quarterWidth.
Proof.
  intros a b H. unfold quarterWidth, num.
  cbn [num_div]. change (q_zero (inject_Z 4)) with false. cbv iota.
  cbn [Math_ceil]. apply num_le_fin. rewrite <- Zle_Qle.
  apply Qceiling_resp_le. apply Qred_le. unfold Qdiv.
  apply Qmult_le_compat_r; [|discriminate]. now rewrite <- Zle_Qle.
Qed.

Lemma quarterWidth_numeric : numeric quarterWidth.
Proof.
  intros [|b|q] H; [congruence| |]; discriminate.
Qed.



Lemma search_ifelse_same (compute : number -> result number) (max : number)
    (fuel : nat) :
  search compute max fuel = search_ifelse compute max fuel.
Proof.
  unfold search, search_ifelse.
  destruct (compute (Math_floor (num_div max (num 2)))) as [cur0|msg];
    [|reflexivity]. cbn [lift rbind].
  set (size := Math_floor (num_mul _ max)).
  destruct (compute size) as [cur|msg]; [|reflexivity]. cbn [lift rbind].
  destruct (num_eq (Math_ceil cur) max); [reflexivity|].
  destruct (num_gt cur max && num_gt size (num 0)) eqn:G.
  - destruct (decrease compute max fuel size cur) as [[size' cur']| |]; reflexivity.
  - now rewrite decrease_noop.
Qed.

(** C8. The decreasing loop does nothing when its condition is false on
    entry, and the search, and with it [maxFontSize], returns what the
    variant returns in which the two loops stand under an if/else on the
    direction: for every width function, width to fill and number of turns
    allowed to the loops. *)
Theorem search_equals_ifelse (compute : number -> result number) (max : number)
    (fuel : nat) :
  (forall size cur,
      num_gt cur max && num_gt size (num 0) = false ->
      decrease compute max fuel size cur = Returns (size, cur))
  /\ search compute max fuel = search_ifelse compute max fuel
  /\ (forall host this t options overwrites,
        maxFontSize host this fuel t options overwrites
        = maxFontSize_ifelse host this fuel t options overwrites).
Proof.
  split; [intros size cur; apply decrease_noop|].
  split; [apply search_ifelse_same|].
  intros host this t options overwrites.
  unfold maxFontSize, maxFontSize_ifelse. now rewrite search_ifelse_same.
Qed.

Lemma search_equals_ifelse_witness :
  decrease (fun s => Ok (quarterWidth s)) (num 4) 0 (num 8) (num 2)
  = Returns (num 8, num 2).
Proof.
  apply (search_equals_ifelse (fun s => Ok (quarterWidth s)) (num 4) 0).
  reflexivity.
Defined.

(** ** Empty text *)

Lemma parseArgs_empty (this : TextMetrics) (t : option jsstring)
    (options overwrites : option obj) :
  t = None \/ t = Some [] -> el this = None ->
  arg_text (parseArgs this t options overwrites) = [].
Proof.
  intros Ht Hel. unfold parseArgs. cbn [arg_text]. rewrite Hel.
  destruct Ht as [-> | ->]; reflexivity.
Qed.

(** C9, as the code has it.  [width] returns 0 when the text to measure is
    empty, as it is when the text is empty or missing and the instance has no
    element; both line packers return no line for an empty or missing text
    when the two spacing values convert. *)
Theorem empty_text_degrades (host : Host) (this : TextMetrics)
    (t : option jsstring) (options overwrites : option obj)
    (parameters : ComputeLinesParams) (addSpacing : jsstring -> number) :
  (arg_text (parseArgs this t options overwrites) = [] ->
     width host this t options overwrites = Ok (num 0))
  /\ (t = None \/ t = Some [] -> el this = None ->
     width host this t options overwrites = Ok (num 0))
  /\ (text parameters = None \/ text parameters = Some [] ->
      addWordAndLetterSpacing (wordSpacing parameters) (letterSpacing parameters)
      = Ok addSpacing ->
      computeLinesDefault parameters = Ok []
      /\ computeLinesBreakAll parameters = Ok []).
Proof.
  assert (H0 : arg_text (parseArgs this t options overwrites) = [] ->
               width host this t options overwrites = Ok (num 0)).
  { intros H. unfold width. now rewrite H. }
  split; [exact H0|]. split.
  - intros Ht Hel. apply H0. now apply parseArgs_empty.
  - intros Ht Hs. unfold computeLinesDefault, computeLinesBreakAll. rewrite Hs.
    cbn [bind]. destruct Ht as [-> | ->]; now split.
Qed.

Lemma empty_text_degrades_witness :
  width plainHost {| el := None; overwrites := []; style := fun _ => VUndefined |}
        (Some []) None None = Ok (num 0)
  /\ computeLinesDefault (plainParams 1 [] 10) = Ok []
  /\ computeLinesBreakAll (plainParams 1 [] 10) = Ok [].
Proof.
  pose proof (empty_text_degrades plainHost
                {| el := None; overwrites := []; style := fun _ => VUndefined |}
                (Some []) None None (plainParams 1 [] 10) (spacingOf (num 0) (num 0)))
    as (_ & Hw & Hl).
  split.
  - apply Hw; [now right|reflexivity].
  - apply Hl; [now right|reflexivity].
Defined.

(** C9, as stated, fails.  With a word spacing of '2xyz' the line packers
    throw the unit error before they look at the text, also when it is empty;
    and with the text left out, [width] on an element measures the element's
    own text. *)
Lemma empty_text_can_throw :
  computeLinesDefault emptyWithBadSpacing = Throw (js "The unit xyz is not supported")
  /\ computeLinesBreakAll emptyWithBadSpacing
     = Throw (js "The unit xyz is not supported")
  /\ width plainHost abcElement None None None = Ok (num 3)
  /\ ~ (forall parameters : ComputeLinesParams,
          text parameters = Some [] ->
          computeLinesDefault parameters = Ok []
          /\ computeLinesBreakAll parameters = Ok []).
Proof.
  split; [reflexivity|]. split; [reflexivity|]. split; [vm_compute; reflexivity|].
  intros H. destruct (H emptyWithBadSpacing eq_refl) as [H' _]. discriminate H'.
Qed.

(** ** Line packing *)

Lemma has_In (set : list jsstring) (x : jsstring) : has set x = true -> In x set.
Proof.
  unfold has. intros H. apply existsb_exists in H as (y & Hy & E).
  apply str_eqb_eq in E. now subst.
Qed.

Lemma visible_app (a b : jsstring) : visible (a ++ b) = visible a ++ visible b.
Proof. apply filter_app. Qed.

Lemma visible_BAI (chr : jsstring) : has BAI chr = true -> visible chr = [].
Proof.
  intros H. apply has_In in H. unfold BAI in H. cbn [List.map In] in H.
  repeat (destruct H as [<-|H]; [reflexivity|]). destruct H.
Qed.

Lemma visible_BK (chr : jsstring) : has BK chr = true -> visible chr = [].
Proof.
  intros H. apply has_In in H. destruct H as [<-|[]]. reflexivity.
Qed.

Lemma visible_SHY (chr : jsstring) : has SHY chr = true -> visible chr = [].
Proof.
  intros H. apply has_In in H. destruct H as [<-|[]]. reflexivity.
Qed.

(** What [checkBreak] says of a character that it classifies. *)
Lemma checkBreak_has (chr : jsstring) (ty : BreakType) :
  checkBreak chr = Some ty ->
  match ty with
  | tB2 => has B2 chr
  | tBAI => has BAI chr
  | tSHY => has SHY chr
  | tBA => has BA chr
  | tBB => has BB chr
  | tBK => has BK chr
  end = true.
Proof.
  unfold checkBreak.
  destruct (has B2 chr) eqn:E1; [intros [= <-]; reflexivity|].
  destruct (has BAI chr) eqn:E2; [intros [= <-]; reflexivity|].
  destruct (has SHY chr) eqn:E3; [intros [= <-]; reflexivity|].
  destruct (has BA chr) eqn:E4; [intros [= <-]; reflexivity|].
  destruct (has BB chr) eqn:E5; [intros [= <-]; reflexivity|].
  destruct (has BK chr) eqn:E6; [intros [= <-]; reflexivity|discriminate].
Qed.

(** A boundary that a split leaves out or writes as a hyphen is not
    visible. *)
Lemma visible_dropped (chr : jsstring) (ty : BreakType) :
  checkBreak chr = Some ty -> ty = tBAI \/ ty = tSHY \/ ty = tBK ->
  visible chr = [].
Proof.
  intros H Hty. apply checkBreak_has in H.
  destruct Hty as [-> | [-> | ->]];
    [now apply visible_BAI|now apply visible_SHY|now apply visible_BK].
Qed.

Lemma codePoints_pair (c d : N) (s : jsstring) :
  codePoints (c :: d :: s)
  = if ((0xD800 <=? c) && (c <=? 0xDBFF) && (0xDC00 <=? d) && (d <=? 0xDFFF))%N
    then [c; d] :: codePoints s
    else [c] :: codePoints (d :: s).
Proof. reflexivity. Qed.

Lemma codePoints_concat (s : jsstring) :
  List.concat (codePoints s) = s /\ forall c, List.concat (codePoints (c :: s)) = c :: s.
Proof.
  induction s as [|d s [IH1 IH2]]; [now split|]. split; [apply IH2|].
  intros c. rewrite codePoints_pair.
  destruct ((0xD800 <=? c) && (c <=? 0xDBFF) && (0xDC00 <=? d) && (d <=? 0xDFFF))%N;
    cbn [List.concat app]; [now rewrite IH1|now rewrite IH2].
Qed.

Lemma concat_push (lines : list jsstring) (line : jsstring) :
  List.concat (lines ++ [line]) = List.concat lines ++ line.
Proof. rewrite concat_app. cbn [List.concat]. now rewrite app_nil_r. Qed.

Lemma flush_concat (st : list jsstring * jsstring) :
  List.concat (flush st) = List.concat (fst st) ++ snd st.
Proof.
  unfold flush. destruct (snd st); [now rewrite app_nil_r|apply concat_push].
Qed.

(** What the break-all policy holds after a character: all that is visible
    of what it held and of the character. *)
Lemma breakAllStep_visible (parameters : ComputeLinesParams)
    (addSpacing : jsstring -> number) (lines : list jsstring) (line : jsstring)
    (index : nat) (chr : jsstring) :
  let '(lines', line', _) :=
    breakAllStep parameters addSpacing (lines, line, index) chr in
  visible (List.concat lines' ++ line') = visible (List.concat lines ++ line) ++ visible chr.
Proof.
  unfold breakAllStep.
  assert (Hskip : has BAI chr = true ->
                  visible (List.concat lines ++ line)
                  = visible (List.concat lines ++ line) ++ visible chr).
  { intros H. now rewrite (visible_BAI _ H), app_nil_r. }
  assert (Hsoft : str_eqb chr [0x00AD%N] = true ->
                  visible (List.concat lines ++ line)
                  = visible (List.concat lines ++ line) ++ visible chr).
  { intros H. apply str_eqb_eq in H. subst chr. now rewrite app_nil_r. }
  assert (Hkeep : visible (List.concat lines ++ line ++ chr)
                  = visible (List.concat lines ++ line) ++ visible chr).
  { now rewrite app_assoc, visible_app. }
  assert (Hnext : visible (List.concat (lines ++ [line]) ++ chr)
                  = visible (List.concat lines ++ line) ++ visible chr).
  { now rewrite concat_push, visible_app. }
  assert (Hdrop : forall ty, checkBreak chr = Some ty ->
                  ty = tBAI \/ ty = tSHY \/ ty = tBK ->
                  visible (List.concat (lines ++ [line]) ++ [])
                  = visible (List.concat lines ++ line) ++ visible chr).
  { intros ty H Hty. rewrite (visible_dropped _ _ H Hty), !app_nil_r.
    now rewrite concat_push. }
  assert (Hhyphen : checkBreak chr = Some tSHY ->
                  visible (List.concat (lines ++ [line ++ js "-"]) ++ [])
                  = visible (List.concat lines ++ line) ++ visible chr).
  { intros H. rewrite (visible_dropped _ _ H), !app_nil_r by tauto.
    rewrite concat_push, app_assoc, visible_app. apply app_nil_r. }
  assert (Hclose : visible (List.concat (lines ++ [line ++ chr]) ++ [])
                  = visible (List.concat lines ++ line) ++ visible chr).
  { now rewrite app_nil_r, concat_push, app_assoc, visible_app. }
  destruct (checkBreak chr) as [[]|] eqn:Ety;
    try (eapply Hdrop; [reflexivity|tauto]);
    (destruct (has BAI chr && _) eqn:Es;
     [apply andb_true_iff in Es as [Es _]; now apply Hskip|]);
    (destruct (num_gt _ _ && _);
     [first [now apply Hhyphen | exact Hclose
            | eapply Hdrop; [reflexivity|tauto] | exact Hnext]
     |destruct (str_eqb chr [0x00AD%N]) eqn:En; cbn [negb];
      [now apply Hsoft|exact Hkeep]]).
Qed.

Lemma breakAll_fold_visible (parameters : ComputeLinesParams)
    (addSpacing : jsstring -> number) (cps : list jsstring) :
  forall lines line index,
    let '(lines', line', _) :=
      fold_left (breakAllStep parameters addSpacing) cps (lines, line, index) in
    visible (List.concat lines' ++ line')
    = visible (List.concat lines ++ line) ++ visible (List.concat cps).
Proof.
  induction cps as [|chr cps IH]; intros lines line index.
  - cbn [fold_left List.concat]. now rewrite app_nil_r.
  - cbn [fold_left List.concat].
    pose proof (breakAllStep_visible parameters addSpacing lines line index chr) as Hs.
    destruct (breakAllStep parameters addSpacing (lines, line, index) chr)
      as [[lines1 line1] index1].
    specialize (IH lines1 line1 index1).
    destruct (fold_left _ cps (lines1, line1, index1)) as [[lines' line'] index'].
    now rewrite IH, Hs, (visible_app chr), app_assoc.
Qed.

Lemma computeLinesBreakAll_visible (parameters : ComputeLinesParams)
    (t : jsstring) (lines : list jsstring) :
  text parameters = Some t -> computeLinesBreakAll parameters = Ok lines ->
  visible (List.concat lines) = visible t.
Proof.
  intros Ht H. unfold computeLinesBreakAll in H. rewrite Ht in H.
  destruct (addWordAndLetterSpacing _ _) as [addSpacing|]; [|discriminate H].
  cbn [bind] in H. destruct t as [|c t]; [now injection H as <-|].
  pose proof (breakAll_fold_visible parameters addSpacing (codePoints (c :: t))
                [] [] O) as Hf.
  destruct (fold_left _ _ _) as [[lines' line'] index'].
  injection H as <-. rewrite flush_concat. cbn [fst snd].
  rewrite Hf. cbn [List.concat app].
  now rewrite (proj1 (codePoints_concat (c :: t))).
Qed.


Lemma weave_push (parts : list jsstring) (breakpoints : list Breakpoint)
    (part : jsstring) (bp : Breakpoint) :
  List.length parts = List.length breakpoints ->
  weave (parts ++ [part]) (breakpoints ++ [bp])
  = weave parts breakpoints ++ part ++ chr bp.
Proof.
  revert breakpoints; induction parts as [|p parts IH]; intros [|b bps] H;
    try discriminate H.
  - cbn. now rewrite app_nil_r.
  - cbn [app weave]. rewrite IH by (now injection H). now rewrite <- !app_assoc.
Qed.

Lemma codePoints_nonempty (s : jsstring) :
  Forall (fun chr => chr <> []) (codePoints s)
  /\ forall c, Forall (fun chr => chr <> []) (codePoints (c :: s)).
Proof.
  induction s as [|d s [IH1 IH2]].
  - split; [constructor|]. intros c. repeat constructor. discriminate.
  - split; [apply IH2|]. intros c. rewrite codePoints_pair.
    destruct ((0xD800 <=? c) && (c <=? 0xDBFF) && (0xDC00 <=? d) && (d <=? 0xDFFF))%N;
      constructor; try discriminate; [exact IH1|apply IH2].
Qed.

Lemma BAI_single (x : jsstring) : has BAI x = true -> exists c, x = [c].
Proof.
  intros H. apply has_In in H. unfold BAI in H. apply in_map_iff in H as (c & <- & _).
  now exists c.
Qed.

(** A part that grows by a character of no class is no collapsible
    space. *)
Lemma part_not_BAI (part chr : jsstring) :
  chr <> [] -> checkBreak chr = None -> has BAI (part ++ chr) = false.
Proof.
  intros Hne Hc. destruct (has BAI (part ++ chr)) eqn:E; [|reflexivity].
  exfalso. destruct (BAI_single _ E) as [c Hx].
  destruct part as [|p part].
  - cbn [app] in E. unfold checkBreak in Hc. rewrite E in Hc.
    destruct (has B2 chr); discriminate Hc.
  - destruct part, chr; try discriminate Hx. now apply Hne.
Qed.

Lemma scanStep_inv (seen ch : jsstring)
    (st : list jsstring * list Breakpoint * jsstring) :
  ch <> [] -> scanInv seen st -> scanInv (seen ++ ch) (scanStep st ch).
Proof.
  destruct st as [[parts breakpoints] part].
  intros Hne (Hlen & Hty & Hparts & Hpart & Hvis). unfold scanStep.
  destruct (checkBreak ch) as [ty|] eqn:Ec.
  - assert (Hpush : scanInv (seen ++ ch)
                      (parts ++ [part],
                       breakpoints ++ [{| chr := ch; type := ty |}], [])).
    { repeat split.
      - rewrite !length_app. cbn. lia.
      - apply Forall_app. split; [exact Hty|]. now repeat constructor.
      - apply Forall_app. split; [exact Hparts|]. now repeat constructor.
      - rewrite weave_push by exact Hlen. cbn [chr]. rewrite app_nil_r.
        rewrite app_assoc, visible_app, Hvis. now rewrite <- visible_app. }
    destruct part as [|c part]; [|exact Hpush].
    destruct ty; try exact Hpush.
    repeat split; try assumption.
    rewrite (visible_app seen), <- Hvis.
    rewrite (visible_dropped ch tBAI Ec) by tauto. symmetry. apply app_nil_r.
  - repeat split; try assumption.
    + now apply part_not_BAI.
    + rewrite app_assoc, visible_app, Hvis. now rewrite <- visible_app.
Qed.

Lemma scan_inv (cps : list jsstring) : forall seen st,
  Forall (fun chr => chr <> []) cps -> scanInv seen st ->
  scanInv (seen ++ List.concat cps) (fold_left scanStep cps st).
Proof.
  induction cps as [|chr cps IH]; intros seen st Hne Hinv.
  - cbn [fold_left List.concat]. now rewrite app_nil_r.
  - cbn [fold_left List.concat]. rewrite app_assoc.
    inversion Hne as [|? ? H1 H2]; subst.
    apply IH; [exact H2|]. now apply scanStep_inv.
Qed.

Lemma scan_text (t : jsstring) :
  scanInv t (fold_left scanStep (codePoints t) ([], [], [])).
Proof.
  pose proof (scan_inv (codePoints t) [] ([], [], [])
                (proj1 (codePoints_nonempty t))) as H.
  rewrite (proj1 (codePoints_concat t)) in H. apply H.
  repeat split; constructor.
Qed.

Lemma weave_firstn (j : nat) : forall parts breakpoints bp,
  (j < List.length parts)%nat -> nth_error breakpoints j = Some bp ->
  weave (firstn (S j) parts) (firstn (S j) breakpoints)
  = weave (firstn j parts) (firstn j breakpoints) ++ nth j parts [] ++ chr bp.
Proof.
  induction j as [|j IH]; intros [|p parts] [|b bps] bp Hj Hb;
    cbn [List.length] in Hj; try lia; try discriminate Hb.
  - injection Hb as ->. cbn. now rewrite app_nil_r.
  - cbn [nth_error] in Hb. rewrite !firstn_cons. cbn [weave nth].
    rewrite (IH parts bps bp) by (assumption || lia).
    now rewrite <- !app_assoc.
Qed.

Section PackRoundTrip.
Variable parameters : ComputeLinesParams.
Variable addSpacing : jsstring -> number.
Variable parts : list jsstring.
Variable breakpoints : list Breakpoint.
Hypothesis typed : Forall (fun bp => checkBreak (chr bp) = Some (type bp)) breakpoints.
Hypothesis no_space_part : Forall (fun p => has BAI p = false) parts.

Lemma packStep_visible (i : nat) (st st' : list jsstring * jsstring) :
  (i < List.length parts)%nat -> packed parts breakpoints i st ->
  packStep parameters addSpacing parts breakpoints i st = Ok st' ->
  packed parts breakpoints (S i) st'.
Proof.
  intros Hi Hinv H. destruct st as [lines line]. unfold packStep in H.
  destruct i as [|j].
  { injection H as <-. cbn [packed] in *. injection Hinv as -> ->. reflexivity. }
  cbn [packed fst snd] in Hinv.
  assert (Hpart : has BAI (nth (S j) parts []) = false).
  { rewrite Forall_forall in no_space_part. apply no_space_part. now apply nth_In. }
  rewrite Hpart, andb_false_r in H.
  destruct (nth_error breakpoints j) as [bp|] eqn:Ebp; [|discriminate H].
  assert (Hbp : checkBreak (chr bp) = Some (type bp)).
  { rewrite Forall_forall in typed. apply typed. now apply nth_error_In in Ebp. }
  unfold packed. rewrite (weave_firstn j parts breakpoints bp) by (assumption || lia).
  set (part := nth (S j) parts []) in *.
  rewrite !app_assoc, (visible_app _ part), (visible_app _ (chr bp)), <- Hinv.
  assert (Hgone : type bp = tBAI \/ type bp = tSHY \/ type bp = tBK ->
                  visible (chr bp) = []).
  { now apply visible_dropped. }
  destruct (type bp) eqn:Ety; cbn [BreakType_eqb] in H;
    repeat match type of H with
           | (if ?c then _ else _) = _ => destruct c
           end;
    injection H as <-; cbn [fst snd];
    rewrite ?concat_push, ?concat_app; cbn [List.concat];
    rewrite ?app_nil_r, ?app_nil_l, ?Hgone by tauto;
    rewrite ?visible_app, ?Hgone by tauto;
    rewrite ?app_nil_r, <- ?app_assoc; reflexivity.
Qed.

Lemma packLoop_visible (n : nat) : forall i st st',
  (i + n = List.length parts)%nat -> packed parts breakpoints i st ->
  packLoop parameters addSpacing parts breakpoints n i st = Ok st' ->
  packed parts breakpoints (i + n) st'.
Proof.
  induction n as [|n IH]; intros i st st' Hn Hinv H; cbn [packLoop] in H.
  - injection H as <-. now rewrite Nat.add_0_r.
  - destruct (packStep parameters addSpacing parts breakpoints i st) as [st1|]
      eqn:E; [|discriminate H]. cbn [bind] in H.
    apply packStep_visible in E; [|lia|exact Hinv].
    replace (i + S n)%nat with (S i + n)%nat by lia.
    apply (IH (S i) st1 st'); [lia|exact E|exact H].
Qed.
End PackRoundTrip.

Lemma last_breakpoint (breakpoints : list Breakpoint) (j : nat) :
  List.length breakpoints = S j ->
  exists bp rest, rev breakpoints = bp :: rest /\ nth_error breakpoints j = Some bp.
Proof.
  intros Hlen. destruct (rev breakpoints) as [|bp rest] eqn:E.
  - apply (f_equal (@List.length _)) in E. rewrite length_rev, Hlen in E. discriminate E.
  - exists bp, rest. split; [reflexivity|].
    apply (f_equal (@rev _)) in E. rewrite rev_involutive in E. cbn [rev] in E.
    subst breakpoints. rewrite length_app, length_rev in Hlen. cbn in Hlen.
    rewrite nth_error_app2 by (rewrite length_rev; lia).
    rewrite length_rev. replace (j - List.length rest)%nat with O by lia. reflexivity.
Qed.

(** The default policy keeps all that is visible of the text but the
    boundary that ends it. *)
Lemma computeLinesDefault_visible (parameters : ComputeLinesParams)
    (t : jsstring) (lines : list jsstring) :
  text parameters = Some t -> computeLinesDefault parameters = Ok lines ->
  visible t = visible (List.concat lines) ++ visible (lastBoundary t).
Proof.
  intros Ht H. unfold computeLinesDefault in H. rewrite Ht in H.
  destruct (addWordAndLetterSpacing _ _) as [addSpacing|]; [|discriminate H].
  cbn [bind] in H. destruct t as [|c t]; [now injection H as <-|].
  unfold scanParts in H. unfold lastBoundary.
  pose proof (scan_text (c :: t)) as Hscan.
  destruct (fold_left scanStep (codePoints (c :: t)) ([], [], []))
    as [[parts breakpoints] part].
  destruct Hscan as (Hlen & Hty & Hparts & Hpart & Hvis).
  set (parts' := match part with [] => parts | _ :: _ => parts ++ [part] end) in *.
  assert (Hparts' : Forall (fun p => has BAI p = false) parts').
  { unfold parts'. destruct part; [exact Hparts|].
    apply Forall_app. split; [exact Hparts|now repeat constructor]. }
  destruct (packLoop _ _ _ _ _ _ _) as [st|] eqn:E; [|discriminate H].
  cbn [bind] in H. injection H as <-. rewrite flush_concat.
  apply (packLoop_visible parameters addSpacing parts' breakpoints Hty Hparts')
    in E; [|reflexivity|reflexivity].
  cbn [Nat.add] in E. rewrite <- Hvis.
  destruct (List.length parts') as [|j] eqn:Hn; cbn [packed] in E.
  - subst st. cbn [fst snd List.concat app visible filter].
    unfold parts' in Hn. destruct part as [|p part].
    + apply length_zero_iff_nil in Hn. subst parts.
      destruct breakpoints; [reflexivity|discriminate Hlen].
    + rewrite length_app in Hn. cbn in Hn. lia.
  - rewrite E. unfold parts' in *. destruct part as [|p part].
    + rewrite Hlen in Hn.
      destruct (last_breakpoint breakpoints j Hn) as (bp & rest & -> & Hbp).
      rewrite app_nil_r, <- visible_app, <- app_assoc.
      rewrite <- (weave_firstn j parts breakpoints bp) by (assumption || lia).
      rewrite <- Hn at 2. rewrite <- Hlen in Hn. rewrite <- Hn at 1.
      now rewrite !firstn_all.
    + rewrite length_app in Hn. cbn in Hn. assert (Hj : List.length parts = j) by lia.
      rewrite app_nil_r. rewrite firstn_app, Hj, Nat.sub_diag. cbn [firstn].
      rewrite app_nil_r. rewrite <- Hj at 1. rewrite firstn_all.
      rewrite Hlen in Hj. rewrite <- Hj at 1. rewrite firstn_all.
      rewrite <- Hlen in Hj. rewrite <- Hj. now rewrite nth_middle.
Qed.

(** C3. The default policy loses a boundary character that ends the text:
    of 'abc' and an em dash it returns the one line 'abc', where the
    break-all policy returns the text.  All that is visible of a text (what
    is no collapsible white space, newline, soft hyphen or hyphen) is in the
    lines of the break-all policy, and in those of the default policy but
    for that last boundary. *)
Theorem computeLinesDefault_drops_last_boundary (parameters : ComputeLinesParams)
    (t : jsstring) (lines : list jsstring) :
  computeLinesDefault (plainParams 1 (js "abc" ++ [0x2014%N]) 10) = Ok [js "abc"]
  /\ computeLinesBreakAll (plainParams 1 (js "abc" ++ [0x2014%N]) 10)
     = Ok [js "abc" ++ [0x2014%N]]
  /\ scanParts (js "abc" ++ [0x2014%N])
     = ([js "abc"], [{| chr := [0x2014%N]; type := tB2 |}])
  /\ (text parameters = Some t -> computeLinesBreakAll parameters = Ok lines ->
      visible (List.concat lines) = visible t)
  /\ (text parameters = Some t -> computeLinesDefault parameters = Ok lines ->
      visible t = visible (List.concat lines) ++ visible (lastBoundary t)).
Proof.
  split; [vm_compute; reflexivity|]. split; [vm_compute; reflexivity|].
  split; [vm_compute; reflexivity|]. split.
  - apply computeLinesBreakAll_visible.
  - apply computeLinesDefault_visible.
Qed.

Lemma computeLinesDefault_drops_last_boundary_witness :
  visible (js "abc" ++ [0x2014%N])
  = visible (List.concat [js "abc"]) ++ visible (lastBoundary (js "abc" ++ [0x2014%N])).
Proof.
  apply (computeLinesDefault_drops_last_boundary
           (plainParams 1 (js "abc" ++ [0x2014%N]) 10) (js "abc" ++ [0x2014%N]) [js "abc"]).
  - reflexivity.
  - vm_compute. reflexivity.
Defined.

(** C4. The two comparisons of the B2 tie-break take the width as it is
    measured.  At 1.1 pixels a code unit and a width of 3, 'ab' with the em
    dash measures 3.3: rounded it is 3 and fits, as it is it does not, and
    the dash gets a line of its own. *)
Theorem computeLinesDefault_B2_not_rounded :
  computeLinesDefault (plainParams (11 # 10) (js "ab" ++ [0x2014%N] ++ js "cd") 3)
  = Ok [js "ab"; [0x2014%N]; js "cd"]
  /\ rawWidth (plainParams (11 # 10) [] 3) (spacingOf (num 0) (num 0)) (js "ab" ++ [0x2014%N])
     = Fin (33 # 10)
  /\ num_le (Math_round (Fin (33 # 10))) (num 3) = true
  /\ num_le (Fin (33 # 10)) (num 3) = false.
Proof. repeat split; vm_compute; reflexivity. Qed.

Section PackInvariant.
Variable parameters : ComputeLinesParams.
Variable addSpacing : jsstring -> number.
Variable parts : list jsstring.
Variable breakpoints : list Breakpoint.

Let shape := lineShape parameters addSpacing parts breakpoints.
Let filled := body parameters addSpacing parts breakpoints.

Let packInv := packInv parameters addSpacing parts breakpoints.

Lemma filled_part (i : nat) : (i < List.length parts)%nat -> filled (nth i parts []).
Proof. intros H. right. left. now apply nth_In. Qed.

Lemma shape_push (lines : list jsstring) (l : jsstring) :
  Forall shape lines -> shape l -> Forall shape (lines ++ [l]).
Proof. intros H1 H2. apply Forall_app. split; [exact H1|now constructor]. Qed.

Lemma packStep_inv (i : nat) (st st' : list jsstring * jsstring) :
  (i < List.length parts)%nat -> packInv i st ->
  packStep parameters addSpacing parts breakpoints i st = Ok st' ->
  packInv (S i) st'.
Proof.
  intros Hi [Hlines Hline] H. destruct st as [lines line].
  cbn [fst snd] in *. unfold packStep in H.
  destruct i as [|j].
  { injection H as <-. split; [exact Hlines|right]. now apply filled_part. }
  destruct Hline as [Hline|Hline]; [discriminate Hline|].
  pose proof (filled_part (S j) Hi) as Hpart.
  set (part := nth (S j) parts []) in *.
  destruct (has BAI (nth j parts []) && has BAI part).
  { injection H as <-. split; [exact Hlines|now right]. }
  destruct (nth_error breakpoints j) as [bp|] eqn:Ebp; [|discriminate H].
  apply nth_error_In in Ebp.
  assert (Hin : In part parts) by (now apply nth_In).
  destruct (type bp) eqn:Ety; cbn [BreakType_eqb] in H.
  - (* B2 *)
    destruct (num_le (Math_round _) _) eqn:Efit.
    { injection H as <-. split; [exact Hlines|right; left; exact Efit]. }
    destruct (num_le (rawWidth parameters addSpacing (line ++ chr bp)) _) eqn:E1.
    { injection H as <-. split; [|now right].
      apply shape_push; [exact Hlines|].
      right; right; right; left. exists line, bp. repeat split; assumption. }
    destruct (num_le (rawWidth parameters addSpacing (chr bp ++ part)) _) eqn:E2.
    { injection H as <-. split; [apply shape_push; [exact Hlines|now left]|].
      right. right. right. exists bp, part. repeat split; auto. }
    injection H as <-. split; [|now right].
    change [line; chr bp] with ([line] ++ [chr bp]). rewrite app_assoc.
    apply shape_push; [apply shape_push; [exact Hlines|now left]|].
    right; right; right; right. exists bp. repeat split; assumption.
  - (* BAI *)
    destruct (num_le (Math_round _) _) eqn:Efit.
    { injection H as <-. split; [exact Hlines|right; left; exact Efit]. }
    injection H as <-. split; [apply shape_push; [exact Hlines|now left]|now right].
  - (* SHY *)
    destruct (num_le (Math_round _) _) eqn:Efit.
    { injection H as <-. split; [exact Hlines|right; left; exact Efit]. }
    injection H as <-. split; [|now right].
    apply shape_push; [exact Hlines|].
    right; left. exists line, bp. repeat split; assumption.
  - (* BA *)
    destruct (num_le (Math_round _) _) eqn:Efit.
    { injection H as <-. split; [exact Hlines|right; left; exact Efit]. }
    injection H as <-. split; [|now right].
    apply shape_push; [exact Hlines|].
    right; right; left. exists line, bp. repeat split; assumption.
  - (* BB *)
    destruct (num_le (Math_round _) _) eqn:Efit.
    { injection H as <-. split; [exact Hlines|right; left; exact Efit]. }
    injection H as <-. split; [apply shape_push; [exact Hlines|now left]|].
    right. right. right. exists bp, part. repeat split; auto.
  - (* BK *)
    injection H as <-. split; [apply shape_push; [exact Hlines|now left]|now right].
Qed.

Lemma packLoop_inv (n : nat) : forall i st st',
  (i + n = List.length parts)%nat -> packInv i st ->
  packLoop parameters addSpacing parts breakpoints n i st = Ok st' ->
  packInv (i + n) st'.
Proof.
  induction n as [|n IH]; intros i st st' Hn Hinv H; cbn [packLoop] in H.
  - injection H as <-. now rewrite Nat.add_0_r.
  - destruct (packStep parameters addSpacing parts breakpoints i st) as [st1|]
      eqn:E; [|discriminate H]. cbn [bind] in H.
    apply packStep_inv in E; [|lia|exact Hinv].
    replace (i + S n)%nat with (S i + n)%nat by lia.
    apply (IH (S i) st1 st'); [lia|exact E|exact H].
Qed.

Lemma flush_shapes (st : list jsstring * jsstring) :
  Forall shape (fst st) -> (snd st = [] \/ filled (snd st)) ->
  Forall shape (flush st).
Proof.
  intros Hl Hb. unfold flush. destruct (snd st) as [|c line] eqn:E; [exact Hl|].
  apply shape_push; [exact Hl|]. left. destruct Hb as [Hb|Hb]; [discriminate|exact Hb].
Qed.
End PackInvariant.

(** With a breakpoint behind every part but the last, no turn of the loop
    throws. *)
Lemma packStep_returns (parameters : ComputeLinesParams)
    (addSpacing : jsstring -> number) (parts : list jsstring)
    (breakpoints : list Breakpoint) (i : nat) (st : list jsstring * jsstring) :
  (i < List.length parts)%nat ->
  (List.length parts <= S (List.length breakpoints))%nat ->
  exists st', packStep parameters addSpacing parts breakpoints i st = Ok st'.
Proof.
  intros Hi Hlen. destruct st as [lines line]. unfold packStep.
  destruct i as [|j]; [eexists; reflexivity|].
  destruct (has BAI (nth j parts []) && _); [eexists; reflexivity|].
  destruct (nth_error breakpoints j) as [bp|] eqn:E.
  - destruct (type bp); cbn [BreakType_eqb];
      repeat match goal with
             | |- context [if ?c then _ else _] => destruct c
             end; eexists; reflexivity.
  - apply nth_error_None in E. lia.
Qed.

Lemma packLoop_returns (parameters : ComputeLinesParams)
    (addSpacing : jsstring -> number) (parts : list jsstring)
    (breakpoints : list Breakpoint) (n : nat) : forall i st,
  (i + n = List.length parts)%nat ->
  (List.length parts <= S (List.length breakpoints))%nat ->
  exists st', packLoop parameters addSpacing parts breakpoints n i st = Ok st'.
Proof.
  induction n as [|n IH]; intros i st Hn Hlen; cbn [packLoop].
  - eexists; reflexivity.
  - destruct (packStep_returns parameters addSpacing parts breakpoints i st)
      as [st1 ->]; [lia|exact Hlen|].
    cbn [bind]. apply IH; [lia|exact Hlen].
Qed.

(** The default policy returns its lines whenever the spacing values
    convert. *)
Lemma computeLinesDefault_returns (parameters : ComputeLinesParams)
    (addSpacing : jsstring -> number) :
  addWordAndLetterSpacing (wordSpacing parameters) (letterSpacing parameters)
  = Ok addSpacing ->
  exists lines, computeLinesDefault parameters = Ok lines.
Proof.
  intros Hs. unfold computeLinesDefault. rewrite Hs. cbn [bind].
  destruct (text parameters) as [[|c t]|]; try (eexists; reflexivity).
  unfold scanParts. pose proof (scan_text (c :: t)) as Hscan.
  destruct (fold_left scanStep (codePoints (c :: t)) ([], [], []))
    as [[parts breakpoints] part].
  destruct Hscan as (Hlen & _).
  set (parts' := match part with [] => parts | _ :: _ => parts ++ [part] end).
  destruct (packLoop_returns parameters addSpacing parts' breakpoints
              (List.length parts') O ([], [])) as [st ->].
  - reflexivity.
  - unfold parts'. destruct part; [lia|]. rewrite length_app. cbn. lia.
  - cbn [bind]. eexists; reflexivity.
Qed.

(** C2, as the code has it.  The default policy returns its lines whenever
    the spacing values convert.  Every line is a line within the width to
    fill or a line as a split started it (a part, alone or behind the BB or
    B2 boundary moved to it), as it is or closed with the hyphen of a soft
    hyphen or with a BA boundary, or closed with a B2 boundary that fits
    unrounded, or it is a B2 boundary alone.  Only the width of the line with
    the next part is tested: the hyphen or boundary that closes a line, and
    the boundary moved to the next one, are not. *)
Theorem computeLinesDefault_line_shapes (parameters : ComputeLinesParams)
    (t : jsstring) (lines : list jsstring) :
  (forall addSpacing,
      addWordAndLetterSpacing (wordSpacing parameters) (letterSpacing parameters)
      = Ok addSpacing ->
      exists lines', computeLinesDefault parameters = Ok lines')
  /\ (text parameters = Some t ->
      computeLinesDefault parameters = Ok lines ->
      exists addSpacing,
        addWordAndLetterSpacing (wordSpacing parameters) (letterSpacing parameters)
        = Ok addSpacing
        /\ Forall (lineShape parameters addSpacing
                     (fst (scanParts t)) (snd (scanParts t))) lines).
Proof.
  split; [apply computeLinesDefault_returns|].
  intros Ht H. unfold computeLinesDefault in H. rewrite Ht in H.
  destruct (addWordAndLetterSpacing _ _) as [addSpacing|] eqn:Es; [|discriminate H].
  cbn [bind] in H. exists addSpacing. split; [reflexivity|].
  destruct t as [|c t]; [injection H as <-; constructor|].
  destruct (scanParts (c :: t)) as [parts breakpoints]. cbn [fst snd].
  destruct (packLoop _ _ _ _ _ _ _) as [st|] eqn:E; [|discriminate H].
  cbn [bind] in H. injection H as <-.
  pose proof E as E'.
  apply packLoop_inv in E; [|reflexivity|split; [constructor|now left]].
  destruct E as [Hl Hb]. apply flush_shapes; [exact Hl|].
  destruct Hb as [Hb|Hb]; [|now right].
  left. cbn [Nat.add] in Hb. rewrite Hb in E'. cbn [packLoop] in E'.
  now injection E' as <-.
Qed.

Lemma computeLinesDefault_line_shapes_witness :
  exists addSpacing,
    addWordAndLetterSpacing None None = Ok addSpacing
    /\ Forall (lineShape (plainParams 1 (js "ab|cd") 2) addSpacing
                 (fst (scanParts (js "ab|cd"))) (snd (scanParts (js "ab|cd"))))
              [js "ab|"; js "cd"].
Proof.
  apply (computeLinesDefault_line_shapes (plainParams 1 (js "ab|cd") 2) (js "ab|cd")
           [js "ab|"; js "cd"]).
  - reflexivity.
  - vm_compute. reflexivity.
Defined.

Lemma fixedWidth_monotone (s t : jsstring) :
  (0 <= fixedWidth 1 s)%Q /\ (fixedWidth 1 s <= fixedWidth 1 (s ++ t))%Q.
Proof.
  unfold fixedWidth. rewrite !Qmult_1_r. split.
  - change 0%Q with (inject_Z 0). rewrite <- Zle_Qle. lia.
  - rewrite <- Zle_Qle, length_app. lia.
Qed.

(** C2, as stated, fails.  With one pixel a code unit and a width of 2,
    'ab|cd' is packed into 'ab|' and 'cd': the first line is 3 wide, it is
    no part and no B2 boundary.  In the same way a soft hyphen gives 'ab-',
    an acute accent (BB) gives a second line of accent and 'cd', and at 1.3
    pixels a code unit and a width of 2.7 the em dash is kept on 'a', 2.6
    wide and 3 when rounded. *)
Lemma computeLinesDefault_line_too_wide :
  (forall s t, (0 <= fixedWidth 1 s)%Q /\ (fixedWidth 1 s <= fixedWidth 1 (s ++ t))%Q)
  /\ computeLinesDefault (plainParams 1 (js "ab|cd") 2) = Ok [js "ab|"; js "cd"]
  /\ scanParts (js "ab|cd") = ([js "ab"; js "cd"], [{| chr := js "|"; type := tBA |}])
  /\ Math_round (rawWidth (plainParams 1 (js "ab|cd") 2) (spacingOf (num 0) (num 0)) (js "ab|"))
     = num 3
  /\ ~ Forall (withinBudget (plainParams 1 (js "ab|cd") 2) (spacingOf (num 0) (num 0))
                 (fst (scanParts (js "ab|cd"))) (snd (scanParts (js "ab|cd"))))
              [js "ab|"; js "cd"]
  /\ computeLinesDefault (plainParams 1 (js "ab" ++ [0x00AD%N] ++ js "cd") 2)
     = Ok [js "ab-"; js "cd"]
  /\ computeLinesDefault (plainParams 1 (js "ab" ++ [0x00B4%N] ++ js "cd") 2)
     = Ok [js "ab"; [0x00B4%N] ++ js "cd"]
  /\ computeLinesDefault
       {| ctx := fixedWidth (13 # 10); text := Some (js "a" ++ [0x2014%N] ++ js "bc");
          max := Fin (27 # 10); wordSpacing := None; letterSpacing := None |}
     = Ok [js "a" ++ [0x2014%N]; js "bc"].
Proof.
  split; [exact fixedWidth_monotone|]. split; [vm_compute; reflexivity|].
  split; [vm_compute; reflexivity|]. split; [vm_compute; reflexivity|].
  split; [|repeat split; vm_compute; reflexivity].
  intros H. inversion H as [|l ls Hl _]; subst.
  destruct Hl as [Hf|[[Hin _]|(bp & Hin & Hty & _)]].
  - vm_compute in Hf. discriminate Hf.
  - vm_compute in Hin. destruct Hin as [Hin|[Hin|[]]]; discriminate Hin.
  - vm_compute in Hin. destruct Hin as [<-|[]]. discriminate Hty.
Qed.

(** * Further properties *)

(** ** Break classes *)

Lemma classSet_checkBreak (ty : BreakType) (chr : jsstring) :
  In chr (classSet ty) -> checkBreak chr = Some ty.
Proof.
  destruct ty; unfold classSet, B2, BAI, SHY, BA, BB, BK;
    cbn [List.map app In]; intros H;
    repeat (destruct H as [<-|H]; [reflexivity|]); destruct H.
Qed.

Lemma checkBreak_some_iff (chr : jsstring) (ty : BreakType) :
  checkBreak chr = Some ty <-> has (classSet ty) chr = true.
Proof.
  split.
  - intros H. apply checkBreak_has in H. now destruct ty.
  - intros H. apply classSet_checkBreak. now apply has_In.
Qed.

Lemma checkBreak_none_iff (chr : jsstring) :
  checkBreak chr = None <-> forall ty, has (classSet ty) chr = false.
Proof.
  split.
  - intros H ty. destruct (has (classSet ty) chr) eqn:E; [|reflexivity].
    apply checkBreak_some_iff in E. congruence.
  - intros H. unfold checkBreak.
    pose proof (H tB2) as H1. pose proof (H tBAI) as H2. pose proof (H tSHY) as H3.
    pose proof (H tBA) as H4. pose proof (H tBB) as H5. pose proof (H tBK) as H6.
    cbn [classSet] in *. now rewrite H1, H2, H3, H4, H5, H6.
Qed.

(** X1. The six sets share no string: [checkBreak] gives a class exactly
    when the character is in the set of that class, whatever the order of
    its tests, and nothing exactly when the character is in no set. *)
Theorem checkBreak_exact (chr : jsstring) :
  (forall ty, checkBreak chr = Some ty <-> has (classSet ty) chr = true)
  /\ (checkBreak chr = None <-> forall ty, has (classSet ty) chr = false).
Proof.
  split; [intros ty; apply checkBreak_some_iff|apply checkBreak_none_iff].
Qed.

Lemma checkBreak_exact_witness : checkBreak [0x2014%N] = Some tB2.
Proof.
  apply (checkBreak_exact [0x2014%N]). reflexivity.
Defined.

Lemma codePoints_shape (s : jsstring) :
  Forall isCodePoint (codePoints s)
  /\ forall c, Forall isCodePoint (codePoints (c :: s)).
Proof.
  induction s as [|d s [IH1 IH2]].
  - split; [constructor|]. intros c. constructor; [left; now exists c|constructor].
  - split; [apply IH2|]. intros c. rewrite codePoints_pair.
    destruct ((0xD800 <=? c) && (c <=? 0xDBFF) && (0xDC00 <=? d) && (d <=? 0xDFFF))%N
      eqn:E.
    + constructor; [|exact IH1]. right. exists c, d.
      unfold isHighSurrogate, isLowSurrogate.
      apply andb_true_iff in E as [E E4]. apply andb_true_iff in E as [E E3].
      apply andb_true_iff in E as [E1 E2].
      now rewrite E1, E2, E3, E4.
    + constructor; [|apply IH2]. left. now exists c.
Qed.

(** X2. A character of two code units is never classified.  The iteration
    over a text yields two code units only as a surrogate pair, and the
    seven literals of [BA] written with five hexadecimal digits are a BMP
    code unit followed by a digit or letter: no character of a text is equal
    to one of them, so the code points they were meant for (U+10100 and the
    like) are no break opportunities. *)
Theorem checkBreak_pair_unclassified (t chr : jsstring) :
  In chr (codePoints t) -> (List.length chr = 2)%nat -> checkBreak chr = None.
Proof.
  intros Hin Hlen.
  pose proof (proj1 (codePoints_shape t)) as Hs. rewrite Forall_forall in Hs.
  destruct (Hs chr Hin) as [[c ->]|(c & d & -> & Hc & Hd)]; [discriminate Hlen|].
  apply checkBreak_none_iff. intros ty.
  destruct (has (classSet ty) [c; d]) eqn:E; [|reflexivity]. exfalso.
  apply has_In in E.
  destruct ty; unfold classSet, B2, BAI, SHY, BA, BB, BK in E;
    cbn [List.map app In] in E;
    repeat (destruct E as [E|E];
            [try discriminate E; injection E as <- <-; discriminate Hc|]);
    destruct E.
Qed.

Lemma checkBreak_pair_unclassified_witness :
  checkBreak [0xD800%N; 0xDD00%N] = None.
Proof.
  apply (checkBreak_pair_unclassified (js "a" ++ [0xD800%N; 0xDD00%N]) [0xD800%N; 0xDD00%N]).
  - right. left. reflexivity.
  - reflexivity.
Defined.

(** ** Whitespace normalisation, further *)

Lemma trim_no_space_at_end (s : jsstring) : noSpaceAtHead (rev (trim s)).
Proof.
  unfold trim, trimEnd. rewrite rev_involutive. apply trimStart_head.
Qed.

(** X3. Under every policy but 'pre' and 'pre-wrap' the normalised text is
    in normal form: its only white space is single spaces between other
    characters (no newline or tab is left, no two in a row, none at the start
    and none at the end), also when the text is missing. *)
Theorem normalizeWhitespace_normal_form (text ws : option jsstring) :
  orEmpty ws <> js "pre" -> orEmpty ws <> js "pre-wrap" ->
  exists r, normalizeWhitespace text ws = Some r
            /\ collapsed r = true
            /\ noSpaceAtHead r /\ noSpaceAtHead (rev r).
Proof.
  intros H1 H2. unfold normalizeWhitespace.
  rewrite (str_eqb_neq _ _ H1), (str_eqb_neq _ _ H2).
  destruct (str_eqb (orEmpty ws) (js "pre-line")); eexists; (split; [reflexivity|]);
    (split; [apply collapsed_trim, collapsed_collapseSpaces|]);
    (split; [apply trimEnd_head, trimStart_head|apply trim_no_space_at_end]).
Qed.

Lemma normalizeWhitespace_normal_form_witness :
  exists r, normalizeWhitespace (Some (js "  a   b ")) None = Some r
            /\ collapsed r = true
            /\ noSpaceAtHead r /\ noSpaceAtHead (rev r).
Proof.
  apply (normalizeWhitespace_normal_form (Some (js "  a   b ")) None); discriminate.
Defined.

Lemma inked_app (a b : jsstring) : inked (a ++ b) = inked a ++ inked b.
Proof. apply filter_app. Qed.

Lemma inked_rev (s : jsstring) : inked (rev s) = rev (inked s).
Proof.
  induction s as [|c s IH]; [reflexivity|].
  cbn [rev]. rewrite inked_app, IH. unfold inked at 2 3. cbn [filter].
  destruct (negb (isSpace c)); cbn [rev app]; [reflexivity|apply app_nil_r].
Qed.

Lemma inked_trimStart (s : jsstring) : inked (trimStart s) = inked s.
Proof.
  induction s as [|c s IH]; [reflexivity|].
  cbn [trimStart]. destruct (isSpace c) eqn:E; [|reflexivity].
  rewrite IH. unfold inked. cbn [filter]. now rewrite E.
Qed.

Lemma inked_trim (s : jsstring) : inked (trim s) = inked s.
Proof.
  unfold trim, trimEnd.
  now rewrite inked_rev, inked_trimStart, inked_rev, rev_involutive, inked_trimStart.
Qed.

Lemma inked_collapseSpaces (s : jsstring) : inked (collapseSpaces s) = inked s.
Proof.
  induction s as [|c s IH]; [reflexivity|].
  cbn [collapseSpaces]. unfold inked in *. cbn [filter].
  destruct (isSpace c) eqn:E; cbn [negb].
  - destruct s as [|d s]; [reflexivity|].
    destruct (isSpace d) eqn:Ed; [exact IH|].
    cbn [filter]. change (isSpace 32%N) with true. cbn [negb]. exact IH.
  - cbn [filter]. rewrite E. cbn [negb]. now rewrite IH.
Qed.

Lemma inked_replaceNewlines (s : jsstring) : inked (replaceNewlines s) = inked s.
Proof.
  induction s as [|c s IH]; [reflexivity|].
  unfold replaceNewlines, inked in *. cbn [List.map filter].
  rewrite replaceNewlines_isSpace, IH.
  destruct (isSpace c) eqn:E; cbn [negb]; [reflexivity|].
  now rewrite (replaceNewlines_keeps c E).
Qed.

(** X4. Normalisation touches white space only: under every policy the
    characters of the text that are no white space are all kept, in their
    order. *)
Theorem normalizeWhitespace_keeps_ink (text ws : option jsstring) :
  inked (orEmpty (normalizeWhitespace text ws)) = inked (orEmpty text).
Proof.
  unfold normalizeWhitespace.
  destruct (str_eqb (orEmpty ws) (js "pre")); [reflexivity|].
  destruct (str_eqb (orEmpty ws) (js "pre-wrap")); [reflexivity|].
  destruct (str_eqb (orEmpty ws) (js "pre-line")); cbn [orEmpty].
  - now rewrite inked_trim, inked_collapseSpaces.
  - now rewrite inked_trim, inked_collapseSpaces, inked_replaceNewlines.
Qed.

(** ** Text preparation, further *)

Lemma lower_punctuation (x p : N) : (p < 65)%N -> lower x = p -> x = p.
Proof.
  unfold lower. intros Hp.
  destruct ((65 <=? x) && (x <=? 90))%N eqn:E; [|trivial].
  apply andb_true_iff in E as [E1 E2]. apply N.leb_le in E1. lia.
Qed.

Lemma noMatch_literal_absent (p : N) (pat s : jsstring) :
  (p < 65)%N -> Forall (fun c => c <> p) s ->
  noMatch (matchLiteral (p :: pat)) s = true.
Proof.
  intros Hp. induction 1 as [|x s Hx Hs IH]; [reflexivity|].
  cbn [noMatch]. rewrite IH, andb_true_r.
  unfold matchLiteral. cbn [literalAt].
  destruct (N.eqb_spec p (lower x)) as [E|E]; [|reflexivity].
  exfalso. apply Hx. symmetry in E. now apply lower_punctuation in E.
Qed.

Lemma noMatch_br_absent (s : jsstring) :
  Forall (fun c => c <> 60%N) s -> noMatch matchBr s = true.
Proof.
  induction 1 as [|x s Hx Hs IH]; [reflexivity|].
  cbn [noMatch]. rewrite IH, andb_true_r.
  unfold matchBr. change (js "<br") with (60%N :: js "br"). cbn [literalAt].
  destruct (N.eqb_spec 60 (lower x)) as [E|E]; [|reflexivity].
  exfalso. apply Hx. symmetry in E. now apply lower_punctuation in E.
Qed.

(** X5. A text that holds neither '<' nor '&' is prepared into itself. *)
Theorem prepareText_plain (t : jsstring) :
  plain t -> prepareText (Some t) = t.
Proof.
  intros H. unfold plain in H. rewrite Forall_forall in H.
  assert (H60 : Forall (fun c => c <> 60%N) t).
  { apply Forall_forall. intros c Hc. now apply H. }
  assert (H38 : Forall (fun c => c <> 38%N) t).
  { apply Forall_forall. intros c Hc. now apply H. }
  unfold prepareText. cbn [orEmpty].
  rewrite (replaceAll_noMatch (matchLiteral (js "<wbr>")));
    [|now apply (noMatch_literal_absent 60 (js "wbr>"))].
  rewrite (replaceAll_noMatch matchBr); [|now apply noMatch_br_absent].
  rewrite (replaceAll_noMatch (matchLiteral (js "&shy;")));
    [|now apply (noMatch_literal_absent 38 (js "shy;"))].
  apply replaceAll_noMatch. now apply (noMatch_literal_absent 38 (js "mdash;")).
Qed.

Lemma prepareText_plain_witness : prepareText (Some (js "Hello World")) = js "Hello World".
Proof.
  apply (prepareText_plain (js "Hello World")).
  unfold plain. repeat constructor; discriminate.
Defined.

(** X6. The prepared text holds no [<wbr>], no [&shy;] and no [&mdash;], in
    either case of their letters, and is never longer than the text. *)
Theorem prepareText_replaces_all (text : option jsstring) :
  noMatch (matchLiteral (js "<wbr>")) (prepareText text) = true
  /\ noMatch (matchLiteral (js "&shy;")) (prepareText text) = true
  /\ noMatch (matchLiteral (js "&mdash;")) (prepareText text) = true
  /\ (List.length (prepareText text) <= List.length (orEmpty text))%nat.
Proof.
  split; [apply prepared_no_wbr|]. split; [apply prepared_no_shy|].
  split; [apply prepared_no_mdash|].
  unfold prepareText.
  eapply Nat.le_trans; [apply replaceAll_length|].
  eapply Nat.le_trans; [apply replaceAll_length|].
  eapply Nat.le_trans; [apply replaceAll_length|]. apply replaceAll_length.
Qed.

(** ** Option keys *)

Lemma lowered_not_upper (a : ascii) :
  isUpper a = true -> isUpper (ascii_of_N (N_of_ascii a + 32)) = false.
Proof.
  destruct a as [[] [] [] [] [] [] [] []]; vm_compute; congruence.
Qed.

Lemma dashed_noCapital (key : string) : noCapital (dashed key) = true.
Proof.
  induction key as [|a key IH]; [reflexivity|].
  cbn [dashed]. destruct (isUpper a) eqn:E; cbn [noCapital].
  - rewrite (lowered_not_upper a E), IH. reflexivity.
  - now rewrite E, IH.
Qed.

Lemma dashed_fixed (key : string) : noCapital key = true -> dashed key = key.
Proof.
  induction key as [|a key IH]; [reflexivity|].
  cbn [noCapital dashed]. intros H. apply andb_true_iff in H as [Ha Hk].
  apply negb_true_iff in Ha. rewrite Ha. now rewrite IH.
Qed.

(** X7. The key that [normalizeOptions] writes for a key has no capital
    letter; a key without capital letters is written as it is, so that
    writing the key of a key changes nothing. *)
Theorem dashed_idempotent (key : string) :
  noCapital (dashed key) = true
  /\ (noCapital key = true -> dashed key = key)
  /\ dashed (dashed key) = dashed key.
Proof.
  split; [apply dashed_noCapital|]. split; [apply dashed_fixed|].
  apply dashed_fixed, dashed_noCapital.
Qed.

Lemma dashed_idempotent_witness : dashed "font-size" = "font-size"%string.
Proof.
  exact (proj1 (proj2 (dashed_idempotent "font-size")) eq_refl).
Defined.

(** ** Spacing *)

Lemma num_mul_int (a b : Z) : num_mul (num a) (num b) = num (a * b).
Proof.
  unfold num, num_mul. f_equal.
  transitivity (Qred (inject_Z (a * b))); [|apply Qred_inject_Z].
  apply Qred_complete. now rewrite inject_Z_mult.
Qed.

Lemma noSpacing_spacingGiven (v : option jsstring) :
  noSpacing v -> spacingGiven v = None.
Proof.
  intros [-> | [-> | (k & -> & Hk)]]; try reflexivity.
  unfold blacklist in Hk. cbn [In] in Hk.
  repeat (destruct Hk as [<-|Hk]; [reflexivity|]). destruct Hk.
Qed.

(** X8. When both spacing values are left out, empty or one of the keywords
    inherit, initial, unset and normal, [addWordAndLetterSpacing] converts
    nothing, does not throw, and the spacing it gives is 0 for every text. *)
Theorem addWordAndLetterSpacing_none (ws ls : option jsstring) :
  noSpacing ws -> noSpacing ls ->
  exists addSpacing,
    addWordAndLetterSpacing ws ls = Ok addSpacing
    /\ forall text, addSpacing text = num 0.
Proof.
  intros Hw Hl. unfold addWordAndLetterSpacing.
  rewrite (noSpacing_spacingGiven ws Hw), (noSpacing_spacingGiven ls Hl).
  cbn [bind]. eexists. split; [reflexivity|].
  intros text. unfold spacingOf. now rewrite !num_mul_int, num_add_int, !Z.mul_0_r.
Qed.

Lemma addWordAndLetterSpacing_none_witness :
  exists addSpacing,
    addWordAndLetterSpacing (Some (js "normal")) None = Ok addSpacing
    /\ forall text, addSpacing text = num 0.
Proof.
  apply (addWordAndLetterSpacing_none (Some (js "normal")) None).
  - right. right. exists (js "normal"). split; [reflexivity|].
    right. right. right. left. reflexivity.
  - left. reflexivity.
Defined.

(** ** Fonts *)

Lemma join_two (l : list jsstring) (a b : jsstring) :
  exists prefix, join (l ++ [a; b]) = prefix ++ a ++ js " " ++ b.
Proof.
  induction l as [|x l [prefix IH]].
  - now exists [].
  - destruct l as [|y l].
    + exists (x ++ js " "). cbn [app join]. now rewrite <- app_assoc.
    + exists (x ++ js " " ++ prefix).
      change ((x :: y :: l) ++ [a; b]) with (x :: (y :: l) ++ [a; b]).
      change (join (x :: (y :: l) ++ [a; b]))
        with (x ++ js " " ++ join ((y :: l) ++ [a; b])).
      rewrite IH. now rewrite <- !app_assoc.
Qed.

Lemma getFont_ok (style : string -> jsval) (options : obj) (v : jsstring)
    (n : number) :
  fontSizeOf style options = VStr v -> pxValue v None = Ok n ->
  exists prefix,
    getFont style options
    = Ok (prefix ++ (numberToString n ++ js "px") ++ js " "
                 ++ toString (fontFamilyOf style options)).
Proof.
  intros Hs Hp. unfold getFont. fold (fontSizeOf style options).
  fold (fontFamilyOf style options). rewrite Hs, Hp. cbn [bind].
  match goal with
  | |- context [join ((?l ++ [?a]) ++ [?b])] =>
      destruct (join_two l a b) as [prefix Hj];
      exists prefix; rewrite <- Hj; now rewrite <- app_assoc
  end.
Qed.

Lemma getFont_not_string (style : string -> jsval) (options : obj) :
  (forall v, fontSizeOf style options <> VStr v) ->
  exists message, getFont style options = Throw message.
Proof.
  intros H. unfold getFont. fold (fontSizeOf style options).
  destruct (fontSizeOf style options) as [| | |v]; try (eexists; reflexivity).
  now destruct (H v).
Qed.

(** X9. Only the font size can make [getFont] fail: it returns a font
    exactly when the font size is a string that [pxValue] converts, and the
    font then ends with the size in pixels and the font family.  A weight,
    style or variant that is not recognised causes no error. *)
Theorem getFont_returns_iff (style : string -> jsval) (options : obj) :
  ((exists font, getFont style options = Ok font)
   <-> exists v n, fontSizeOf style options = VStr v /\ pxValue v None = Ok n)
  /\ (forall v n, fontSizeOf style options = VStr v -> pxValue v None = Ok n ->
      exists prefix,
        getFont style options
        = Ok (prefix ++ (numberToString n ++ js "px") ++ js " "
                     ++ toString (fontFamilyOf style options))).
Proof.
  split; [|apply getFont_ok]. split.
  - intros [font H].
    destruct (fontSizeOf style options) as [| | |v] eqn:E.
    + destruct (getFont_not_string style options) as [m Hm];
        [rewrite E; discriminate|congruence].
    + destruct (getFont_not_string style options) as [m Hm];
        [rewrite E; discriminate|congruence].
    + destruct (getFont_not_string style options) as [m Hm];
        [rewrite E; discriminate|congruence].
    + destruct (pxValue v None) as [n|m] eqn:Ep.
      * now exists v, n.
      * rewrite (getFont_throw style options v m E Ep) in H. discriminate H.
  - intros (v & n & Hs & Hp). destruct (getFont_ok style options v n Hs Hp) as [p Hf].
    eexists. exact Hf.
Qed.

Lemma getFont_returns_iff_witness :
  exists font, getFont (fun _ => VUndefined)
                 [("font-size"%string, VStr (js "12pt"));
                  ("font-weight"%string, VStr (js "heavy"))] = Ok font.
Proof.
  apply (getFont_returns_iff (fun _ => VUndefined)
           [("font-size"%string, VStr (js "12pt"));
            ("font-weight"%string, VStr (js "heavy"))]).
  exists (js "12pt"), (num 9). split; reflexivity.
Defined.

(** X10. A font size that is given as a number, as the type of the options
    allows, makes [getFont] throw: [pxValue] calls [replace] on it.  [lines]
    throws with it, and so does [width] unless the text is empty. *)
Theorem getFont_numeric_size_throws (host : Host) (this : TextMetrics)
    (t : option jsstring) (options overwrites : option obj) (n : number) :
  fontSizeOf (style this) (arg_styles (parseArgs this t options overwrites)) = VNum n ->
  (exists message,
      getFont (style this) (arg_styles (parseArgs this t options overwrites))
      = Throw message)
  /\ (exists message, lines host this t options overwrites = Throw message)
  /\ (arg_text (parseArgs this t options overwrites) <> [] ->
      exists message, width host this t options overwrites = Throw message).
Proof.
  intros Hn.
  destruct (getFont_not_string (style this)
              (arg_styles (parseArgs this t options overwrites))) as [m Hm].
  { intros v. rewrite Hn. discriminate. }
  split; [now exists m|]. split.
  - exists m. unfold lines. now rewrite Hm.
  - intros Ht. exists m. unfold width.
    destruct (arg_text (parseArgs this t options overwrites)); [now destruct Ht|].
    now rewrite Hm.
Qed.

Lemma getFont_numeric_size_throws_witness :
  exists message,
    lines plainHost {| el := None; overwrites := []; style := fun _ => VUndefined |}
          (Some (js "abc")) None (Some [("fontSize"%string, VNum (num 12))])
    = Throw message.
Proof.
  apply (getFont_numeric_size_throws plainHost
           {| el := None; overwrites := []; style := fun _ => VUndefined |}
           (Some (js "abc")) None (Some [("fontSize"%string, VNum (num 12))]) (num 12)).
  reflexivity.
Defined.

(** ** Height *)

(** X11. [height] is 0 when the line height is no number (as 'normal' is, or
    a line height that is not set) and when there are no lines; whenever the
    lines are computed it returns a number, never [NaN]. *)
Theorem height_is_a_number (host : Host) (this : TextMetrics)
    (t : option jsstring) (options overwrites : option obj) (ls : list jsstring) :
  let parsed := parseArgs this t options overwrites in
  lines host this (Some (arg_text parsed)) (Some (arg_options parsed))
        (Some (arg_styles parsed)) = Ok ls ->
  (exists h, height host this t options overwrites = Ok h /\ h <> NaN)
  /\ (lineHeightOf this parsed = NaN \/ ls = [] ->
      height host this t options overwrites = Ok (num 0)).
Proof.
  intros parsed H. unfold height. fold parsed. fold (lineHeightOf this parsed).
  rewrite H. cbn [bind]. split.
  - eexists. split; [reflexivity|].
    destruct (num_truthy _) eqn:E; [|discriminate].
    destruct (num_mul _ _); unfold Math_ceil, num; cbn in E; congruence.
  - intros [-> | ->]; [reflexivity|].
    cbn [List.length Z.of_nat].
    destruct (lineHeightOf this parsed) as [|b|q]; reflexivity.
Qed.

Lemma height_is_a_number_witness :
  height plainHost {| el := None; overwrites := []; style := fun _ => VUndefined |}
         (Some (js "abc")) None None = Ok (num 0).
Proof.
  apply (height_is_a_number plainHost
           {| el := None; overwrites := []; style := fun _ => VUndefined |}
           (Some (js "abc")) None None [js "abc"]).
  - vm_compute. reflexivity.
  - left. reflexivity.
Defined.

(** ** The search: when it returns and when it does not *)

Lemma num_le_ceil (c : number) : c <> NaN -> num_le c (Math_ceil c) = true.
Proof.
  destruct c as [|s|q]; [congruence| |]; intros _.
  - unfold num_le. simpl. destruct s; reflexivity.
  - cbn [Math_ceil]. unfold num. apply num_le_fin. apply Qle_ceiling.
Qed.

Lemma num_lt_asym (a b : number) : num_lt a b = true -> num_lt b a = false.
Proof.
  destruct a as [|s|p], b as [|t|q]; simpl; try congruence.
  - destruct s, t; simpl; congruence.
  - destruct s; simpl; congruence.
  - destruct t; simpl; congruence.
  - rewrite <- (Qcompare_antisym p q). destruct (p ?= q)%Q; simpl; congruence.
Qed.

Lemma num_lt_neq (a b : number) : num_lt a b = true -> num_eq a b = false.
Proof.
  destruct a as [|s|p], b as [|t|q]; simpl; try congruence.
  - destruct s, t; simpl; congruence.
  - intros H. apply not_true_iff_false. intros E.
    apply Qeq_bool_iff in E. apply Qeq_alt in E. rewrite E in H. discriminate H.
Qed.

Lemma ceil_lt_lt (c max : number) :
  num_lt (Math_ceil c) max = true -> num_lt c max = true.
Proof.
  intros H. apply num_le_lt_trans with (Math_ceil c); [|exact H].
  apply num_le_ceil. intros ->. discriminate H.
Qed.

Section SearchBelow.
Variable compute : number -> result number.
Variable max : number.
Hypothesis below : forall size,
  exists c, compute size = Ok c /\ num_lt (Math_ceil c) max = true.

Lemma increase_below (fuel : nat) : forall size cur,
  num_lt cur max = true -> increase compute max fuel size cur = Diverges.
Proof.
  induction fuel as [|fuel IH]; intros size cur H; cbn [increase]; rewrite H;
    [reflexivity|].
  destruct (below (num_add size (num 1))) as (c & -> & Hc).
  apply ceil_lt_lt in Hc. cbn [lift rbind]. unfold num_gt.
  rewrite (num_lt_asym _ _ Hc). now apply IH.
Qed.

Lemma search_below (fuel : nat) : search compute max fuel = Diverges.
Proof.
  unfold search.
  destruct (below (Math_floor (num_div max (num 2)))) as (c0 & -> & _).
  cbn [lift rbind].
  destruct (below (Math_floor
              (num_mul (num_div (Math_floor (num_div max (num 2))) c0) max)))
    as (c1 & -> & Hc1).
  cbn [lift rbind]. rewrite (num_lt_neq _ _ Hc1).
  apply ceil_lt_lt in Hc1.
  assert (G : num_gt c1 max = false) by (unfold num_gt; now apply num_lt_asym).
  rewrite decrease_noop by (now rewrite G). cbn [rbind]. rewrite G. cbn [andb negb].
  now apply increase_below.
Qed.
End SearchBelow.

(** X12. When the width, rounded up, stays below the width to fill at every
    font size, the search of [maxFontSize] does not end: whatever the fuel,
    it is still running when the fuel is spent. *)
Theorem search_never_returns_below (compute : number -> result number)
    (max : number) (fuel : nat) :
  (forall size, exists c, compute size = Ok c /\ num_lt (Math_ceil c) max = true) ->
  search compute max fuel = Diverges.
Proof. intros H. now apply search_below. Qed.

Lemma search_never_returns_below_witness :
  search (fun _ => Ok (num 0)) (num 10) 1000 = Diverges.
Proof.
  apply (search_never_returns_below (fun _ => Ok (num 0)) (num 10) 1000).
  intros size. exists (num 0). split; reflexivity.
Defined.

(** X13. [maxFontSize] on an instance without element, with no text or an
    empty one and a positive width to fill, does not end: [width] is 0 at
    every font size, which never reaches the width to fill. *)
Theorem maxFontSize_empty_text_diverges (host : Host) (this : TextMetrics)
    (t : option jsstring) (options overwrites : option obj) (fuel : nat) :
  t = None \/ t = Some [] -> el this = None ->
  num_lt (num 0) (maxWidth this (parseArgs this t options overwrites)) = true ->
  maxFontSize host this fuel t options overwrites = Diverges.
Proof.
  intros Ht Hel Hm. unfold maxFontSize. rewrite search_below; [reflexivity|].
  intros size. exists (num 0). split; [|exact Hm].
  rewrite (parseArgs_empty this t options overwrites Ht Hel).
  unfold width. rewrite parseArgs_empty; [reflexivity|now right|exact Hel].
Qed.

Lemma maxFontSize_empty_text_diverges_witness :
  maxFontSize plainHost {| el := None; overwrites := []; style := fun _ => VUndefined |}
              1000 (Some []) (Some [("width"%string, VNum (num 100))]) (Some [])
  = Diverges.
Proof.
  apply (maxFontSize_empty_text_diverges plainHost
           {| el := None; overwrites := []; style := fun _ => VUndefined |}
           (Some []) (Some [("width"%string, VNum (num 100))]) (Some []) 1000).
  - right. reflexivity.
  - reflexivity.
  - vm_compute. reflexivity.
Defined.

Section SearchTermination.
Variable f : number -> number.
Variable max : number.

Let compute (size : number) : result number := Ok (f size).

(** The decreasing walk ends within [size] steps, at a natural size that is
    not greater. *)
Lemma decrease_ends (fuel : nat) : forall (z : Z) (cur : number),
  0 <= z -> (Z.to_nat z <= fuel)%nat ->
  exists z' cur',
    decrease compute max fuel (num z) cur = Returns (num z', cur')
    /\ 0 <= z' <= z.
Proof.
  induction fuel as [|fuel IH]; intros z cur Hz Hf; cbn [decrease];
    destruct (num_gt cur max && num_gt (num z) (num 0)) eqn:E;
    try (exists z, cur; split; [reflexivity|lia]).
  - apply andb_true_iff in E as [_ E]. unfold num_gt in E.
    apply num_lt_int in E. lia.
  - apply andb_true_iff in E as [_ E]. unfold num_gt in E.
    apply num_lt_int in E. cbn [compute lift rbind]. rewrite num_sub_int.
    destruct (IH (z - 1) (f (num (z - 1)))) as (z' & cur' & H & Hz'); [lia|lia|].
    exists z', cur'. split; [exact H|lia].
Qed.

Lemma sizeOrUndefined_natural (z : Z) (size : number) :
  sizeOrUndefined (num z) = Some size -> z <> 0 /\ size = num z.
Proof.
  intros H. apply sizeOrUndefined_some in H as [-> H].
  split; [now apply num_truthy_int|reflexivity].
Qed.

(** The increasing walk ends at the latest at a size whose width is not
    below the width to fill, and the size it returns is not beyond it. *)
Lemma increase_ends (fuel : nat) : forall (z b : Z),
  z <= b -> num_lt (f (num b)) max = false -> (Z.to_nat (b - z) <= fuel)%nat ->
  exists r,
    increase compute max fuel (num z) (f (num z)) = Returns r
    /\ forall size, r = Some size ->
         exists z', z <= z' <= b /\ z' <> 0 /\ size = num z'.
Proof.
  assert (Hstay : forall z b size, z <= b ->
            sizeOrUndefined (num z) = Some size ->
            exists z', z <= z' <= b /\ z' <> 0 /\ size = num z').
  { intros z b size Hzb H. apply sizeOrUndefined_natural in H as [H1 H2].
    exists z. repeat split; try assumption; lia. }
  induction fuel as [|fuel IH]; intros z b Hzb Hb Hf; cbn [increase];
    destruct (num_lt (f (num z)) max) eqn:E;
    try (eexists; split; [reflexivity|intros size; now apply Hstay]).
  - assert (z = b) by lia. subst z. congruence.
  - assert (z <> b) by (intros ->; congruence).
    cbn [compute lift rbind]. rewrite num_add_int.
    destruct (num_gt (f (num (z + 1))) max).
    + eexists; split; [reflexivity|intros size; now apply Hstay].
    + destruct (IH (z + 1) b) as (r & H1 & H2); [lia|exact Hb|lia|].
      exists r. split; [exact H1|]. intros size Hr.
      destruct (H2 size Hr) as (z' & Hz' & Hne & Hs).
      exists z'. repeat split; try assumption; lia.
Qed.
End SearchTermination.

Lemma seed_bounds (m : Z) :
  2 <= m ->
  exists z, 1 <= z <= m /\ Math_floor (num_div (num m) (num 2)) = num z.
Proof.
  intros Hm. cbn [num_div num]. change (q_zero (inject_Z 2)) with false. cbv iota.
  cbn [Math_floor]. eexists; split; [|reflexivity]. split.
  - apply (Qfloor_resp_le 1). rewrite Qred_correct.
    apply Qle_shift_div_l; [reflexivity|].
    change (1 * inject_Z 2)%Q with (inject_Z 2). now rewrite <- Zle_Qle.
  - rewrite <- (Qfloor_Z m) at 2. apply Qfloor_resp_le. rewrite Qred_correct.
    apply Qle_shift_div_r; [reflexivity|].
    rewrite <- inject_Z_mult, <- Zle_Qle. lia.
Qed.

Lemma inject_Z_nonneg (z : Z) : 0 <= z -> (0 <= inject_Z z)%Q.
Proof. intros H. change 0%Q with (inject_Z 0). now rewrite <- Zle_Qle. Qed.

(** The estimate of the search, for a width of at least 1 at the seed: a
    natural number that is at most the seed times the width to fill. *)
Lemma estimate_bounds (z0 m : Z) (q : Q) :
  0 <= z0 -> 0 <= m -> (1 <= q)%Q ->
  exists z1, 0 <= z1 <= z0 * m
             /\ Math_floor (num_mul (num_div (num z0) (Fin q)) (num m)) = num z1.
Proof.
  intros Hz Hm Hq.
  assert (Hq0 : (0 < q)%Q) by (apply Qlt_le_trans with 1%Q; [reflexivity|exact Hq]).
  unfold num at 1. cbn [num_div].
  replace (q_zero q) with false.
  2:{ symmetry. unfold q_zero. apply Z.eqb_neq. unfold Qlt in Hq0. simpl in Hq0. lia. }
  unfold num at 1. cbn [num_mul Math_floor]. eexists; split; [|reflexivity].
  assert (Hdiv0 : (0 <= inject_Z z0 / q)%Q).
  { apply Qle_shift_div_l; [exact Hq0|]. rewrite Qmult_0_l. now apply inject_Z_nonneg. }
  assert (Hdiv : (inject_Z z0 / q <= inject_Z z0)%Q).
  { apply Qle_shift_div_r; [exact Hq0|].
    rewrite <- (Qmult_1_r (inject_Z z0)) at 1.
    rewrite (Qmult_comm (inject_Z z0) 1), (Qmult_comm (inject_Z z0) q).
    apply Qmult_le_compat_r; [exact Hq|now apply inject_Z_nonneg]. }
  split.
  - apply Qfloor_nonneg. rewrite Qred_correct, Qred_correct.
    apply Qmult_le_0_compat; [exact Hdiv0|now apply inject_Z_nonneg].
  - rewrite <- (Qfloor_Z (z0 * m)). apply Qfloor_resp_le.
    rewrite Qred_correct, Qred_correct, inject_Z_mult.
    apply Qmult_le_compat_r; [exact Hdiv|now apply inject_Z_nonneg].
Qed.

(** X14. For a width to fill from 2 up to 2^26 and a text whose width is
    finite and at least 1 at every size from 1 on and, from every size below
    2^53 on, reaches the width to fill at a size below 2^53, the search of
    [maxFontSize] ends: with enough fuel for its loops it returns, and a
    size it returns is a natural number below 2^53, where the steps of one
    are exact.  So do its two loops from every size below 2^53, whatever the
    estimate is. *)
Theorem search_returns (f : number -> number) (m : Z) :
  2 <= m < 2 ^ 26 -> atLeastOne f -> reachesSafely f m ->
  (exists fuel0, forall fuel, (fuel0 <= fuel)%nat ->
     exists r,
       search (fun s => Ok (f s)) (num m) fuel = Returns r
       /\ forall size, r = Some size -> exists z, 0 < z < 2 ^ 53 /\ size = num z)
  /\ (forall z cur, safeSize z ->
      exists fuel0, forall fuel, (fuel0 <= fuel)%nat ->
        (exists z' cur',
            decrease (fun s => Ok (f s)) (num m) fuel (num z) cur
            = Returns (num z', cur')
            /\ 0 <= z' <= z)
        /\ (exists r,
              increase (fun s => Ok (f s)) (num m) fuel (num z) (f (num z))
              = Returns r
              /\ forall size, r = Some size ->
                   exists z', z <= z' < 2 ^ 53 /\ size = num z')).
Proof.
  intros Hm Hp Hr. split.
  - destruct (seed_bounds m) as (z0 & Hz0 & Hs0); [lia|].
    destruct (Hp z0) as (q & Hq & Hq1); [lia|].
    destruct (estimate_bounds z0 m q) as (z1 & Hz1 & Hs1); [lia|lia|exact Hq1|].
    assert (Hsafe : safeSize z1).
    { unfold safeSize. split; [lia|].
      apply Z.le_lt_trans with (z0 * m); [lia|].
      apply Z.le_lt_trans with (2 ^ 26 * 2 ^ 26); [|reflexivity].
      apply Z.mul_le_mono_nonneg; lia. }
    destruct (Hr z1 Hsafe) as (b & Hb & Hbs & Hfb).
    exists (Nat.max (Z.to_nat z1) (Z.to_nat (b - z1))). intros fuel Hfuel.
    unfold search. cbv beta. cbn [lift rbind]. rewrite Hs0, Hq, Hs1.
    assert (Hsize : forall z size, 0 <= z < 2 ^ 53 ->
              sizeOrUndefined (num z) = Some size ->
              exists z', 0 < z' < 2 ^ 53 /\ size = num z').
    { intros z size Hz H. apply sizeOrUndefined_natural in H as [H1 H2].
      exists z. split; [lia|exact H2]. }
    destruct (num_eq (Math_ceil (f (num z1))) (num m)).
    { eexists; split; [reflexivity|]. intros size. now apply Hsize. }
    destruct (num_gt (f (num z1)) (num m) && num_gt (num z1) (num 0)) eqn:G.
    + destruct (decrease_ends f (num m) fuel z1 (f (num z1)))
        as (z' & c & -> & Hz'); [lia|lia|].
      cbn [rbind negb]. eexists; split; [reflexivity|].
      intros size. apply Hsize. unfold safeSize in Hsafe. lia.
    + rewrite decrease_noop by exact G. cbn [rbind negb].
      destruct (increase_ends f (num m) fuel z1 b Hb Hfb) as (r & H1 & H2); [lia|].
      exists r. split; [exact H1|]. intros size Hs.
      destruct (H2 size Hs) as (z' & Hz' & Hne & Hsz).
      exists z'. split; [|exact Hsz]. unfold safeSize in Hbs. lia.
  - intros z cur Hz. destruct (Hr z Hz) as (b & Hb & Hbs & Hfb).
    exists (Nat.max (Z.to_nat z) (Z.to_nat (b - z))). intros fuel Hfuel. split.
    + apply decrease_ends; [apply Hz|lia].
    + destruct (increase_ends f (num m) fuel z b Hb Hfb) as (r & H1 & H2); [lia|].
      exists r. split; [exact H1|]. intros size Hs.
      destruct (H2 size Hs) as (z' & Hz' & Hne & Hsz).
      exists z'. split; [|exact Hsz]. unfold safeSize in Hbs. lia.
Qed.

Lemma quarterWidth_atLeastOne : atLeastOne quarterWidth.
Proof.
  intros z Hz. unfold quarterWidth, num. cbn [num_div].
  change (q_zero (inject_Z 4)) with false. cbv iota. cbn [Math_ceil].
  eexists; split; [reflexivity|].
  change 1%Q with (inject_Z 1). rewrite <- Zle_Qle.
  apply Z.le_trans with (Qceiling (1 # 4)); [discriminate|].
  apply Qceiling_resp_le. rewrite Qred_correct.
  apply Qle_shift_div_l; [reflexivity|].
  assert (E : ((1 # 4) * inject_Z 4 == inject_Z 1)%Q) by reflexivity.
  rewrite E. now rewrite <- Zle_Qle.
Qed.

Lemma quarterWidth_reachesSafely (m : Z) :
  4 * m < 2 ^ 53 -> reachesSafely quarterWidth m.
Proof.
  intros Hm z Hz. unfold safeSize in *. exists (Z.max z (4 * m)).
  split; [lia|]. split; [lia|].
  unfold quarterWidth. cbn [num_div num].
  change (q_zero (inject_Z 4)) with false. cbv iota. cbn [Math_ceil].
  apply num_lt_fin_false. rewrite <- Zle_Qle.
  apply Z.le_trans with (Qceiling (inject_Z m)); [rewrite Qceiling_Z; lia|].
  apply Qceiling_resp_le. rewrite Qred_correct.
  apply Qle_shift_div_l; [reflexivity|].
  rewrite <- inject_Z_mult, <- Zle_Qle. lia.
Qed.

Lemma search_returns_witness :
  exists fuel0, forall fuel, (fuel0 <= fuel)%nat ->
    exists r,
      search (fun s => Ok (quarterWidth s)) (num 4) fuel = Returns r
      /\ forall size, r = Some size -> exists z, 0 < z < 2 ^ 53 /\ size = num z.
Proof.
  apply (search_returns quarterWidth 4).
  - lia.
  - exact quarterWidth_atLeastOne.
  - apply (quarterWidth_reachesSafely 4). reflexivity.
Defined.

(** ** The break-all policy: the lines it puts out *)

Lemma checkBreak_SHY (chr : jsstring) :
  checkBreak chr = Some tSHY -> chr = [0x00AD%N].
Proof.
  intros H. apply checkBreak_has in H. apply has_In in H.
  destruct H as [<-|[]]. reflexivity.
Qed.

Lemma nonempty_line (line : jsstring) :
  match line with [] => false | _ => true end = true -> line <> [].
Proof. now destruct line. Qed.

Lemma breakAllStep_move (parameters : ComputeLinesParams)
    (addSpacing : jsstring -> number) (lines : list jsstring) (line chr : jsstring)
    (index : nat) :
  exists lines' line' index',
    breakAllStep parameters addSpacing (lines, line, index) chr = (lines', line', index')
    /\ breakAllMove parameters addSpacing lines line chr lines' line'.
Proof.
  unfold breakAllStep.
  destruct (checkBreak chr) as [ty|] eqn:E.
  - destruct ty;
      try (do 3 eexists; split; [reflexivity|apply moveBreak; now left]);
      (destruct (has BAI chr && _) eqn:S;
       [do 3 eexists; split; [reflexivity|apply moveSkip]|]);
      (destruct (num_gt _ _ && _) eqn:G;
       [apply andb_true_iff in G as [_ G]; apply nonempty_line in G;
        do 3 eexists; split; [reflexivity|]|]).
    + apply moveNext; [exact G|]. intros ty H. rewrite E in H. injection H as <-. now left.
    + destruct (negb (str_eqb chr [0x00AD%N])) eqn:N;
        [|do 3 eexists; split; [reflexivity|apply moveSkip]].
      do 3 eexists; split; [reflexivity|]. apply moveAdd.
      * intros ->. discriminate E.
      * congruence.
      * destruct line as [|c line]; [left|right].
        -- split; [reflexivity|]. now rewrite andb_true_r in S.
        -- split; [discriminate|]. now rewrite andb_true_r in G.
    + apply moveBreak. now right.
    + destruct (negb (str_eqb chr [0x00AD%N])) eqn:N;
        [|do 3 eexists; split; [reflexivity|apply moveSkip]].
      do 3 eexists; split; [reflexivity|]. apply moveAdd.
      * intros ->. discriminate E.
      * congruence.
      * destruct line as [|c line]; [left|right].
        -- split; [reflexivity|]. now rewrite andb_true_r in S.
        -- split; [discriminate|]. now rewrite andb_true_r in G.
    + now apply moveHyphen.
    + destruct (negb (str_eqb chr [0x00AD%N])) eqn:N;
        [|do 3 eexists; split; [reflexivity|apply moveSkip]].
      apply checkBreak_SHY in E. subst chr. discriminate N.
    + now apply moveAfter.
    + destruct (negb (str_eqb chr [0x00AD%N])) eqn:N;
        [|do 3 eexists; split; [reflexivity|apply moveSkip]].
      do 3 eexists; split; [reflexivity|]. apply moveAdd.
      * intros ->. discriminate E.
      * congruence.
      * destruct line as [|c line]; [left|right].
        -- split; [reflexivity|]. now rewrite andb_true_r in S.
        -- split; [discriminate|]. now rewrite andb_true_r in G.
    + apply moveNext; [exact G|]. intros ty H. rewrite E in H. injection H as <-. now right.
    + destruct (negb (str_eqb chr [0x00AD%N])) eqn:N;
        [|do 3 eexists; split; [reflexivity|apply moveSkip]].
      do 3 eexists; split; [reflexivity|]. apply moveAdd.
      * intros ->. discriminate E.
      * congruence.
      * destruct line as [|c line]; [left|right].
        -- split; [reflexivity|]. now rewrite andb_true_r in S.
        -- split; [discriminate|]. now rewrite andb_true_r in G.
  - destruct (has BAI chr && _) eqn:S;
      [do 3 eexists; split; [reflexivity|apply moveSkip]|].
    destruct (num_gt _ _ && _) eqn:G.
    + apply andb_true_iff in G as [_ G]. apply nonempty_line in G.
      do 3 eexists; split; [reflexivity|].
      apply moveNext; [exact G|]. intros ty H. rewrite E in H. discriminate H.
    + destruct (negb (str_eqb chr [0x00AD%N])) eqn:N;
        [|do 3 eexists; split; [reflexivity|apply moveSkip]].
      do 3 eexists; split; [reflexivity|]. apply moveAdd.
      * intros ->. discriminate E.
      * congruence.
      * destruct line as [|c line]; [left|right].
        -- split; [reflexivity|]. now rewrite andb_true_r in S.
        -- split; [discriminate|]. now rewrite andb_true_r in G.
Qed.


(** An invariant of the lines and of the line, kept by every move, holds
    of the lines that the break-all policy returns. *)
Lemma breakAll_fold_inv (parameters : ComputeLinesParams)
    (addSpacing : jsstring -> number) (C P Q : jsstring -> Prop) :
  (forall lines line chr lines' line',
      C chr -> Forall P lines -> Q line ->
      breakAllMove parameters addSpacing lines line chr lines' line' ->
      Forall P lines' /\ Q line') ->
  forall cps, Forall C cps ->
  forall lines line index lines' line' index',
    Forall P lines -> Q line ->
    fold_left (breakAllStep parameters addSpacing) cps (lines, line, index)
    = (lines', line', index') ->
    Forall P lines' /\ Q line'.
Proof.
  intros Hstep cps Hcps.
  induction Hcps as [|chr cps Hchr _ IH];
    intros lines line index lines' line' index' HP HQ H; cbn [fold_left] in H.
  - injection H as <- <- <-. now split.
  - destruct (breakAllStep_move parameters addSpacing lines line chr index)
      as (l1 & n1 & i1 & E & Hm).
    rewrite E in H. destruct (Hstep _ _ _ _ _ Hchr HP HQ Hm) as [HP1 HQ1].
    exact (IH _ _ _ _ _ _ HP1 HQ1 H).
Qed.

Lemma breakAll_lines_inv (parameters : ComputeLinesParams)
    (addSpacing : jsstring -> number) (P Q : jsstring -> Prop) (t : jsstring)
    (lines : list jsstring) :
  (forall lines line chr lines' line',
      isCodePoint chr -> In chr (codePoints t) -> Forall P lines -> Q line ->
      breakAllMove parameters addSpacing lines line chr lines' line' ->
      Forall P lines' /\ Q line') ->
  Q [] -> (forall line, Q line -> line <> [] -> P line) ->
  addWordAndLetterSpacing (wordSpacing parameters) (letterSpacing parameters)
  = Ok addSpacing ->
  text parameters = Some t ->
  computeLinesBreakAll parameters = Ok lines -> Forall P lines.
Proof.
  intros Hstep Hnil HQP Hs Ht H. unfold computeLinesBreakAll in H.
  rewrite Ht, Hs in H. cbn [bind] in H.
  destruct t as [|c t]; [injection H as <-; constructor|].
  destruct (fold_left _ _ _) as [[lines' line'] index'] eqn:E.
  injection H as <-.
  apply (breakAll_fold_inv parameters addSpacing
           (fun chr => isCodePoint chr /\ In chr (codePoints (c :: t))) P Q) in E;
    [|intros ls l chr ls' l' [H1 H2]; now apply Hstep| |constructor|exact Hnil].
  2:{ apply Forall_forall. intros chr Hin. split; [|exact Hin].
      pose proof (proj1 (codePoints_shape (c :: t))) as Hcp.
      rewrite Forall_forall in Hcp. now apply Hcp. }
  destruct E as [HP HQ]. unfold flush. cbn [fst snd].
  destruct line'; [exact HP|]. apply Forall_app. split; [exact HP|].
  constructor; [apply HQP; [exact HQ|discriminate]|constructor].
Qed.

Lemma Forall_push {A : Type} (P : A -> Prop) (l : list A) (a : A) :
  Forall P l -> P a -> Forall P (l ++ [a]).
Proof. intros Hl Ha. apply Forall_app. split; [exact Hl|now constructor]. Qed.

(** X15. Every line that the break-all policy returns is a line that is
    empty, one character, or not over the width to fill (its width, rounded
    up, is not greater); as it is, or closed with the hyphen of a soft hyphen
    or with a BA character.  Only the line before the hyphen or character
    that closes it is known to be within the width. *)
Theorem computeLinesBreakAll_line_shapes (parameters : ComputeLinesParams)
    (t : jsstring) (lines : list jsstring) :
  text parameters = Some t ->
  computeLinesBreakAll parameters = Ok lines ->
  exists addSpacing,
    addWordAndLetterSpacing (wordSpacing parameters) (letterSpacing parameters)
    = Ok addSpacing
    /\ Forall (breakAllShape parameters addSpacing) lines.
Proof.
  intros Ht H.
  destruct (addWordAndLetterSpacing (wordSpacing parameters) (letterSpacing parameters))
    as [addSpacing|message] eqn:Es.
  2:{ unfold computeLinesBreakAll in H. rewrite Es in H. discriminate H. }
  exists addSpacing. split; [reflexivity|].
  apply (breakAll_lines_inv parameters addSpacing (breakAllShape parameters addSpacing)
           (filling parameters addSpacing) t lines); try assumption.
  - intros ls line chr ls' line' Hchr _ HP HQ Hm.
    destruct Hm as [|_|Hne|Hne Hba|Hne Hty|Hshy Hbk Hfit].
    + now split.
    + split; [|now left]. apply Forall_push; [exact HP|].
      exists line. split; [exact HQ|now left].
    + split; [|now left]. apply Forall_push; [exact HP|].
      exists line. split; [exact HQ|right; now left].
    + split; [|now left]. apply Forall_push; [exact HP|].
      exists line. split; [exact HQ|]. right. right. now exists chr.
    + split; [|right; now left]. apply Forall_push; [exact HP|].
      exists line. split; [exact HQ|now left].
    + split; [exact HP|]. destruct Hfit as [[-> _]|[_ Hfit]].
      * right. now left.
      * right. now right.
  - now left.
  - intros line HQ _. exists line. split; [exact HQ|now left].
Qed.

Lemma computeLinesBreakAll_line_shapes_witness :
  exists addSpacing,
    addWordAndLetterSpacing None None = Ok addSpacing
    /\ Forall (breakAllShape (plainParams 1 (js "abcdefg") 3) addSpacing)
              [js "abc"; js "def"; js "g"].
Proof.
  apply (computeLinesBreakAll_line_shapes (plainParams 1 (js "abcdefg") 3)
           (js "abcdefg") [js "abc"; js "def"; js "g"]).
  - reflexivity.
  - vm_compute. reflexivity.
Defined.

Lemma codePoint_units (chr : jsstring) :
  isCodePoint chr -> checkBreak chr <> Some tBK -> chr <> [0x00AD%N] ->
  ~ In 0x000A%N chr /\ ~ In 0x00AD%N chr.
Proof.
  intros [[c ->]|(c & d & -> & Hc & Hd)] Hbk Hshy.
  - split; (intros [E|[]]; subst c); [now apply Hbk|now apply Hshy].
  - split; (intros [E|[E|[]]]; subst); discriminate.
Qed.

Lemma codePoint_head (chr : jsstring) :
  isCodePoint chr -> has BAI chr = false ->
  forall c l', chr = c :: l' -> has BAI [c] = false.
Proof.
  intros [[c ->]|(c & d & -> & Hc & Hd)] Hbai c' l' E; injection E as <- <-.
  - exact Hbai.
  - destruct (has BAI [c]) eqn:Eb; [|reflexivity].
    apply has_In in Eb. unfold BAI in Eb. cbn [List.map In] in Eb.
    repeat (destruct Eb as [Eb|Eb]; [injection Eb as <-; discriminate Hc|]).
    destruct Eb.
Qed.

Lemma tidy_nil : tidy [].
Proof.
  unfold tidy. split; [intros []|]. split; [intros []|].
  intros c l' E. discriminate E.
Qed.

Lemma tidy_app (line x : jsstring) :
  tidy line -> line <> [] -> ~ In 0x000A%N x -> ~ In 0x00AD%N x -> tidy (line ++ x).
Proof.
  intros (H1 & H2 & H3) Hne Hx1 Hx2. unfold tidy. split; [|split].
  - intros H. apply in_app_or in H as [H|H]; auto.
  - intros H. apply in_app_or in H as [H|H]; auto.
  - intros c l' E. destruct line as [|c0 line]; [now destruct Hne|].
    injection E as <- <-. now apply (H3 c0 line).
Qed.

Lemma tidy_codePoint (chr : jsstring) :
  isCodePoint chr -> checkBreak chr <> Some tBK -> chr <> [0x00AD%N] ->
  has BAI chr = false -> tidy chr.
Proof.
  intros Hchr Hbk Hshy Hbai.
  destruct (codePoint_units chr Hchr Hbk Hshy) as [H1 H2].
  unfold tidy. split; [exact H1|]. split; [exact H2|]. now apply codePoint_head.
Qed.

(** X16. No line that the break-all policy returns holds a newline or a
    soft hyphen, and none starts with collapsible white space. *)
Theorem computeLinesBreakAll_tidy (parameters : ComputeLinesParams)
    (t : jsstring) (lines : list jsstring) :
  text parameters = Some t ->
  computeLinesBreakAll parameters = Ok lines -> Forall tidy lines.
Proof.
  intros Ht H.
  destruct (addWordAndLetterSpacing (wordSpacing parameters) (letterSpacing parameters))
    as [addSpacing|message] eqn:Es.
  2:{ unfold computeLinesBreakAll in H. rewrite Es in H. discriminate H. }
  apply (breakAll_lines_inv parameters addSpacing tidy tidy t lines);
    try assumption; [|apply tidy_nil|auto].
  intros ls line chr ls' line' Hchr _ HP HQ Hm.
  destruct Hm as [|_|Hne|Hne Hba|Hne Hty|Hshy Hbk Hfit].
  - now split.
  - split; [|apply tidy_nil]. now apply Forall_push.
  - split; [|apply tidy_nil]. apply Forall_push; [exact HP|].
    apply tidy_app; try assumption; intros [E|[]]; discriminate E.
  - split; [|apply tidy_nil]. apply Forall_push; [exact HP|].
    destruct (codePoint_units chr Hchr) as [H1 H2]; [congruence| |].
    { intros ->. discriminate Hba. }
    now apply tidy_app.
  - split; [now apply Forall_push|].
    apply tidy_codePoint; [exact Hchr| | |].
    + intros E. destruct (Hty _ E); discriminate.
    + intros ->. destruct (Hty tSHY eq_refl); discriminate.
    + destruct (has BAI chr) eqn:Eb; [|reflexivity].
      apply (checkBreak_some_iff chr tBAI) in Eb.
      destruct (Hty _ Eb); discriminate.
  - split; [exact HP|]. destruct Hfit as [[-> Hbai]|[Hne _]].
    + now apply tidy_codePoint.
    + destruct (codePoint_units chr Hchr Hbk Hshy) as [H1 H2]. now apply tidy_app.
Qed.

Lemma computeLinesBreakAll_tidy_witness :
  Forall tidy [js "ab -"; []; js "cd"].
Proof.
  apply (computeLinesBreakAll_tidy
           (plainParams 1 ([32; 97; 98; 32; 173; 10; 32; 99; 100]%N) 3)
           ([32; 97; 98; 32; 173; 10; 32; 99; 100]%N) [js "ab -"; []; js "cd"]).
  - reflexivity.
  - vm_compute. reflexivity.
Defined.

(** ** The default policy: a text without break characters *)

Lemma scan_unclassified (cps : list jsstring) :
  Forall (fun chr => checkBreak chr = None) cps ->
  forall parts breakpoints part,
    fold_left scanStep cps (parts, breakpoints, part)
    = (parts, breakpoints, part ++ List.concat cps).
Proof.
  induction 1 as [|chr cps Hchr _ IH]; intros parts breakpoints part;
    cbn [fold_left List.concat].
  - now rewrite app_nil_r.
  - unfold scanStep at 2. rewrite Hchr, IH. now rewrite app_assoc.
Qed.

(** X17. The default policy never splits a text that holds no break
    character: whatever the width to fill and the widths measured, the text
    is returned as one line. *)
Theorem computeLinesDefault_unbreakable (parameters : ComputeLinesParams)
    (t : jsstring) (addSpacing : jsstring -> number) :
  text parameters = Some t -> t <> [] ->
  Forall (fun chr => checkBreak chr = None) (codePoints t) ->
  addWordAndLetterSpacing (wordSpacing parameters) (letterSpacing parameters)
  = Ok addSpacing ->
  computeLinesDefault parameters = Ok [t].
Proof.
  intros Ht Hne Hcps Hs. unfold computeLinesDefault. rewrite Hs, Ht. cbn [bind].
  destruct t as [|c t]; [now destruct Hne|].
  unfold scanParts. rewrite (scan_unclassified _ Hcps).
  rewrite (proj1 (codePoints_concat (c :: t))). cbn [app].
  reflexivity.
Qed.

Lemma computeLinesDefault_unbreakable_witness :
  computeLinesDefault (plainParams 1 (js "unbreakable") 3) = Ok [js "unbreakable"].
Proof.
  apply (computeLinesDefault_unbreakable (plainParams 1 (js "unbreakable") 3)
           (js "unbreakable") (spacingOf (num 0) (num 0))).
  - reflexivity.
  - discriminate.
  - vm_compute. repeat constructor.
  - reflexivity.
Defined.

(** ** Lengths written as a natural number and a unit *)

Lemma uint_units_digits (u : Decimal.uint) : allDigits (uint_units u).
Proof. induction u; constructor; auto. Qed.

Lemma digitsValue_acc (u : Decimal.uint) : forall acc : positive,
  fold_left (fun acc d => 10 * acc + (Z.of_N d - 48)) (uint_units u) (Zpos acc)
  = Zpos (Pos.of_uint_acc u acc).
Proof.
  induction u; intros acc; cbn [uint_units fold_left Pos.of_uint_acc];
    try reflexivity;
    match goal with
    | |- fold_left _ _ ?z = Zpos (Pos.of_uint_acc _ ?p) =>
        replace z with (Zpos p) by lia; apply IHu
    end.
Qed.

Lemma digitsValue_of_uint (u : Decimal.uint) :
  digitsValue (uint_units u) = Z.of_N (Pos.of_uint u).
Proof.
  unfold digitsValue.
  induction u; cbn [uint_units fold_left Pos.of_uint]; try reflexivity;
    try exact IHu;
    match goal with
    | |- fold_left _ _ ?z = Z.of_N (Npos (Pos.of_uint_acc _ ?p)) =>
        replace z with (Zpos p) by lia; apply digitsValue_acc
    end.
Qed.

Lemma digitsValue_natDigits (n : Z) : 0 <= n -> digitsValue (natDigits n) = n.
Proof.
  intros Hn. unfold natDigits. rewrite digitsValue_of_uint.
  change (Pos.of_uint (N.to_uint (Z.to_N n))) with (N.of_uint (N.to_uint (Z.to_N n))).
  rewrite DecimalN.Unsigned.of_to. now apply Z2N.id.
Qed.

Lemma natDigits_nonempty (n : Z) : natDigits n <> [].
Proof.
  unfold natDigits. intros H.
  pose proof (DecimalN.Unsigned.of_to (Z.to_N n)) as E.
  destruct (N.to_uint (Z.to_N n)) eqn:Eu; try discriminate H.
  cbn in E. rewrite <- E in Eu. discriminate Eu.
Qed.

Lemma spanDigits_app (ds r : jsstring) :
  allDigits ds ->
  match r with c :: _ => isDigit c = false | [] => True end ->
  spanDigits (ds ++ r) = (ds, r).
Proof.
  intros Hd Hr. induction Hd as [|d ds Hdig _ IH]; cbn [app].
  - destruct r as [|c r]; [reflexivity|]. cbn [spanDigits]. now rewrite Hr.
  - cbn [spanDigits]. now rewrite Hdig, IH.
Qed.

Lemma digit_range (d : N) : isDigit d = true -> (48 <= d <= 57)%N.
Proof.
  unfold isDigit. intros H. apply andb_true_iff in H as [H1 H2].
  apply N.leb_le in H1, H2. now split.
Qed.

Lemma digit_cases (d : N) :
  isDigit d = true ->
  (d = 48 \/ d = 49 \/ d = 50 \/ d = 51 \/ d = 52 \/ d = 53 \/ d = 54 \/ d = 55
   \/ d = 56 \/ d = 57)%N.
Proof. intros H. apply digit_range in H. lia. Qed.

Lemma parseFloat_digit (d : N) (rest : jsstring) :
  isDigit d = true ->
  parseFloat (d :: rest)
  = match unsignedLiteral (d :: rest) with Some v => v | None => NaN end.
Proof.
  intros H. apply digit_cases in H.
  repeat (destruct H as [->|H]; [reflexivity|]). subst d. reflexivity.
Qed.

Lemma startsWith_Infinity_digit (d : N) (rest : jsstring) :
  isDigit d = true -> startsWith (js "Infinity") (d :: rest) = false.
Proof.
  intros H. apply digit_cases in H.
  repeat (destruct H as [->|H]; [reflexivity|]). subst d. reflexivity.
Qed.

Lemma unsignedLiteral_digits_unit (ds unit : jsstring) :
  ds <> [] -> allDigits ds -> In unit supportedUnits ->
  unsignedLiteral (ds ++ unit) = Some (num (digitsValue ds)).
Proof.
  intros Hne Hd Hu. unfold unsignedLiteral.
  assert (Hsp : spanDigits (ds ++ unit) = (ds, unit)).
  { apply spanDigits_app; [exact Hd|].
    destruct Hu as [<-|[<-|[<-|[<-|[]]]]]; reflexivity. }
  rewrite Hsp.
  destruct ds as [|d ds']; [now destruct Hne|].
  inversion Hd as [|? ? Hdig _]; subst.
  change ((d :: ds') ++ unit) with (d :: ds' ++ unit).
  rewrite (startsWith_Infinity_digit d (ds' ++ unit) Hdig).
  assert (E : forall x : Z, Fin (scale10 x (0 - 0)) = num x).
  { intros x. unfold scale10, num. cbn. now rewrite Z.mul_1_r. }
  destruct Hu as [<-|[<-|[<-|[<-|[]]]]];
    match goal with
    | |- context [js ?u] =>
        let v := eval vm_compute in (js u) in change (js u) with v
    end;
    cbv iota beta zeta; rewrite app_nil_r; apply (f_equal Some); apply E.
Qed.


Lemma dropZeros_repeat (r : jsstring) :
  r = repeat 48%N (List.length r - List.length (dropZeros r)) ++ dropZeros r
  /\ (List.length (dropZeros r) <= List.length r)%nat.
Proof.
  induction r as [|c r [IH1 IH2]].
  - now split.
  - assert (Hc : c = 48%N \/ dropZeros (c :: r) = c :: r).
    { destruct c as [|p]; [now right|].
      do 6 (destruct p as [p|p|]; try (now right)). now left. }
    destruct Hc as [-> | Hc].
    + cbn [dropZeros List.length]. split; [|lia].
      replace (S (List.length r) - List.length (dropZeros r))%nat
        with (S (List.length r - List.length (dropZeros r))) by lia.
      cbn [repeat app]. now rewrite <- IH1.
    + rewrite Hc. split; [|lia]. now rewrite Nat.sub_diag.
Qed.

Lemma rev_repeat {A : Type} (a : A) (k : nat) : rev (repeat a k) = repeat a k.
Proof.
  induction k as [|k IH]; [reflexivity|].
  cbn [repeat rev]. rewrite IH. symmetry. apply repeat_cons.
Qed.

(** Number::toString of a natural number of at most 21 digits: its decimal
    digits. *)
Lemma numberToString_natural (n : Z) :
  0 <= n -> (List.length (natDigits n) <= 21)%nat ->
  numberToString (num n) = natDigits n.
Proof.
  intros Hn Hlen. unfold numberToString, num, q_zero, q_neg. cbn [Qnum inject_Z].
  destruct (n =? 0) eqn:E0; [apply Z.eqb_eq in E0; now subst n|].
  replace (n <? 0) with false by (symmetry; apply Z.ltb_ge; exact Hn).
  unfold positiveToString. rewrite Qred_inject_Z. cbn [Qnum Qden inject_Z].
  change (Pos.size_nat 1) with 1%nat. cbn [fractionDigits].
  rewrite Z.mod_1_r, Z.div_1_r. cbn [Z.eqb].
  set (ds := natDigits n) in *.
  destruct (dropZeros_repeat (rev ds)) as [Hrep Hle].
  rewrite length_rev in Hrep, Hle.
  rewrite length_rev. cbn [Z.of_nat]. rewrite Z.sub_0_r.
  replace (Z.of_nat (List.length (dropZeros (rev ds))) <=? Z.of_nat (List.length ds))
    with true by (symmetry; apply Z.leb_le; lia).
  replace (Z.of_nat (List.length ds) <=? 21) with true
    by (symmetry; apply Z.leb_le; lia).
  cbn [andb].
  replace (Z.to_nat (Z.of_nat (List.length ds)
                     - Z.of_nat (List.length (dropZeros (rev ds)))))
    with (List.length ds - List.length (dropZeros (rev ds)))%nat by lia.
  apply (f_equal (@rev N)) in Hrep.
  rewrite rev_involutive, rev_app_distr, rev_repeat in Hrep. now symmetry.
Qed.

Lemma startsWith_prefix (pat r : jsstring) : startsWith pat (pat ++ r) = true.
Proof.
  induction pat as [|p pat IH]; [reflexivity|].
  cbn [app startsWith]. now rewrite N.eqb_refl, IH.
Qed.

Lemma replace_prefix (pat r : jsstring) : replace (pat ++ r) pat [] = r.
Proof.
  assert (H : replace (pat ++ r) pat []
              = [] ++ skipn (List.length pat) (pat ++ r)).
  { destruct (pat ++ r) eqn:E; cbn [replace]; rewrite <- E;
      now rewrite startsWith_prefix. }
  rewrite H. cbn [app]. rewrite skipn_app, Nat.sub_diag, skipn_all. reflexivity.
Qed.

Lemma parseFloat_natural (n : Z) (unit : jsstring) :
  0 <= n -> In unit supportedUnits -> parseFloat (natDigits n ++ unit) = num n.
Proof.
  intros Hn Hu.
  pose proof (natDigits_nonempty n) as Hne.
  pose proof (uint_units_digits (N.to_uint (Z.to_N n))) as Hd.
  fold (natDigits n) in Hd.
  pose proof (unsignedLiteral_digits_unit (natDigits n) unit Hne Hd Hu) as Hlit.
  rewrite (digitsValue_natDigits n Hn) in Hlit.
  destruct (natDigits n) as [|d ds]; [now destruct Hne|].
  inversion Hd as [|? ? Hdig _]; subst.
  change ((d :: ds) ++ unit) with (d :: ds ++ unit) in *.
  now rewrite (parseFloat_digit d (ds ++ unit) Hdig), Hlit.
Qed.

Lemma unitOf_natural (n : Z) (unit : jsstring) :
  0 <= n -> (List.length (natDigits n) <= 21)%nat -> In unit supportedUnits ->
  unitOf (natDigits n ++ unit) = unit.
Proof.
  intros Hn Hlen Hu. unfold unitOf.
  rewrite (parseFloat_natural n unit Hn Hu), (numberToString_natural n Hn Hlen).
  apply replace_prefix.
Qed.

Lemma unsignedLiteral_digits_tail (ds u : jsstring) :
  ds <> [] -> allDigits ds -> continuesNoNumeral u ->
  unsignedLiteral (ds ++ u) = Some (num (digitsValue ds)).
Proof.
  intros Hne Hd Hu. unfold unsignedLiteral.
  assert (Hsp : spanDigits (ds ++ u) = (ds, u)).
  { apply spanDigits_app; [exact Hd|]. destruct u as [|c r]; [exact I|apply Hu]. }
  rewrite Hsp.
  destruct ds as [|d ds']; [now destruct Hne|].
  inversion Hd as [|? ? Hdig _]; subst.
  change ((d :: ds') ++ u) with (d :: ds' ++ u).
  rewrite (startsWith_Infinity_digit d (ds' ++ u) Hdig).
  assert (E : forall x : Z, Fin (scale10 x (0 - 0)) = num x).
  { intros x. unfold scale10, num. cbn. now rewrite Z.mul_1_r. }
  destruct u as [|c r].
  - cbv iota beta zeta. rewrite app_nil_r. apply (f_equal Some). apply E.
  - destruct Hu as (_ & Hp & He1 & He2).
    assert (Hexp : exponentPart (c :: r) = 0).
    { unfold exponentPart.
      replace ((c =? 101) || (c =? 69))%N with false; [reflexivity|].
      symmetry. apply orb_false_iff. split; now apply N.eqb_neq. }
    destruct c as [|p]; [|do 6 (try destruct p as [p|p|])];
      cbv iota beta zeta; try (now destruct Hp);
      rewrite app_nil_r, Hexp; apply (f_equal Some); apply E.
Qed.

Lemma parseFloat_natural_tail (n : Z) (u : jsstring) :
  0 <= n -> continuesNoNumeral u -> parseFloat (natDigits n ++ u) = num n.
Proof.
  intros Hn Hu.
  pose proof (natDigits_nonempty n) as Hne.
  pose proof (uint_units_digits (N.to_uint (Z.to_N n))) as Hd.
  fold (natDigits n) in Hd.
  pose proof (unsignedLiteral_digits_tail (natDigits n) u Hne Hd Hu) as Hlit.
  rewrite (digitsValue_natDigits n Hn) in Hlit.
  destruct (natDigits n) as [|d ds]; [now destruct Hne|].
  inversion Hd as [|? ? Hdig _]; subst.
  change ((d :: ds) ++ u) with (d :: ds ++ u) in *.
  now rewrite (parseFloat_digit d (ds ++ u) Hdig), Hlit.
Qed.

Lemma unitOf_natural_tail (n : Z) (u : jsstring) :
  0 <= n -> (List.length (natDigits n) <= 21)%nat -> continuesNoNumeral u ->
  unitOf (natDigits n ++ u) = u.
Proof.
  intros Hn Hlen Hu. unfold unitOf.
  rewrite (parseFloat_natural_tail n u Hn Hu), (numberToString_natural n Hn Hlen).
  apply replace_prefix.
Qed.

Lemma parseInt_digit (v : jsval) (d : N) (rest : jsstring) :
  toString v = d :: rest -> isDigit d = true ->
  parseInt v = match fst (spanDigits (d :: rest)) with
               | [] => NaN
               | ds => num (digitsValue ds)
               end.
Proof.
  intros Hs H. unfold parseInt. rewrite Hs. apply digit_cases in H.
  repeat (destruct H as [->|H]; [reflexivity|]). subst d. reflexivity.
Qed.

(** [parseInt] of a natural number of at most 21 digits is that number. *)
Lemma parseInt_natural (b : Z) :
  0 <= b -> (List.length (natDigits b) <= 21)%nat -> parseInt (VNum (num b)) = num b.
Proof.
  intros Hb Hlen.
  pose proof (natDigits_nonempty b) as Hne.
  pose proof (uint_units_digits (N.to_uint (Z.to_N b))) as Hd.
  fold (natDigits b) in Hd.
  pose proof (digitsValue_natDigits b Hb) as Hv.
  pose proof (spanDigits_app (natDigits b) [] Hd I) as Hsp.
  rewrite app_nil_r in Hsp.
  assert (Hs : toString (VNum (num b)) = natDigits b)
    by (cbn [toString]; now apply numberToString_natural).
  destruct (natDigits b) as [|d ds]; [now destruct Hne|].
  assert (Hdig : isDigit d = true) by (now inversion Hd).
  rewrite (parseInt_digit _ d ds Hs Hdig), Hsp. cbn [fst]. now rewrite Hv.
Qed.

(** The base font size that [pxValue] reads: 16 without options, and the
    natural number that the options give. *)
Lemma baseFontSizeOf_natural (o : obj) (b : Z) :
  1 <= b -> (List.length (natDigits b) <= 21)%nat ->
  get o "base-font-size" = VNum (num b) ->
  baseFontSizeOf (Some o) = num b.
Proof.
  intros Hb Hlen Hg. unfold baseFontSizeOf, prop. rewrite Hg.
  replace (truthy (VNum (num b))) with true.
  - apply parseInt_natural; [lia|exact Hlen].
  - symmetry. cbn [truthy]. apply num_truthy_int. lia.
Qed.






(** ** The default policy: the lines it puts out are tidy *)

Lemma tidy_concat (a b : jsstring) : tidy a -> tidy b -> tidy (a ++ b).
Proof.
  intros (A1 & A2 & A3) (B1 & B2' & B3). unfold tidy. split; [|split].
  - intros H. apply in_app_or in H as [H|H]; auto.
  - intros H. apply in_app_or in H as [H|H]; auto.
  - intros c l' E. destruct a as [|c0 a]; cbn [app] in E.
    + now apply (B3 c l').
    + injection E as <- <-. now apply (A3 c0 a).
Qed.

Lemma tidy_unclassified (ch : jsstring) :
  isCodePoint ch -> checkBreak ch = None -> tidy ch.
Proof.
  intros Hcp Hc. apply tidy_codePoint; [exact Hcp|congruence| |].
  - intros ->. discriminate Hc.
  - apply (proj1 (checkBreak_none_iff ch) Hc tBAI).
Qed.

Lemma tidy_boundary (bp : Breakpoint) :
  isCodePoint (chr bp) -> checkBreak (chr bp) = Some (type bp) ->
  type bp <> tBK -> type bp <> tSHY -> type bp <> tBAI -> tidy (chr bp).
Proof.
  intros Hcp Hc Hbk Hshy Hbai. apply tidy_codePoint; [exact Hcp| | |].
  - congruence.
  - intros E. rewrite E in Hc. apply Hshy. injection Hc as <-. reflexivity.
  - destruct (has BAI (chr bp)) eqn:E; [|reflexivity].
    apply (checkBreak_some_iff (chr bp) tBAI) in E. congruence.
Qed.

Lemma tidy_after_boundary (line : jsstring) (bp : Breakpoint) :
  isCodePoint (chr bp) -> checkBreak (chr bp) = Some (type bp) ->
  type bp <> tBK -> type bp <> tSHY ->
  tidy line -> (type bp = tBAI -> line <> []) -> tidy (line ++ chr bp).
Proof.
  intros Hcp Hc Hbk Hshy Hline Hne.
  destruct line as [|c line].
  - cbn [app]. apply tidy_boundary; try assumption.
    intros E. now apply (Hne E).
  - destruct (codePoint_units (chr bp) Hcp) as [H1 H2]; [congruence| |].
    { intros E. rewrite E in Hc. apply Hshy. injection Hc as <-. reflexivity. }
    apply tidy_app; [exact Hline|discriminate|exact H1|exact H2].
Qed.

Lemma tidy_hyphen (line : jsstring) : tidy line -> tidy (line ++ js "-").
Proof.
  intros H. apply tidy_concat; [exact H|].
  unfold tidy. split; [|split].
  - intros [E|[]]. discriminate E.
  - intros [E|[]]. discriminate E.
  - intros c l' E. injection E as <- <-. reflexivity.
Qed.

Lemma nth_tidy (parts : list jsstring) (i : nat) :
  Forall tidy parts -> tidy (nth i parts []).
Proof.
  intros H. destruct (Nat.lt_ge_cases i (List.length parts)) as [Hi|Hi].
  - rewrite Forall_forall in H. apply H. now apply nth_In.
  - rewrite nth_overflow by exact Hi. apply tidy_nil.
Qed.

Lemma scanStep_tidy (ch : jsstring)
    (st : list jsstring * list Breakpoint * jsstring) :
  isCodePoint ch -> scanTidy st -> scanTidy (scanStep st ch).
Proof.
  destruct st as [[parts breakpoints] part].
  intros Hcp (Hlen & Hparts & Hpart & Hbps & Hbai). unfold scanStep.
  destruct (checkBreak ch) as [ty|] eqn:Ec.
  - assert (Hpush : (ty = tBAI -> part <> []) ->
                    scanTidy (parts ++ [part],
                              breakpoints ++ [{| chr := ch; type := ty |}], [])).
    { intros Hne. unfold scanTidy. repeat split.
      - rewrite !length_app. cbn [List.length]. lia.
      - now apply Forall_push.
      - intros [].
      - intros [].
      - intros c l' E. discriminate E.
      - apply Forall_push; [exact Hbps|]. now split.
      - intros j bp Hj Hty.
        destruct (Nat.lt_ge_cases j (List.length breakpoints)) as [Hlt|Hge].
        + rewrite nth_error_app1 in Hj by exact Hlt.
          rewrite app_nth1 by lia. now apply (Hbai j bp).
        + rewrite nth_error_app2 in Hj by exact Hge.
          destruct (j - List.length breakpoints)%nat as [|k] eqn:Ek.
          * cbn in Hj. injection Hj as <-. cbn [type] in Hty.
            assert (j = List.length parts) as -> by lia.
            rewrite app_nth2 by lia. rewrite Nat.sub_diag. cbn [nth].
            now apply Hne.
          * cbn in Hj. destruct k; discriminate Hj. }
    destruct part as [|c part].
    + destruct ty; try (apply Hpush; discriminate).
      unfold scanTidy. repeat split; try assumption; apply Hpart.
    + destruct ty; apply Hpush; discriminate.
  - unfold scanTidy. repeat split; try assumption; try apply Hpart.
    all: try (apply (tidy_concat part ch Hpart (tidy_unclassified ch Hcp Ec))).
Qed.

Lemma scan_tidy (cps : list jsstring) :
  Forall isCodePoint cps -> forall st,
  scanTidy st -> scanTidy (fold_left scanStep cps st).
Proof.
  induction 1 as [|ch cps Hch _ IH]; intros st Hst; cbn [fold_left]; [exact Hst|].
  apply IH. now apply scanStep_tidy.
Qed.

Section PackTidy.
Variable parameters : ComputeLinesParams.
Variable addSpacing : jsstring -> number.
Variable parts : list jsstring.
Variable breakpoints : list Breakpoint.
Hypothesis parts_tidy : Forall tidy parts.
Hypothesis breakpoints_typed :
  Forall (fun bp => isCodePoint (chr bp) /\ checkBreak (chr bp) = Some (type bp))
         breakpoints.
Hypothesis space_after_part : forall j bp,
  nth_error breakpoints j = Some bp -> type bp = tBAI -> nth j parts [] <> [].

Lemma packStep_tidy (i : nat) (st st' : list jsstring * jsstring) :
  packTidy parts i st ->
  packStep parameters addSpacing parts breakpoints i st = Ok st' ->
  packTidy parts (S i) st'.
Proof.
  destruct st as [lines line]. intros (Hlines & Hline & Hprev) H.
  cbn [fst snd] in *. unfold packStep in H.
  destruct i as [|j].
  { injection H as <-. unfold packTidy. cbn [fst snd]. repeat split.
    1-4: try exact Hlines; try apply (nth_tidy parts 0 parts_tidy).
    intros j Hj E. injection Hj as <-. exact E. }
  pose proof (nth_tidy parts (S j) parts_tidy) as Hpart.
  set (part := nth (S j) parts []) in *.
  assert (Hnext : forall l, packTidy parts (S (S j)) (l, part) <-> Forall tidy l).
  { intros l. unfold packTidy. cbn [fst snd]. split; [tauto|].
    intros Hl. split; [exact Hl|]. split; [exact Hpart|].
    intros k Hk E. injection Hk as <-. exact E. }
  assert (Hjoin : forall l x, Forall tidy l -> tidy (x ++ part) ->
                              (x ++ part = [] -> part = []) ->
                              packTidy parts (S (S j)) (l, x ++ part)).
  { intros l x Hl Hx He. unfold packTidy. cbn [fst snd].
    split; [exact Hl|]. split; [exact Hx|].
    intros k Hk E. injection Hk as <-. now apply He. }
  assert (Hnil : forall x : jsstring, x ++ part = [] -> part = []).
  { intros x E. now apply app_eq_nil in E. }
  destruct (has BAI (nth j parts []) && has BAI part) eqn:Eskip.
  { apply andb_true_iff in Eskip as [_ E]. exfalso.
    destruct (BAI_single _ E) as [c Hc]. rewrite Hc in E.
    destruct Hpart as (_ & _ & Hhead). rewrite (Hhead c [] Hc) in E. discriminate E. }
  destruct (nth_error breakpoints j) as [bp|] eqn:Ebp; [|discriminate H].
  pose proof (nth_error_In _ _ Ebp) as Hin.
  rewrite Forall_forall in breakpoints_typed.
  destruct (breakpoints_typed bp Hin) as [Hcp Hc].
  assert (Hline' : type bp = tBAI -> line <> []).
  { intros Hty E. apply (space_after_part j bp Ebp Hty). now apply (Hprev j). }
  destruct (type bp) eqn:Ety; cbn [BreakType_eqb] in H.
  - (* B2 *)
    assert (Hb : tidy (chr bp)).
    { apply tidy_boundary; try assumption; rewrite Ety; try assumption; discriminate. }
    destruct (num_le (Math_round _) _).
    { injection H as <-. rewrite app_assoc. apply Hjoin; [exact Hlines| |apply Hnil].
      rewrite <- app_assoc. now repeat apply tidy_concat. }
    destruct (num_le (rawWidth parameters addSpacing (line ++ chr bp)) _).
    { injection H as <-. apply Hnext. apply Forall_push; [exact Hlines|].
      now apply tidy_concat. }
    destruct (num_le (rawWidth parameters addSpacing (chr bp ++ part)) _).
    { injection H as <-. apply Hjoin; [now apply Forall_push| |apply Hnil].
      now apply tidy_concat. }
    injection H as <-. apply Hnext.
    change [line; chr bp] with ([line] ++ [chr bp]). rewrite app_assoc.
    apply Forall_push; [now apply Forall_push|exact Hb].
  - (* BAI *)
    destruct (num_le (Math_round _) _).
    { injection H as <-. rewrite app_assoc. apply Hjoin; [exact Hlines| |apply Hnil].
      apply tidy_concat; [|exact Hpart].
      apply tidy_after_boundary; try assumption;
        rewrite Ety; try assumption; discriminate. }
    injection H as <-. apply Hnext. now apply Forall_push.
  - (* SHY *)
    destruct (num_le (Math_round _) _).
    { injection H as <-. cbn [app]. apply Hjoin; [exact Hlines| |apply Hnil].
      now apply tidy_concat. }
    injection H as <-. apply Hnext. apply Forall_push; [exact Hlines|].
    now apply tidy_hyphen.
  - (* BA *)
    assert (Hb : tidy (chr bp)).
    { apply tidy_boundary; try assumption; rewrite Ety; try assumption; discriminate. }
    destruct (num_le (Math_round _) _).
    { injection H as <-. rewrite app_assoc. apply Hjoin; [exact Hlines| |apply Hnil].
      rewrite <- app_assoc. now repeat apply tidy_concat. }
    injection H as <-. apply Hnext. apply Forall_push; [exact Hlines|].
    now apply tidy_concat.
  - (* BB *)
    assert (Hb : tidy (chr bp)).
    { apply tidy_boundary; try assumption; rewrite Ety; try assumption; discriminate. }
    destruct (num_le (Math_round _) _).
    { injection H as <-. rewrite app_assoc. apply Hjoin; [exact Hlines| |apply Hnil].
      rewrite <- app_assoc. now repeat apply tidy_concat. }
    injection H as <-. apply Hjoin; [now apply Forall_push| |apply Hnil].
    now apply tidy_concat.
  - (* BK *)
    injection H as <-. apply Hnext. now apply Forall_push.
Qed.

Lemma packLoop_tidy (n : nat) : forall i st st',
  packTidy parts i st ->
  packLoop parameters addSpacing parts breakpoints n i st = Ok st' ->
  exists i', packTidy parts i' st'.
Proof.
  induction n as [|n IH]; intros i st st' Hst H; cbn [packLoop] in H.
  - injection H as <-. now exists i.
  - destruct (packStep _ _ _ _ i st) as [st1|] eqn:E; [|discriminate H].
    cbn [bind] in H. apply (IH (S i) st1 st'); [|exact H].
    now apply (packStep_tidy i st).
Qed.
End PackTidy.

(** X19. No line that the default policy returns holds a newline or a soft
    hyphen, and none starts with collapsible white space. *)
Theorem computeLinesDefault_tidy (parameters : ComputeLinesParams)
    (t : jsstring) (lines : list jsstring) :
  text parameters = Some t ->
  computeLinesDefault parameters = Ok lines -> Forall tidy lines.
Proof.
  intros Ht H. unfold computeLinesDefault in H. rewrite Ht in H.
  destruct (addWordAndLetterSpacing _ _) as [addSpacing|]; [|discriminate H].
  cbn [bind] in H. destruct t as [|c t]; [injection H as <-; constructor|].
  unfold scanParts in H.
  pose proof (scan_tidy (codePoints (c :: t)) (proj1 (codePoints_shape (c :: t)))
                ([], [], [])) as Hscan.
  destruct (fold_left scanStep (codePoints (c :: t)) ([], [], []))
    as [[parts breakpoints] part].
  destruct Hscan as (Hlen & Hparts & Hpart & Hbps & Hbai).
  { unfold scanTidy. split; [reflexivity|]. split; [constructor|].
    split; [apply tidy_nil|]. split; [constructor|].
    intros j bp E. destruct j; discriminate E. }
  set (parts' := match part with [] => parts | _ => parts ++ [part] end) in *.
  assert (Hparts' : Forall tidy parts').
  { subst parts'. destruct part; [exact Hparts|now apply Forall_push]. }
  assert (Hbai' : forall j bp, nth_error breakpoints j = Some bp -> type bp = tBAI ->
                               nth j parts' [] <> []).
  { intros j bp Hj Hty. subst parts'.
    assert (Hlt : (j < List.length parts)%nat).
    { rewrite Hlen. apply nth_error_Some. congruence. }
    destruct part; [|rewrite app_nth1 by exact Hlt]; now apply (Hbai j bp). }
  destruct (packLoop _ _ _ _ _ _ _) as [st|] eqn:E; [|discriminate H].
  cbn [bind] in H. injection H as <-.
  apply (packLoop_tidy parameters addSpacing parts' breakpoints Hparts' Hbps Hbai')
    in E.
  - destruct E as (i' & Hl & Hline & _). unfold flush.
    destruct (snd st); [exact Hl|now apply Forall_push].
  - unfold packTidy. cbn [fst snd]. split; [constructor|]. split; [apply tidy_nil|].
    intros j Hj. discriminate Hj.
Qed.

Lemma computeLinesDefault_tidy_witness :
  Forall tidy [js "ab"; js "cd"; js "ef-"; js "gh"].
Proof.
  apply (computeLinesDefault_tidy
           (plainParams 1 ([32; 97; 98; 32; 32; 99; 100; 10; 101; 102; 173; 103; 104]%N) 3)
           ([32; 97; 98; 32; 32; 99; 100; 10; 101; 102; 173; 103; 104]%N)
           [js "ab"; js "cd"; js "ef-"; js "gh"]).
  - reflexivity.
  - vm_compute. reflexivity.
Defined.

(** ** The default policy: a text that fits *)

Lemma scanStep_size (ch : jsstring)
    (st : list jsstring * list Breakpoint * jsstring) :
  (scanSize (scanStep st ch) <= scanSize st + List.length ch)%nat.
Proof.
  destruct st as [[parts breakpoints] part]. unfold scanStep.
  destruct (checkBreak ch) as [ty|].
  - assert (H : (scanSize (parts ++ [part],
                           breakpoints ++ [{| chr := ch; type := ty |}], [])
                 <= scanSize (parts, breakpoints, part) + List.length ch)%nat).
    { unfold scanSize. rewrite map_app, !concat_app, !length_app.
      cbn [List.map List.concat List.length chr]. rewrite !app_nil_r. lia. }
    destruct part, ty; try exact H. lia.
  - unfold scanSize. rewrite length_app. lia.
Qed.

Lemma scan_size (cps : list jsstring) : forall st,
  (scanSize (fold_left scanStep cps st)
   <= scanSize st + List.length (List.concat cps))%nat.
Proof.
  induction cps as [|ch cps IH]; intros st; cbn [fold_left List.concat].
  - lia.
  - rewrite length_app. pose proof (IH (scanStep st ch)) as H.
    pose proof (scanStep_size ch st). lia.
Qed.

Lemma scanStep_no_break (ch : jsstring)
    (st : list jsstring * list Breakpoint * jsstring) :
  checkBreak ch <> Some tBK ->
  Forall (fun bp => type bp <> tBK) (snd (fst st)) ->
  Forall (fun bp => type bp <> tBK) (snd (fst (scanStep st ch))).
Proof.
  destruct st as [[parts breakpoints] part]. cbn [fst snd]. intros Hc H.
  unfold scanStep. destruct (checkBreak ch) as [ty|]; [|exact H].
  assert (Hp : Forall (fun bp => type bp <> tBK)
                 (breakpoints ++ [{| chr := ch; type := ty |}])).
  { apply Forall_push; [exact H|]. cbn [type]. congruence. }
  destruct part, ty; cbn [fst snd]; try exact Hp; exact H.
Qed.

Lemma scan_no_break (cps : list jsstring) :
  Forall (fun ch => checkBreak ch <> Some tBK) cps -> forall st,
  Forall (fun bp => type bp <> tBK) (snd (fst st)) ->
  Forall (fun bp => type bp <> tBK) (snd (fst (fold_left scanStep cps st))).
Proof.
  induction 1 as [|ch cps Hch _ IH]; intros st Hst; cbn [fold_left]; [exact Hst|].
  apply IH. now apply scanStep_no_break.
Qed.

Lemma codePoints_no_newline (t : jsstring) :
  ~ In 0x000A%N t -> Forall (fun ch => checkBreak ch <> Some tBK) (codePoints t).
Proof.
  intros Hn. apply Forall_forall. intros ch Hin Hc. apply Hn.
  apply checkBreak_has in Hc. apply has_In in Hc. destruct Hc as [<-|[]].
  rewrite <- (proj1 (codePoints_concat t)). apply in_concat.
  exists [0x000A%N]. split; [exact Hin|now left].
Qed.

Lemma skipn_nth_length (l : list jsstring) (i : nat) :
  (List.length (nth i l []) + List.length (List.concat (skipn (S i) l))
   <= List.length (List.concat (skipn i l)))%nat.
Proof.
  revert i; induction l as [|x l IH]; intros i.
  - destruct i; cbn; lia.
  - destruct i as [|i].
    + cbn [nth skipn List.concat]. rewrite length_app. lia.
    + cbn [nth]. change (skipn (S (S i)) (x :: l)) with (skipn (S i) l).
      change (skipn (S i) (x :: l)) with (skipn i l). apply IH.
Qed.

Lemma skipn_nth_error_length (l : list Breakpoint) (j : nat) (bp : Breakpoint) :
  nth_error l j = Some bp ->
  (List.length (chr bp) + List.length (List.concat (List.map chr (skipn (S j) l)))
   <= List.length (List.concat (List.map chr (skipn j l))))%nat.
Proof.
  revert j; induction l as [|x l IH]; intros j H.
  - destruct j; discriminate H.
  - destruct j as [|j].
    + injection H as ->. cbn [skipn List.map List.concat]. rewrite length_app. lia.
    + change (skipn (S (S j)) (x :: l)) with (skipn (S j) l).
      change (skipn (S j) (x :: l)) with (skipn j l). now apply IH.
Qed.

Lemma skipn_concat_le (l : list jsstring) (i : nat) :
  (List.length (List.concat (skipn (S i) l))
   <= List.length (List.concat (skipn i l)))%nat.
Proof. pose proof (skipn_nth_length l i). lia. Qed.

Lemma skipn_chr_le (l : list Breakpoint) (j : nat) :
  (List.length (List.concat (List.map chr (skipn (S j) l)))
   <= List.length (List.concat (List.map chr (skipn j l))))%nat.
Proof.
  destruct (nth_error l j) as [bp|] eqn:E.
  - pose proof (skipn_nth_error_length l j bp E). lia.
  - apply nth_error_None in E. rewrite (skipn_all2 l) by lia. cbn. lia.
Qed.

Section PackOne.
Variable parameters : ComputeLinesParams.
Variable addSpacing : jsstring -> number.
Variable parts : list jsstring.
Variable breakpoints : list Breakpoint.
Hypothesis no_break : Forall (fun bp => type bp <> tBK) breakpoints.
Hypothesis all_fit : forall s,
  (List.length s <= List.length (List.concat parts)
                    + List.length (List.concat (List.map chr breakpoints)))%nat ->
  fits parameters addSpacing s.

Lemma packStep_one (i : nat) (st st' : list jsstring * jsstring) :
  packOne parts breakpoints i st ->
  packStep parameters addSpacing parts breakpoints i st = Ok st' ->
  packOne parts breakpoints (S i) st'.
Proof.
  destruct st as [lines line]. unfold packOne. cbn [fst snd].
  intros [-> Hlen] H. unfold packStep in H.
  destruct i as [|j].
  { injection H as <-. cbn [fst snd pred]. split; [reflexivity|].
    cbn [List.length skipn pred] in Hlen.
    pose proof (skipn_nth_length parts 0). cbn [skipn] in *. lia. }
  cbn [pred] in *.
  pose proof (skipn_nth_length parts (S j)) as Hp.
  pose proof (skipn_chr_le breakpoints j) as Hc.
  destruct (has BAI (nth j parts []) && has BAI (nth (S j) parts [])).
  { injection H as <-. cbn [fst snd]. split; [reflexivity|]. lia. }
  destruct (nth_error breakpoints j) as [bp|] eqn:Ebp; [|discriminate H].
  pose proof (skipn_nth_error_length breakpoints j bp Ebp) as Hb.
  rewrite Forall_forall in no_break.
  pose proof (no_break bp (nth_error_In _ _ Ebp)) as Hbk.
  set (ch := if BreakType_eqb (type bp) tSHY then [] else chr bp) in *.
  assert (Hch : (List.length ch <= List.length (chr bp))%nat).
  { subst ch. destruct (BreakType_eqb (type bp) tSHY); cbn; lia. }
  destruct (BreakType_eqb (type bp) tBK) eqn:Ek.
  { destruct (type bp); try discriminate Ek. now destruct Hbk. }
  assert (Hfit : num_le (Math_round (rawWidth parameters addSpacing
                                       (line ++ ch ++ nth (S j) parts [])))
                        (max parameters) = true).
  { apply all_fit. rewrite !length_app. lia. }
  rewrite Hfit in H. injection H as <-. cbn [fst snd]. split; [reflexivity|].
  rewrite !length_app. lia.
Qed.

Lemma packLoop_one (n : nat) : forall i st st',
  packOne parts breakpoints i st ->
  packLoop parameters addSpacing parts breakpoints n i st = Ok st' ->
  fst st' = [].
Proof.
  induction n as [|n IH]; intros i st st' Hst H; cbn [packLoop] in H.
  - injection H as <-. apply Hst.
  - destruct (packStep _ _ _ _ i st) as [st1|] eqn:E; [|discriminate H].
    cbn [bind] in H. apply (IH (S i) st1 st'); [|exact H].
    now apply (packStep_one i st).
Qed.
End PackOne.

(** X20. When the text holds no newline and every string that is not
    longer than the text fits (its rounded width is within the width to
    fill), the default policy returns the text as one line at most. *)
Theorem computeLinesDefault_one_line (parameters : ComputeLinesParams)
    (t : jsstring) (addSpacing : jsstring -> number) :
  text parameters = Some t -> ~ In 0x000A%N t ->
  addWordAndLetterSpacing (wordSpacing parameters) (letterSpacing parameters)
  = Ok addSpacing ->
  (forall s, (List.length s <= List.length t)%nat -> fits parameters addSpacing s) ->
  exists lines,
    computeLinesDefault parameters = Ok lines /\ (List.length lines <= 1)%nat.
Proof.
  intros Ht Hn Hs Hfit.
  destruct (computeLinesDefault_returns parameters addSpacing Hs) as [lines H].
  exists lines. split; [exact H|].
  unfold computeLinesDefault in H. rewrite Hs, Ht in H. cbn [bind] in H.
  destruct t as [|c t]; [injection H as <-; cbn; lia|].
  unfold scanParts in H.
  pose proof (scan_size (codePoints (c :: t)) ([], [], [])) as Hsize.
  pose proof (scan_no_break (codePoints (c :: t))
                (codePoints_no_newline (c :: t) Hn) ([], [], [])) as Hbk.
  rewrite (proj1 (codePoints_concat (c :: t))) in Hsize.
  destruct (fold_left scanStep (codePoints (c :: t)) ([], [], []))
    as [[parts breakpoints] part].
  cbn [fst snd] in Hbk. specialize (Hbk (Forall_nil _)).
  unfold scanSize in Hsize. cbn [List.concat List.map List.length] in Hsize.
  set (parts' := match part with [] => parts | _ => parts ++ [part] end) in *.
  assert (Hparts : (List.length (List.concat parts')
                    <= List.length (List.concat parts) + List.length part)%nat).
  { subst parts'. destruct part; [lia|].
    rewrite concat_app, length_app. cbn [List.concat]. rewrite app_nil_r. lia. }
  destruct (packLoop _ _ _ _ _ _ _) as [st|] eqn:E; [|discriminate H].
  cbn [bind] in H. injection H as <-.
  apply (packLoop_one parameters addSpacing parts' breakpoints Hbk) in E.
  - unfold flush. rewrite E. destruct (snd st); cbn; lia.
  - intros s Hlen. apply Hfit. cbn [List.length]. lia.
  - unfold packOne. cbn [fst snd skipn pred List.length]. split; [reflexivity|]. lia.
Qed.

Lemma computeLinesDefault_one_line_witness :
  exists lines,
    computeLinesDefault (plainParams 1 (js "ab  cd ef") 9) = Ok lines
    /\ (List.length lines <= 1)%nat.
Proof.
  apply (computeLinesDefault_one_line (plainParams 1 (js "ab  cd ef") 9)
           (js "ab  cd ef") (spacingOf (num 0) (num 0))).
  - reflexivity.
  - vm_compute. intuition discriminate.
  - reflexivity.
  - intros s Hs. unfold fits, rawWidth, plainParams, fixedWidth, spacingOf.
    cbn [ctx max]. rewrite !num_mul_int, num_add_int, !Z.mul_0_r.
    change (0 + 0) with 0. unfold num at 1. cbn [num_add]. cbn [Math_round].
    apply num_le_fin. rewrite <- Zle_Qle.
    change (List.length (js "ab  cd ef")) with 9%nat in Hs.
    apply Z.le_trans with (Qfloor (inject_Z 9 + (1 # 2))); [|reflexivity].
    apply Qfloor_resp_le. rewrite Qred_correct.
    apply Qplus_le_compat; [|apply Qle_refl].
    rewrite Qplus_0_r, Qmult_1_r. rewrite <- Zle_Qle. lia.
Defined.

(** ** The line packers when the width to fill is no number *)

Lemma num_le_NaN (a : number) : num_le a NaN = false.
Proof. now destruct a. Qed.

Lemma breakAllStep_NaN (parameters : ComputeLinesParams)
    (addSpacing : jsstring -> number) (lines : list jsstring) (line ch : jsstring)
    (index : nat) :
  max parameters = NaN -> checkBreak ch <> Some tBK ->
  fst (fst (breakAllStep parameters addSpacing (lines, line, index) ch)) = lines.
Proof.
  intros Hmax Hbk. unfold breakAllStep. rewrite Hmax. unfold num_gt.
  cbn [num_lt andb].
  destruct (checkBreak ch) as [[]|]; try (now destruct Hbk);
    destruct (has BAI ch && _); try reflexivity;
    destruct (negb (str_eqb ch [0x00AD%N])); reflexivity.
Qed.

Lemma breakAll_fold_NaN (parameters : ComputeLinesParams)
    (addSpacing : jsstring -> number) (cps : list jsstring) :
  max parameters = NaN ->
  Forall (fun ch => checkBreak ch <> Some tBK) cps ->
  forall lines line index,
    fst (fst (fold_left (breakAllStep parameters addSpacing) cps (lines, line, index)))
    = lines.
Proof.
  intros Hmax. induction 1 as [|ch cps Hch _ IH]; intros lines line index;
    cbn [fold_left]; [reflexivity|].
  pose proof (breakAllStep_NaN parameters addSpacing lines line ch index Hmax Hch) as E.
  destruct (breakAllStep parameters addSpacing (lines, line, index) ch)
    as [[lines1 line1] index1].
  cbn [fst] in E. subst lines1. apply IH.
Qed.

Lemma spaceless_app (a b : jsstring) : spaceless a -> spaceless b -> spaceless (a ++ b).
Proof. intros Ha Hb c H. apply in_app_or in H as [H|H]; auto. Qed.

Lemma spaceless_nil : spaceless [].
Proof. intros c []. Qed.

Lemma codePoint_spaceless (ch : jsstring) :
  isCodePoint ch -> has BAI ch = false -> spaceless ch.
Proof.
  intros [[c ->]|(c & d & -> & Hc & Hd)] Hbai x Hx.
  - destruct Hx as [<-|[]]. exact Hbai.
  - destruct (has BAI [x]) eqn:Eb; [|reflexivity].
    apply has_In in Eb. unfold BAI in Eb. cbn [List.map In] in Eb.
    destruct Hx as [<-|[<-|[]]];
      repeat (destruct Eb as [Eb|Eb];
              [injection Eb as <-; first [discriminate Hc|discriminate Hd]|]);
      destruct Eb.
Qed.

Lemma unclassified_spaceless (ch : jsstring) :
  isCodePoint ch -> checkBreak ch = None -> spaceless ch.
Proof.
  intros Hcp Hc. apply codePoint_spaceless; [exact Hcp|].
  apply (proj1 (checkBreak_none_iff ch) Hc tBAI).
Qed.

Lemma boundary_spaceless (bp : Breakpoint) :
  isCodePoint (chr bp) -> checkBreak (chr bp) = Some (type bp) ->
  type bp <> tBAI -> spaceless (chr bp).
Proof.
  intros Hcp Hc Hty. apply codePoint_spaceless; [exact Hcp|].
  destruct (has BAI (chr bp)) eqn:E; [|reflexivity].
  apply (checkBreak_some_iff (chr bp) tBAI) in E. congruence.
Qed.

Lemma scanStep_spaceless (ch : jsstring)
    (st : list jsstring * list Breakpoint * jsstring) :
  isCodePoint ch ->
  Forall spaceless (fst (fst st)) /\ spaceless (snd st) ->
  Forall spaceless (fst (fst (scanStep st ch))) /\ spaceless (snd (scanStep st ch)).
Proof.
  destruct st as [[parts breakpoints] part]. cbn [fst snd]. intros Hcp [Hparts Hpart].
  unfold scanStep. destruct (checkBreak ch) as [ty|] eqn:Ec.
  - assert (Hp : Forall spaceless (parts ++ [part]) /\ spaceless [])
      by (split; [now apply Forall_push|apply spaceless_nil]).
    destruct part, ty; cbn [fst snd]; try exact Hp; now split.
  - cbn [fst snd]. split; [exact Hparts|].
    apply spaceless_app; [exact Hpart|now apply unclassified_spaceless].
Qed.

Lemma scan_spaceless (cps : list jsstring) :
  Forall isCodePoint cps -> forall st,
  Forall spaceless (fst (fst st)) /\ spaceless (snd st) ->
  Forall spaceless (fst (fst (fold_left scanStep cps st)))
  /\ spaceless (snd (fold_left scanStep cps st)).
Proof.
  induction 1 as [|ch cps Hch _ IH]; intros st Hst; cbn [fold_left]; [exact Hst|].
  apply IH. now apply scanStep_spaceless.
Qed.

Section PackNaN.
Variable parameters : ComputeLinesParams.
Variable addSpacing : jsstring -> number.
Variable parts : list jsstring.
Variable breakpoints : list Breakpoint.
Hypothesis no_width : max parameters = NaN.
Hypothesis parts_spaceless : Forall spaceless parts.
Hypothesis breakpoints_typed :
  Forall (fun bp => isCodePoint (chr bp) /\ checkBreak (chr bp) = Some (type bp))
         breakpoints.

Lemma nth_spaceless (i : nat) : spaceless (nth i parts []).
Proof.
  destruct (Nat.lt_ge_cases i (List.length parts)) as [Hi|Hi].
  - rewrite Forall_forall in parts_spaceless. apply parts_spaceless. now apply nth_In.
  - rewrite nth_overflow by exact Hi. apply spaceless_nil.
Qed.

Lemma packStep_NaN (i : nat) (st st' : list jsstring * jsstring) :
  Forall spaceless (fst st) /\ spaceless (snd st) ->
  packStep parameters addSpacing parts breakpoints i st = Ok st' ->
  Forall spaceless (fst st') /\ spaceless (snd st').
Proof.
  destruct st as [lines line]. cbn [fst snd]. intros [Hlines Hline] H.
  unfold packStep in H. destruct i as [|j].
  { injection H as <-. cbn [fst snd]. split; [exact Hlines|apply nth_spaceless]. }
  pose proof (nth_spaceless (S j)) as Hpart.
  destruct (has BAI (nth j parts []) && has BAI (nth (S j) parts [])).
  { injection H as <-. now split. }
  destruct (nth_error breakpoints j) as [bp|] eqn:Ebp; [|discriminate H].
  rewrite Forall_forall in breakpoints_typed.
  destruct (breakpoints_typed bp (nth_error_In _ _ Ebp)) as [Hcp Hc].
  rewrite no_width, !num_le_NaN in H.
  destruct (type bp) eqn:Ety; cbn [BreakType_eqb] in H; injection H as <-;
    cbn [fst snd]; (split; [|try exact Hpart]);
    try (apply Forall_push; [exact Hlines|]); try exact Hline.
  - change [line; chr bp] with ([line] ++ [chr bp]). rewrite app_assoc.
    apply Forall_push; [now apply Forall_push|].
    apply boundary_spaceless; [exact Hcp|congruence|rewrite Ety; discriminate].
  - apply spaceless_app; [exact Hline|].
    intros c [<-|[]]. reflexivity.
  - apply spaceless_app; [exact Hline|].
    apply boundary_spaceless; [exact Hcp|congruence|rewrite Ety; discriminate].
  - apply spaceless_app; [|exact Hpart].
    apply boundary_spaceless; [exact Hcp|congruence|rewrite Ety; discriminate].
Qed.

Lemma packLoop_NaN (n : nat) : forall i st st',
  Forall spaceless (fst st) /\ spaceless (snd st) ->
  packLoop parameters addSpacing parts breakpoints n i st = Ok st' ->
  Forall spaceless (fst st') /\ spaceless (snd st').
Proof.
  induction n as [|n IH]; intros i st st' Hst H; cbn [packLoop] in H.
  - now injection H as <-.
  - destruct (packStep _ _ _ _ i st) as [st1|] eqn:E; [|discriminate H].
    cbn [bind] in H. apply (IH (S i) st1 st'); [|exact H].
    now apply (packStep_NaN i st).
Qed.
End PackNaN.

Lemma computeLinesBreakAll_NaN (parameters : ComputeLinesParams)
    (t : jsstring) (lines : list jsstring) :
  max parameters = NaN -> text parameters = Some t -> ~ In 0x000A%N t ->
  computeLinesBreakAll parameters = Ok lines -> (List.length lines <= 1)%nat.
Proof.
  intros Hmax Ht Hn H. unfold computeLinesBreakAll in H. rewrite Ht in H.
  destruct (addWordAndLetterSpacing _ _) as [addSpacing|]; [|discriminate H].
  cbn [bind] in H. destruct t as [|c t]; [injection H as <-; cbn; lia|].
  pose proof (breakAll_fold_NaN parameters addSpacing (codePoints (c :: t)) Hmax
                (codePoints_no_newline (c :: t) Hn) [] [] O) as E.
  destruct (fold_left _ _ _) as [[lines' line'] index'].
  cbn [fst] in E. subst lines'. injection H as <-.
  unfold flush. cbn [fst snd]. destruct line'; cbn; lia.
Qed.

Lemma computeLinesDefault_NaN (parameters : ComputeLinesParams)
    (t : jsstring) (lines : list jsstring) :
  max parameters = NaN -> text parameters = Some t ->
  computeLinesDefault parameters = Ok lines -> Forall spaceless lines.
Proof.
  intros Hmax Ht H. unfold computeLinesDefault in H. rewrite Ht in H.
  destruct (addWordAndLetterSpacing _ _) as [addSpacing|]; [|discriminate H].
  cbn [bind] in H. destruct t as [|c t]; [injection H as <-; constructor|].
  unfold scanParts in H.
  pose proof (scan_tidy (codePoints (c :: t)) (proj1 (codePoints_shape (c :: t)))
                ([], [], [])) as Htidy.
  pose proof (scan_spaceless (codePoints (c :: t))
                (proj1 (codePoints_shape (c :: t))) ([], [], [])) as Hsp.
  destruct (fold_left scanStep (codePoints (c :: t)) ([], [], []))
    as [[parts breakpoints] part].
  destruct Htidy as (_ & _ & _ & Hbps & _).
  { unfold scanTidy. split; [reflexivity|]. split; [constructor|].
    split; [apply tidy_nil|]. split; [constructor|].
    intros j bp E. destruct j; discriminate E. }
  cbn [fst snd] in Hsp. destruct Hsp as [Hparts Hpart].
  { split; [constructor|apply spaceless_nil]. }
  set (parts' := match part with [] => parts | _ => parts ++ [part] end) in *.
  assert (Hparts' : Forall spaceless parts').
  { subst parts'. destruct part; [exact Hparts|now apply Forall_push]. }
  destruct (packLoop _ _ _ _ _ _ _) as [st|] eqn:E; [|discriminate H].
  cbn [bind] in H. injection H as <-.
  apply (packLoop_NaN parameters addSpacing parts' breakpoints Hmax Hparts' Hbps)
    in E.
  - destruct E as [Hl Hline]. unfold flush.
    destruct (snd st); [exact Hl|now apply Forall_push].
  - split; [constructor|apply spaceless_nil].
Qed.

(** X21. When the width to fill is no number, no width test of either
    policy succeeds: the break-all policy never breaks for width and returns
    a text without newline as one line at most, and the default policy never
    keeps a boundary of collapsible white space, so that no line it returns
    holds collapsible white space. *)
Theorem computeLines_without_width (parameters : ComputeLinesParams)
    (t : jsstring) (lines : list jsstring) :
  max parameters = NaN -> text parameters = Some t ->
  (~ In 0x000A%N t -> computeLinesBreakAll parameters = Ok lines ->
   (List.length lines <= 1)%nat)
  /\ (computeLinesDefault parameters = Ok lines -> Forall spaceless lines).
Proof.
  intros Hmax Ht. split.
  - intros Hn. now apply (computeLinesBreakAll_NaN parameters t).
  - now apply (computeLinesDefault_NaN parameters t).
Qed.

Lemma computeLines_without_width_witness :
  Forall spaceless [js "ab"; js "cd"; js "ef"].
Proof.
  apply (computeLines_without_width
           {| ctx := fixedWidth 1; text := Some (js "ab cd  ef"); max := NaN;
              wordSpacing := None; letterSpacing := None |}
           (js "ab cd  ef") [js "ab"; js "cd"; js "ef"]).
  - reflexivity.
  - reflexivity.
  - vm_compute. reflexivity.
Defined.


Lemma maxWidth_noWidth (this : TextMetrics) (parsed : TextMetricsArguments) :
  noWidth this parsed -> maxWidth this parsed = NaN.
Proof.
  intros (Hel & Ho & Hw & Hs & Hi). unfold maxWidth, padding. rewrite Hel, Hw.
  unfold prop. rewrite Ho, Hs. cbn [por truthy]. 
  change (parseInt (por VUndefined VUndefined)) with NaN.
  change (parseInt (VNum (num 0))) with (num 0).
  cbn [por truthy num_truthy]. rewrite Hi. reflexivity.
Qed.

(** X22. [lines] on an instance without element, when no width is given
    anywhere, packs with a width to fill that is no number: with the default
    policy no line it returns holds collapsible white space, and with
    break-all a text without newline is returned as one line at most. *)
Theorem lines_without_width (host : Host) (this : TextMetrics)
    (t : option jsstring) (options overwrites : option obj) (ls : list jsstring) :
  let parsed := parseArgs this t options overwrites in
  noWidth this parsed ->
  lines host this t options overwrites = Ok ls ->
  (breaksAll this parsed = false -> Forall spaceless ls)
  /\ (breaksAll this parsed = true ->
      ~ In 0x000A%N (getStyledText host (arg_text parsed) (style this)) ->
      (List.length ls <= 1)%nat).
Proof.
  intros parsed Hw H. unfold lines in H. fold parsed in H.
  destruct (getFont _ _) as [font|]; [|discriminate H]. cbn [bind] in H.
  destruct (getContext2d host font) as [c|]; [|discriminate H]. cbn [bind] in H.
  destruct (spacingValues _ _) as [spacing|]; [|discriminate H]. cbn [bind] in H.
  rewrite (maxWidth_noWidth this parsed Hw) in H.
  fold (breaksAll this parsed) in H.
  unfold breaksAll. unfold breaksAll in H.
  destruct (asString _) as [b|].
  - destruct (str_eqb b (js "break-all")); split; try discriminate.
    + intros _ Hn.
      apply (computeLinesBreakAll_NaN
               _ (getStyledText host (arg_text parsed) (style this)) ls) in H;
        [exact H|reflexivity|reflexivity|exact Hn].
    + intros _.
      apply (computeLinesDefault_NaN
               _ (getStyledText host (arg_text parsed) (style this)) ls) in H;
        [exact H| |]; reflexivity.
  - split; [|discriminate]. intros _.
    apply (computeLinesDefault_NaN
             _ (getStyledText host (arg_text parsed) (style this)) ls) in H;
      [exact H| |]; reflexivity.
Qed.

Lemma lines_without_width_witness :
  Forall spaceless [js "ab"; js "cd"; js "ef"].
Proof.
  apply (lines_without_width plainHost
           {| el := None; overwrites := []; style := fun _ => VUndefined |}
           (Some (js "ab cd  ef")) (Some []) (Some []) [js "ab"; js "cd"; js "ef"]).
  - repeat split.
  - vm_compute. reflexivity.
  - reflexivity.
Defined.


(** ** The break-all policy: no empty line *)

Lemma app_nonempty (a b : jsstring) : a <> [] -> a ++ b <> [].
Proof. intros Ha E. apply app_eq_nil in E. now destruct E. Qed.

(** X23. The break-all policy returns no empty line for a text without
    newline: a line is put out only when it holds a character. *)
Theorem computeLinesBreakAll_no_empty_line (parameters : ComputeLinesParams)
    (t : jsstring) (lines : list jsstring) :
  text parameters = Some t -> ~ In 0x000A%N t ->
  computeLinesBreakAll parameters = Ok lines ->
  Forall (fun line => line <> []) lines.
Proof.
  intros Ht Hn H.
  destruct (addWordAndLetterSpacing (wordSpacing parameters) (letterSpacing parameters))
    as [addSpacing|message] eqn:Es.
  2:{ unfold computeLinesBreakAll in H. rewrite Es in H. discriminate H. }
  apply (breakAll_lines_inv parameters addSpacing (fun line => line <> [])
           (fun _ => True) t lines); try assumption; [|exact I|auto].
  intros ls line chr ls' line' _ Hin HP _ Hm.
  pose proof (codePoints_no_newline t Hn) as Hbk. rewrite Forall_forall in Hbk.
  destruct Hm as [|[Hc|Hne]|Hne|Hne Hba|Hne Hty|Hshy _ Hfit];
    (split; [|exact I]); try exact HP.
  - now destruct (Hbk chr Hin).
  - now apply Forall_push.
  - apply Forall_push; [exact HP|now apply app_nonempty].
  - apply Forall_push; [exact HP|now apply app_nonempty].
  - now apply Forall_push.
Qed.

Lemma computeLinesBreakAll_no_empty_line_witness :
  Forall (fun line => line <> []) [js "abc"; js "d e"; js "f"].
Proof.
  apply (computeLinesBreakAll_no_empty_line (plainParams 1 (js "abcd  e f") 3)
           (js "abcd  e f") [js "abc"; js "d e"; js "f"]).
  - reflexivity.
  - vm_compute. intuition discriminate.
  - vm_compute. reflexivity.
Defined.
